(** * CP-SAT cut selection (main_cpsat.py): catalog loading, depth bound,
      model construction, chosen-cut extraction and the two-phase driver.

    The Python code is embedded shallowly:
    - JSON values as an inductive type, Python dicts with string keys as
      insertion-ordered association lists ([pydict]) where the code iterates
      or dumps them, and as [gmap string _] where it only looks keys up;
    - exceptions as a [result] type;
    - the CP-SAT model as a record of declared variables and posted
      constraints, built by explicit state passing;
    - the external world (file system, JSON parser, cut enumerator, CP-SAT
      solver) as section variables. *)

From Stdlib Require Import ZArith List String Ascii Bool Lia QArith.
From stdpp Require Import base option list gmap strings pretty.

Local Open Scope string_scope.
Local Open Scope list_scope.
Local Open Scope Z_scope.
Set Warnings "-register-all,-clear-no-such-hyp".

(* ===================================================================== *)
(** ** Exceptions *)
(* ===================================================================== *)

Inductive py_exc :=
  | FileNotFoundError | OSError | ValueError | RuntimeError
  | AttributeError | TypeError | KeyError.

Inductive result (A : Type) :=
  | Ok (a : A)
  | Raise (e : py_exc).
Arguments Ok {A} a.
Arguments Raise {A} e.

Definition rbind {A B} (r : result A) (k : A → result B) : result B :=
  match r with Ok a => k a | Raise e => Raise e end.

(* ===================================================================== *)
(** ** JSON values and Python dicts *)
(* ===================================================================== *)

(** What [json.load] returns.  A float is kept as mantissa and binary
    exponent (m * 2^e); the loader passes it on and never computes with
    one. *)
Inductive json :=
  | JNull
  | JBool (b : bool)
  | JInt (z : Z)
  | JFloat (m e : Z)
  | JStr (s : string)
  | JList (l : list json)
  | JDict (d : list (string * json)).

(** A Python dict with string keys, in insertion order. *)
Definition pydict (V : Type) := list (string * V).

Fixpoint dict_get {V} (k : string) (d : pydict V) : option V :=
  match d with
  | [] => None
  | (k', v) :: d' => if String.eqb k k' then Some v else dict_get k d'
  end.

(** [d[k] = v]: an existing key keeps its position, a new one goes last. *)
Fixpoint dict_set {V} (k : string) (v : V) (d : pydict V) : pydict V :=
  match d with
  | [] => [(k, v)]
  | (k', v') :: d' =>
      if String.eqb k k' then (k, v) :: d' else (k', v') :: dict_set k v d'
  end.

Definition dict_has {V} (k : string) (d : pydict V) : bool :=
  match dict_get k d with Some _ => true | None => false end.

(* ===================================================================== *)
(** ** The catalog after loading (section 6.1 of the spec) *)
(* ===================================================================== *)

(** A cut record.  Every field may be absent from the dict. *)
Record cut := mk_cut {
  cut_leaves : option (list string);
  cut_inv_cost : option Z;
  cut_area_cost : option Z;
  cut_depth_cost : option Z;
}.

Record node := mk_node {
  nd_name : string;
  nd_cuts : list cut;
}.

(** [cat_outputs] is [data.get("outputs") or []]: a missing key, [null] and
    the empty array are all falsy wherever the code reads them. *)
Record catalog := mk_catalog {
  cat_nodes : list node;
  cat_outputs : list string;
  cat_inputs : list string;
}.

(** [len(leaves) == 1 and leaves[0] == name] *)
Definition is_self_cut (leaves : list string) (name : string) : bool :=
  match leaves with
  | [l] => String.eqb l name
  | _ => false
  end.

(** [x or 1] on integers. *)
Definition or_1 (x : Z) : Z := if x =? 0 then 1 else x.

(** [len(nodes) or 1] *)
Definition len_or_1 {A} (l : list A) : Z := or_1 (Z.of_nat (length l)).

(** [{nd["name"]: nd for nd in nodes}]: a later node of the same name
    replaces an earlier one. *)
Definition node_map_of (nodes : list node) : gmap string node :=
  fold_left (fun m nd => <[nd_name nd := nd]> m) nodes ∅.

(* ===================================================================== *)
(** ** Depth bounder: [_compute_depth_upper_bound] *)
(* ===================================================================== *)

(** The two mutable objects the nested function [depth] closes over. *)
Record dfs_state := mk_dfs {
  memo : gmap string Z;
  visiting : gset string;
}.

(** A computation over the DFS state; [None] means the fuel ran out. *)
Definition DFS (A : Type) := dfs_state → option (A * dfs_state).

Definition dfs_ret {A} (a : A) : DFS A := fun st => Some (a, st).
Definition dfs_bind {A B} (c : DFS A) (k : A → DFS B) : DFS B :=
  fun st => match c st with
            | Some (a, st') => k a st'
            | None => None
            end.

(** [[f(x) for x in xs]] with the state threaded left to right. *)
Fixpoint dfs_map {A B} (f : A → DFS B) (xs : list A) : DFS (list B) :=
  match xs with
  | [] => dfs_ret []
  | x :: xs' =>
      dfs_bind (f x) (fun y =>
      dfs_bind (dfs_map f xs') (fun ys =>
      dfs_ret (y :: ys)))
  end.

(** [max(xs, default=d)] *)
Definition py_max (xs : list Z) (d : Z) : Z :=
  match xs with
  | [] => d
  | x :: xs' => fold_left Z.max xs' x
  end.

(** [int(cut.get("depth_cost", 1) or 1)] *)
Definition depth_step (c : cut) : Z :=
  or_1 (default 1 (cut_depth_cost c)).

Section depth.
Variable nodes : list node.
Let node_map := node_map_of nodes.

(** The [for cut in nd.get("cuts", [])] loop of [depth]; [rec] is the
    recursive call. *)
Fixpoint depth_cuts (rec : string → DFS Z) (name : string)
    (cuts : list cut) (best : option Z) : DFS (option Z) :=
  match cuts with
  | [] => dfs_ret best
  | c :: cs =>
      let leaves_raw := default [] (cut_leaves c) in
      if is_self_cut leaves_raw name then depth_cuts rec name cs best
      else
        let leaves := filter (fun l => l ≠ name) leaves_raw in
        dfs_bind (dfs_map rec leaves) (fun ds =>
          let leaf_depth := py_max ds 0 in
          let cut_depth := leaf_depth + depth_step c in
          let best' :=
            match best with
            | None => Some cut_depth
            | Some b => if cut_depth <? b then Some cut_depth else Some b
            end in
          depth_cuts rec name cs best')
  end.

(** The body of [depth].  [visiting.remove(name)] finds [name] in the set:
    the calls in between leave the set as they found it (see
    [depth_total_measure]). *)
Definition depth_body (rec : string → DFS Z) (name : string) : DFS Z :=
  fun st =>
    match memo st !! name with
    | Some d => Some (d, st)
    | None =>
        if decide (name ∈ visiting st) then Some (len_or_1 nodes, st)
        else
          match node_map !! name with
          | None => Some (0, mk_dfs (<[name := 0]> (memo st)) (visiting st))
          | Some nd =>
              let st1 := mk_dfs (memo st) ({[name]} ∪ visiting st) in
              match depth_cuts rec name (nd_cuts nd) None st1 with
              | None => None
              | Some (best, st2) =>
                  let best := default 0 best in
                  Some (best,
                        mk_dfs (<[name := best]> (memo st2))
                               (visiting st2 ∖ {[name]}))
              end
          end
    end.

(** [depth] under an interpreter that allows [fuel] nested calls of it;
    [None] is the [RecursionError] of a call beyond that. *)
Fixpoint depth (fuel : nat) (name : string) : DFS Z :=
  match fuel with
  | O => fun _ => None
  | S fuel' => depth_body (depth fuel') name
  end.
End depth.

(** The root set: declared outputs, else [Nout], else the last node. *)
Definition resolve_outputs (data : catalog) : list string :=
  match cat_outputs data with
  | [] =>
      if decide (is_Some (node_map_of (cat_nodes data) !! "Nout"))
      then ["Nout"]
      else match last (cat_nodes data) with
           | Some nd => [nd_name nd]
           | None => []
           end
  | outs => outs
  end.

(** [max(ub_candidates) if ub_candidates else len(nodes) or 1] *)
Definition base_of (nodes : list node) (ub_candidates : list Z) : Z :=
  match ub_candidates with
  | [] => len_or_1 nodes
  | d :: ds => fold_left Z.max ds d
  end.

(** [int(base * 1.5)].  The product is a double: it is exact, and equal to
    3*base/2, while |base| < 2^51; [int] truncates toward zero. *)
Definition int_mul_1_5 (base : Z) : Z := Z.quot (3 * base) 2.

Definition ub_of_base (nodes : list node) (base : Z) : Z :=
  let ub_with_slack := Z.max (base + 10) (int_mul_1_5 base) in
  let ub := Z.max ub_with_slack (len_or_1 nodes) in
  Z.max 1 ub.

Definition dfs_init : dfs_state := mk_dfs ∅ ∅.

(** [ub_candidates] and [base]. *)
Definition base_depth (fuel : nat) (data : catalog) : option Z :=
  let nodes := cat_nodes data in
  match dfs_map (depth nodes fuel) (resolve_outputs data) dfs_init with
  | Some (ub_candidates, _) => Some (base_of nodes ub_candidates)
  | None => None
  end.

(** [_compute_depth_upper_bound] under an interpreter that allows [fuel]
    nested calls of [depth]: nothing catches the [RecursionError], so it is
    the function's outcome ([None]). *)
Definition compute_depth_upper_bound_fuel (fuel : nat) (data : catalog)
    : option Z :=
  option_map (ub_of_base (cat_nodes data)) (base_depth fuel data).

(** The value [_compute_depth_upper_bound] returns whenever it returns.  The
    recursion of [depth] is never deeper than the number of nodes plus one
    (see [depth_total]), which is the fuel given here, and a different fuel
    that suffices gives the same value (see
    [compute_depth_upper_bound_fuel_value]).  Whether the interpreter admits
    that many nested calls is not decided here: it is the [fuel] of
    [compute_depth_upper_bound_fuel]. *)
Definition _compute_depth_upper_bound (data : catalog) : option Z :=
  compute_depth_upper_bound_fuel (S (length (cat_nodes data))) data.

(** The bound as the spec words it:
    max(base + 10, ceil(1.5 * base), len(nodes), 1). *)
Definition spec_depth_upper_bound (nodes : list node) (base : Z) : Z :=
  Z.max (Z.max (Z.max (base + 10) ((3 * base + 1) / 2))
               (Z.of_nat (length nodes))) 1.

(* ===================================================================== *)
(** ** The CP-SAT model: variables, linear expressions, constraints *)
(* ===================================================================== *)

(** A variable is its index in the model, in order of creation. *)
Abbreviation var := nat (only parsing).

Inductive linexpr :=
  | LConst (k : Z)
  | LVar (v : var)
  | LAdd (a b : linexpr)
  | LSub (a b : linexpr)
  | LMul (k : Z) (e : linexpr).

Inductive constraint :=
  | CEq (a b : linexpr)
  | CLe (a b : linexpr)
  | CGe (a b : linexpr)
  | CImplication (a b : var).

Record var_decl := mk_var {
  var_lb : Z;
  var_ub : Z;
  var_name : string;
}.

Record CpModel := mk_model {
  variables : list var_decl;
  constraints : list constraint;
  objective : option linexpr;
}.

Definition empty_model : CpModel := mk_model [] [] None.

(** Bounds are any integers here.  CP-SAT takes 64-bit ones and raises on
    others: that a variable is declared is a fact about the real model only
    where its bounds are in that range. *)
Definition NewIntVar (lb ub : Z) (name : string) (m : CpModel)
    : var * CpModel :=
  (length (variables m),
   mk_model (variables m ++ [mk_var lb ub name]) (constraints m) (objective m)).

Definition NewBoolVar (name : string) : CpModel → var * CpModel :=
  NewIntVar 0 1 name.

Definition NewConstant (k : Z) : CpModel → var * CpModel :=
  NewIntVar k k "".

Definition Add (c : constraint) (m : CpModel) : CpModel :=
  mk_model (variables m) (constraints m ++ [c]) (objective m).

(** A loop whose body only posts constraints. *)
Definition add_all (cs : list constraint) (m : CpModel) : CpModel :=
  fold_left (fun m c => Add c m) cs m.

Definition Minimize (e : linexpr) (m : CpModel) : CpModel :=
  mk_model (variables m) (constraints m) (Some e).

(** [sum(xs)] and [LinearExpr.Sum(xs)]: 0 + x1 + x2 + ... *)
Definition py_sum (es : list linexpr) : linexpr :=
  fold_left LAdd es (LConst 0).

(** *** Meaning of a model under [solver.Value] *)

Fixpoint eval (val : var → Z) (e : linexpr) : Z :=
  match e with
  | LConst k => k
  | LVar v => val v
  | LAdd a b => eval val a + eval val b
  | LSub a b => eval val a - eval val b
  | LMul k a => k * eval val a
  end.

Definition holds (val : var → Z) (c : constraint) : bool :=
  match c with
  | CEq a b => eval val a =? eval val b
  | CLe a b => eval val a <=? eval val b
  | CGe a b => eval val b <=? eval val a
  | CImplication a b => implb (val a =? 1) (val b =? 1)
  end.

Definition in_domain (val : var → Z) (v : var) (d : var_decl) : bool :=
  (var_lb d <=? val v) && (val v <=? var_ub d).

Definition domains_ok (val : var → Z) (m : CpModel) : bool :=
  forallb (fun p => in_domain val (fst p) (snd p))
          (combine (seq 0 (length (variables m))) (variables m)).

(** [val] is a solution of [m]. *)
Definition feasible (val : var → Z) (m : CpModel) : bool :=
  domains_ok val m && forallb (holds val) (constraints m).

(* ===================================================================== *)
(** ** Model builder: [solve_circuit.build_model] *)
(* ===================================================================== *)

(** An entry of [var_cut[nname]]. *)
Record cut_info := mk_ci {
  ci_var : var;
  ci_leaves : list string;
  ci_inv_cost : Z;
  ci_area_cost : Z;
  ci_depth_cost : Z;
  ci_lex_weight : nat;
  ci_cut_index : nat;
}.

(** [var_node_used = {nd["name"]: model.NewBoolVar("used_" + nd["name"])
                      for nd in node_dicts}] *)
Fixpoint new_used_vars (nds : list node) (d : gmap string var) (m : CpModel)
    : gmap string var * CpModel :=
  match nds with
  | [] => (d, m)
  | nd :: rest =>
      let '(v, m') := NewBoolVar ("used_" +:+ nd_name nd) m in
      new_used_vars rest (<[nd_name nd := v]> d) m'
  end.

(** [for i, cut_obj in enumerate(nd["cuts"])]: [acc] is [var_cut[nname]] so
    far.  [cut_obj["leaves"]] raises [KeyError] on a record without leaves. *)
Fixpoint new_cut_vars (nname : string) (i : nat) (cuts : list cut)
    (acc : list cut_info) (cut_counter : nat) (m : CpModel)
    : result (list cut_info * nat * CpModel) :=
  match cuts with
  | [] => Ok (acc, cut_counter, m)
  | cut_obj :: rest =>
      match cut_leaves cut_obj with
      | None => Raise KeyError
      | Some leaves =>
          if is_self_cut leaves nname
          then new_cut_vars nname (S i) rest acc cut_counter m
          else
            let inv_cost := default 0 (cut_inv_cost cut_obj) in
            let area_cost :=
              default (Z.of_nat (length leaves)) (cut_area_cost cut_obj) in
            let depth_cost := default 1 (cut_depth_cost cut_obj) in
            let '(cvar, m') :=
              NewBoolVar ("cut_" +:+ nname +:+ "_" +:+ pretty i) m in
            let lex_weight := cut_counter in
            new_cut_vars nname (S i) rest
              (acc ++ [mk_ci cvar leaves inv_cost area_cost depth_cost
                             lex_weight i])
              (S cut_counter) m'
      end
  end.

(** [for nd_idx, nd in enumerate(node_dicts)] *)
Fixpoint new_all_cut_vars (nds : list node)
    (var_cut : gmap string (list cut_info)) (cut_counter : nat) (m : CpModel)
    : result (gmap string (list cut_info) * nat * CpModel) :=
  match nds with
  | [] => Ok (var_cut, cut_counter, m)
  | nd :: rest =>
      match new_cut_vars (nd_name nd) 0 (nd_cuts nd) [] cut_counter m with
      | Raise e => Raise e
      | Ok (cis, cut_counter', m') =>
          new_all_cut_vars rest (<[nd_name nd := cis]> var_cut) cut_counter' m'
      end
  end.

(** [var_node_used[n]] and [var_cut[n]] for a key that is present: every
    name the builder subscripts with is a node name, and both dicts have
    every node name as a key (see [build_model_spec]). *)
Definition used_of (var_node_used : gmap string var) (n : string) : var :=
  default 0%nat (var_node_used !! n).

Definition cuts_of (var_cut : gmap string (list cut_info)) (n : string)
    : list cut_info :=
  default [] (var_cut !! n).

Section constraints.
Variable node_dicts : list node.
Variable outputs inputs : list string.
Variable var_node_used : gmap string var.
Variable var_cut : gmap string (list cut_info).

(** (A) exactly 1 cut if node used, 0 otherwise *)
Definition constraint_A (nd : node) : constraint :=
  let nname := nd_name nd in
  match cuts_of var_cut nname with
  | [] => CEq (LVar (used_of var_node_used nname)) (LConst 0)
  | cuts_for_node =>
      CEq (py_sum (map (fun ci => LVar (ci_var ci)) cuts_for_node))
          (LVar (used_of var_node_used nname))
  end.

Definition constraints_A : list constraint := map constraint_A node_dicts.

(** [node_names = {nd["name"] for nd in node_dicts}] *)
Definition node_names : gset string :=
  list_to_set (map nd_name node_dicts).

(** (B) cut -> leaves used (for internal leaves) *)
Definition constraint_B (forced_1 : var) (ci : cut_info) (leaf : string)
    : constraint :=
  if decide (leaf ∈ node_names)
  then CImplication (ci_var ci) (used_of var_node_used leaf)
  else CImplication (ci_var ci) forced_1.

Definition constraints_B (forced_1 : var) : list constraint :=
  flat_map (fun nd =>
    flat_map (fun ci => map (constraint_B forced_1 ci) (ci_leaves ci))
             (cuts_of var_cut (nd_name nd)))
    node_dicts.

(** Level linking, for [include_depth]. *)
Section levels.
Variable level_vars : pydict var.
Variable D : var.
Variable big_m : Z.

Definition constraints_inputs : list constraint :=
  flat_map (fun inp =>
    match dict_get inp level_vars with
    | Some l => [CEq (LVar l) (LConst 0)]
    | None => []
    end) inputs.

Definition constraint_level (node_level : var) (ci : cut_info)
    (leaf : string) : list constraint :=
  let cvar := ci_var ci in
  let step := or_1 (ci_depth_cost ci) in
  match dict_get leaf level_vars with
  | Some leaf_level =>
      [CGe (LVar node_level)
           (LSub (LAdd (LVar leaf_level) (LConst step))
                 (LMul big_m (LSub (LConst 1) (LVar cvar))))]
  | None => []
  end.

Definition constraints_node_level (nd : node) : list constraint :=
  let nname := nd_name nd in
  match dict_get nname level_vars with
  | None => []
  | Some node_level =>
      [CLe (LVar node_level)
           (LMul big_m (LVar (used_of var_node_used nname)))]
      ++ (if decide (nname ∈ inputs) then []
          else [CGe (LVar node_level)
                    (LVar (used_of var_node_used nname))])
      ++ flat_map (fun ci =>
           flat_map (constraint_level node_level ci) (ci_leaves ci))
           (cuts_of var_cut nname)
  end.

Definition constraints_levels : list constraint :=
  flat_map constraints_node_level node_dicts.

Definition constraints_D (fix_depth : option Z) : list constraint :=
  map (fun kv => CGe (LVar D) (LVar (snd kv))) level_vars
  ++ match fix_depth with
     | Some d => [CEq (LVar D) (LConst d)]
     | None => []
     end.
End levels.

(** force outputs as roots if present *)
Definition constraints_roots : list constraint :=
  match outputs with
  | [] =>
      match var_node_used !! "Nout" with
      | Some u => [CEq (LVar u) (LConst 1)]
      | None =>
          match last node_dicts with
          | Some nd =>
              [CEq (LVar (used_of var_node_used (nd_name nd))) (LConst 1)]
          | None => []
          end
      end
  | _ =>
      flat_map (fun out =>
        match var_node_used !! out with
        | Some u => [CEq (LVar u) (LConst 1)]
        | None => []
        end) outputs
  end.

Definition all_cut_infos : list cut_info :=
  flat_map (fun nd => cuts_of var_cut (nd_name nd)) node_dicts.
End constraints.

(** [level_vars = {nd["name"]: model.NewIntVar(0, max_depth_bound, ...)
                   for nd in node_dicts}] *)
Fixpoint new_level_vars (nds : list node) (ub : Z) (d : pydict var)
    (m : CpModel) : pydict var * CpModel :=
  match nds with
  | [] => (d, m)
  | nd :: rest =>
      let '(v, m') := NewIntVar 0 ub ("L_" +:+ nd_name nd) m in
      new_level_vars rest ub (dict_set (nd_name nd) v d) m'
  end.

Definition lambda_inv : Z := 10.
Definition lambda_area : Z := 1.
Definition alpha_depth : Z := 100.
Definition beta_area : Z := 10.
Definition gamma_inv : Z := 1.

(** What [build_model] returns, with the lists [apply_objective] closes
    over. *)
Record built := mk_built {
  b_model : CpModel;
  b_var_node_used : gmap string var;
  b_var_cut : gmap string (list cut_info);
  b_D : option var;
  b_area_terms : list linexpr;
  b_inv_terms : list linexpr;
  b_original_terms : list linexpr;
  b_level_vars : pydict var;
  b_depth_bound : option Z;
}.

Definition build_model (data : catalog) (depth_bound fix_depth : option Z)
    : result built :=
  let node_dicts := cat_nodes data in
  let outputs := cat_outputs data in
  let inputs := cat_inputs data in
  let model := empty_model in
  let '(var_node_used, model) := new_used_vars node_dicts ∅ model in
  match new_all_cut_vars node_dicts ∅ 0 model with
  | Raise e => Raise e
  | Ok (var_cut, _, model) =>
      let model :=
        add_all (constraints_A node_dicts var_node_used var_cut) model in
      let '(forced_1, model) := NewConstant 1 model in
      let model :=
        add_all (constraints_B node_dicts var_node_used var_cut forced_1)
                model in
      let '(level_vars, D, model) :=
        match depth_bound with
        | None => ([], None, model)
        | Some depth_bound =>
            let max_depth_bound :=
              Z.max 1 (if depth_bound =? 0 then len_or_1 node_dicts
                       else depth_bound) in
            let '(level_vars, model) :=
              new_level_vars node_dicts max_depth_bound [] model in
            let '(D, model) := NewIntVar 0 max_depth_bound "D" model in
            let model :=
              add_all (constraints_inputs inputs level_vars) model in
            let big_m := max_depth_bound in
            let model :=
              add_all (constraints_levels node_dicts inputs var_node_used
                         var_cut level_vars big_m) model in
            let model :=
              add_all (constraints_D level_vars D fix_depth) model in
            (level_vars, Some D, model)
        end in
      let model :=
        add_all (constraints_roots node_dicts outputs var_node_used) model in
      let cis := all_cut_infos node_dicts var_cut in
      Ok (mk_built model var_node_used var_cut D
            (map (fun ci => LMul (ci_area_cost ci) (LVar (ci_var ci))) cis)
            (map (fun ci => LMul (ci_inv_cost ci) (LVar (ci_var ci))) cis)
            (map (fun ci =>
                    LMul (lambda_inv * ci_inv_cost ci
                          + lambda_area * ci_area_cost ci)
                         (LVar (ci_var ci))) cis)
            level_vars depth_bound)
  end.

(** [apply_objective(mode)]: posts the objective or raises. *)
Definition apply_objective (b : built) (mode : string) : result built :=
  let set_obj e :=
    Ok (mk_built (Minimize e (b_model b)) (b_var_node_used b) (b_var_cut b)
          (b_D b) (b_area_terms b) (b_inv_terms b) (b_original_terms b)
          (b_level_vars b) (b_depth_bound b)) in
  if (String.eqb mode "og" || String.eqb mode "original")%bool then
    set_obj (py_sum (b_original_terms b))
  else if String.eqb mode "inv" then set_obj (py_sum (b_inv_terms b))
  else if String.eqb mode "area" then set_obj (py_sum (b_area_terms b))
  else if String.eqb mode "depth" then
    match b_D b with
    | None => Raise RuntimeError
    | Some D => set_obj (LVar D)
    end
  else if String.eqb mode "overall" then
    match b_D b with
    | None => Raise RuntimeError
    | Some D =>
        let total_inv := py_sum (b_inv_terms b) in
        let total_area := py_sum (b_area_terms b) in
        set_obj (LAdd (LAdd (LMul alpha_depth (LVar D))
                            (LMul beta_area total_area))
                      (LMul gamma_inv total_inv))
    end
  else if String.eqb mode "overall_tiebreak" then
    let total_inv := py_sum (b_inv_terms b) in
    let total_area := py_sum (b_area_terms b) in
    set_obj (LAdd (LMul beta_area total_area) (LMul gamma_inv total_inv))
  else if String.eqb mode "depth_tiebreak_area" then
    set_obj (py_sum (b_area_terms b))
  else Raise ValueError.

(* ===================================================================== *)
(** ** [_extract_chosen_cuts] *)
(* ===================================================================== *)

(** The inner [for ci in cuts_for_node] loop with its [break]. *)
Fixpoint first_chosen (val : var → Z) (cuts_for_node : list cut_info)
    : option nat :=
  match cuts_for_node with
  | [] => None
  | ci :: rest =>
      if val (ci_var ci) =? 1 then Some (ci_cut_index ci)
      else first_chosen val rest
  end.

Definition extract_step (var_node_used : gmap string var)
    (var_cut : gmap string (list cut_info)) (val : var → Z)
    (chosen_cuts : pydict nat) (nd : node) : pydict nat :=
  let nname := nd_name nd in
  if val (used_of var_node_used nname) =? 1 then
    match first_chosen val (cuts_of var_cut nname) with
    | Some i => dict_set nname i chosen_cuts
    | None => chosen_cuts
    end
  else chosen_cuts.

Definition _extract_chosen_cuts (node_dicts : list node)
    (var_node_used : gmap string var)
    (var_cut : gmap string (list cut_info)) (val : var → Z) : pydict nat :=
  fold_left (extract_step var_node_used var_cut val) node_dicts [].

(* ===================================================================== *)
(** ** Catalog loader: [_load_cuts_data] and [_normalize_cuts_data] *)
(* ===================================================================== *)

(** [rmap f xs]: run [f] on the elements in order, stop at the first
    exception. *)
Fixpoint rmap {A B} (f : A → result B) (xs : list A) : result (list B) :=
  match xs with
  | [] => Ok []
  | x :: xs' =>
      rbind (f x) (fun y => rbind (rmap f xs') (fun ys => Ok (y :: ys)))
  end.

(** [for x in v] / [list(v)] on a JSON value: a list gives its elements, a
    string its characters, a dict its keys; anything else is not iterable.
    A character is a byte of the string here, which is what Python iterates
    on ASCII text only; the statements about the elements of an iteration
    are made for lists. *)
Definition py_iter (v : json) : result (list json) :=
  match v with
  | JList l => Ok l
  | JStr s =>
      Ok (map (fun c => JStr (String c EmptyString)) (list_ascii_of_string s))
  | JDict d => Ok (map (fun kv => JStr (fst kv)) d)
  | _ => Raise TypeError
  end.

(** [v.get(k, dflt)]: only a dict has [get]. *)
Definition py_get (v : json) (k : string) (dflt : json) : result json :=
  match v with
  | JDict d => Ok (default dflt (dict_get k d))
  | _ => Raise AttributeError
  end.

(** The body of [for cut in nd.get("cuts", [])]. *)
Definition normalize_cut (cut : json) : result json :=
  match cut with
  | JDict _ => Ok cut
  | _ =>
      (* Interpret a bare list as leaves-only; fill in default costs. *)
      rbind (py_iter cut) (fun leaves =>
        Ok (JDict [("leaves", JList leaves);
                   ("inv_cost", JInt 0);
                   ("area_cost", JInt (Z.of_nat (length leaves)));
                   ("depth_cost", JInt 1)]))
  end.

(** The body of [for nd in nodes]. *)
Definition normalize_node (nd : json) : result json :=
  rbind (py_get nd "cuts" (JList [])) (fun cuts_raw =>
  rbind (py_iter cuts_raw) (fun cut_list =>
  rbind (rmap normalize_cut cut_list) (fun cuts =>
    match nd with
    | JDict d => Ok (JDict (dict_set "cuts" (JList cuts) d))
    | _ => Raise AttributeError
    end))).

Definition _normalize_cuts_data (data : json) : result json :=
  rbind (py_get data "nodes" (JList [])) (fun nodes =>
  rbind (py_iter nodes) (fun node_list =>
  rbind (rmap normalize_node node_list) (fun normalized_nodes =>
    match data with
    | JDict d =>
        let d := dict_set "nodes" (JList normalized_nodes) d in
        Ok (JDict (if dict_has "inputs" d then d
                   else dict_set "inputs" (JList []) d))
    | _ => Raise AttributeError
    end))).

(** *** Reading a normalized catalog

    The model builder and the depth bounder are embedded on catalogs of the
    shape of section 6.1: node names and leaves are strings, cost fields
    are integers or absent.  [catalog_of_json] reads such a catalog off the
    normalized JSON data and is undefined on any other shape. *)

Definition as_str (v : json) : option string :=
  match v with JStr s => Some s | _ => None end.

Definition as_int (v : json) : option Z :=
  match v with JInt z => Some z | _ => None end.

Fixpoint omap_list {A B} (f : A → option B) (xs : list A) : option (list B) :=
  match xs with
  | [] => Some []
  | x :: xs' =>
      match f x, omap_list f xs' with
      | Some y, Some ys => Some (y :: ys)
      | _, _ => None
      end
  end.

Definition as_str_list (v : json) : option (list string) :=
  match v with JList l => omap_list as_str l | _ => None end.

(** An optional key: absent, or present with a value that [f] reads. *)
Definition opt_field {A} (f : json → option A) (k : string)
    (d : pydict json) : option (option A) :=
  match dict_get k d with
  | None => Some None
  | Some v => option_map Some (f v)
  end.

Definition cut_of_json (v : json) : option cut :=
  match v with
  | JDict d =>
      match opt_field as_str_list "leaves" d, opt_field as_int "inv_cost" d,
            opt_field as_int "area_cost" d, opt_field as_int "depth_cost" d with
      | Some l, Some i, Some a, Some dc => Some (mk_cut l i a dc)
      | _, _, _, _ => None
      end
  | _ => None
  end.

Definition node_of_json (v : json) : option node :=
  match v with
  | JDict d =>
      match dict_get "name" d, dict_get "cuts" d with
      | Some (JStr name), Some (JList cuts) =>
          option_map (mk_node name) (omap_list cut_of_json cuts)
      | _, _ => None
      end
  | _ => None
  end.

(** [data.get(k) or []] for a key holding an array of strings. *)
Definition names_or_empty (k : string) (d : pydict json)
    : option (list string) :=
  match dict_get k d with
  | None | Some JNull => Some []
  | Some v => as_str_list v
  end.

Definition catalog_of_json (data : json) : option catalog :=
  match data with
  | JDict d =>
      match dict_get "nodes" d with
      | Some (JList nodes) =>
          match omap_list node_of_json nodes,
                names_or_empty "outputs" d, names_or_empty "inputs" d with
          | Some nds, Some outs, Some ins => Some (mk_catalog nds outs ins)
          | _, _, _ => None
          end
      | _ => None
      end
  | _ => None
  end.

(* ===================================================================== *)
(** ** The driver: [solve_circuit] *)
(* ===================================================================== *)

(** [CpSolverStatus] *)
Inductive cp_status :=
  | UNKNOWN | MODEL_INVALID | FEASIBLE | INFEASIBLE | OPTIMAL.

Definition is_solved (s : cp_status) : bool :=
  match s with OPTIMAL | FEASIBLE => true | _ => false end.

(** The parameters [solve_model] sets; [None] leaves the solver default. *)
Record solver_params := mk_params {
  random_seed : Z;
  num_search_workers : Z;
  max_time_in_seconds : Z;
  log_search_progress : bool;
  absolute_gap_limit : option Z;
  relative_gap_limit : option Q;
  stop_after_first_solution : bool;
}.

(** [read_outcome]: what [open(path)] followed by [json.load] does. *)
Inductive read_outcome :=
  | ReadOSError
  | JSONDecodeError
  | Loaded (data : json).

Section driver.
(** Python floats, which the driver only passes on. *)
Context {pyfloat : Type}.

Inductive pynum := NInt (z : Z) | NFloat (f : pyfloat).

Inductive atom := AStr (s : string) | ANum (n : pynum) | ANone.

(** Observable effects, in order: a printed line (its text fragments and
    formatted values), a deleted file, a JSON document written out. *)
Inductive event :=
  | EPrint (line : list atom)
  | EUnlink (path : string)
  | EWriteJson (path : string) (content : json).

(** A solver after [Solve]: [Value] and [ObjectiveValue]. *)
Record solver := mk_solver {
  Value : var → Z;
  ObjectiveValue : pyfloat;
}.

(** [{"status": ..., "objective_value": ...}] *)
Record solve_result := mk_result {
  status : string;
  objective_value : option pynum;
}.

(** The world outside the program. *)
Variable path_exists : string → bool.
Variable suffix_lower : string → string.
Variable open_json_load : string → read_outcome.
(** [_generate_cuts_json_from_blif]: runs the external cut enumerator and
    returns the path of the JSON file it wrote. *)
Variable generate_cuts_json_from_blif :
  string → option string → option Z → result string.
(** [CpSolver.Solve] under given parameters, and Python's [str] on a
    status. *)
Variable Solve : solver_params → CpModel → cp_status * solver.
Variable str_status : cp_status → string.

Definition _status_to_str (s : cp_status) : string :=
  match s with
  | OPTIMAL => "OPTIMAL"
  | FEASIBLE => "FEASIBLE"
  | UNKNOWN => "UNKNOWN"
  | INFEASIBLE => "INFEASIBLE"
  | _ => str_status s
  end.

(** Effects so far, and a value or the exception that ended the run. *)
Definition io (A : Type) : Type := list event * result A.

Definition io_ret {A} (a : A) : io A := ([], Ok a).
Definition io_bind {A B} (c : io A) (k : A → io B) : io B :=
  match c with
  | (ev, Ok a) => let '(ev', r) := k a in (ev ++ ev', r)
  | (ev, Raise e) => (ev, Raise e)
  end.
Definition io_lift {A} (r : result A) : io A := ([], r).
Definition print (line : list atom) : io unit := ([EPrint line], Ok tt).
Definition json_dump (path : string) (content : json) : io unit :=
  ([EWriteJson path content], Ok tt).

Notation "'do' x <- c ; k" := (io_bind c (fun x => k))
  (at level 10, x pattern, c at level 100, k at level 200).

Definition _load_cuts_data (cuts_path : string)
    (binary_hint : option string) (cut_size : option Z) : io json :=
  if negb (path_exists cuts_path) then ([], Raise FileNotFoundError)
  else if negb (String.eqb (suffix_lower cuts_path) ".json") then
    do temp_json <-
      io_lift (generate_cuts_json_from_blif cuts_path binary_hint cut_size);
    (* the [finally] clause unlinks the temporary file on every path *)
    match open_json_load temp_json with
    | Loaded data => ([EUnlink temp_json], Ok data)
    | JSONDecodeError => ([EUnlink temp_json], Raise ValueError)
    | ReadOSError => ([EUnlink temp_json], Raise OSError)
    end
  else
    match open_json_load cuts_path with
    | Loaded data => ([], Ok data)
    | JSONDecodeError => ([], Raise ValueError)
    | ReadOSError => ([], Raise OSError)
    end.

(** Loading, the first two statements of [solve_circuit]: read, then
    normalize. *)
Definition load (cuts_path : string) (binary_hint : option string)
    (cut_size : option Z) : io json :=
  do data <- _load_cuts_data cuts_path binary_hint cut_size;
  io_lift (_normalize_cuts_data data).

Definition solve_model (model : CpModel) (time_limit : Z)
    (absolute_gap : option Z) (relative_gap : option Q) (num_workers : Z)
    (seed : Z) (stop_after_first : bool) : solver * cp_status :=
  let params :=
    mk_params seed num_workers time_limit false absolute_gap relative_gap
              stop_after_first in
  let '(st, s) := Solve params model in (s, st).

Definition chosen_cuts_json (chosen_cuts : pydict nat) : json :=
  JDict [("chosen_cuts",
          JDict (map (fun kv => (fst kv, JInt (Z.of_nat (snd kv))))
                     chosen_cuts))].

Definition opt_atom (o : option pynum) : atom :=
  match o with Some n => ANum n | None => ANone end.

(** The end of [solve_circuit], common to both branches. *)
Definition finish (chosen_json_path objective_mode : string)
    (final_status : string) (final_D : option Z)
    (final_objective tie_objective : option pynum)
    (chosen_cuts : pydict nat) : io solve_result :=
  do _ <- print [AStr "Status: "; AStr final_status];
  do _ <- match final_objective with
          | Some v => print [AStr "Objective value ("; AStr objective_mode;
                             AStr ") = "; ANum v]
          | None => io_ret tt
          end;
  do _ <- (if (String.eqb objective_mode "depth"
               || String.eqb objective_mode "overall")%bool
           then
             do _ <- print [AStr "Global depth D =";
                            opt_atom (option_map NInt final_D)];
             print [AStr "Phase B tie-break objective =";
                    opt_atom tie_objective]
           else io_ret tt);
  do _ <- json_dump chosen_json_path (chosen_cuts_json chosen_cuts);
  do _ <- print [AStr "Written chosen cuts to "; AStr chosen_json_path];
  io_ret (mk_result final_status final_objective).

(** [solve_circuit] from [node_dicts = data["nodes"]] on, for runs in which
    the depth bounder returns: [_compute_depth_upper_bound] is the bound it
    then returns.  (A run in which it ends in [RecursionError] stops there,
    before anything is printed.) *)
Definition solve_circuit_on (data : catalog)
    (chosen_json_path objective_mode : string) : io solve_result :=
  let node_dicts := cat_nodes data in
  if (String.eqb objective_mode "depth"
      || String.eqb objective_mode "overall")%bool then
    do depth_bound <-
      io_lift (match _compute_depth_upper_bound data with
               | Some ub => Ok ub
               | None => Raise RuntimeError
               end);
    let depth_bound := Z.max depth_bound (len_or_1 node_dicts) in
    do _ <- print [AStr "Using depth upper bound UB = ";
                   ANum (NInt depth_bound)];
    (* Phase A: depth-only minimize D with relaxed gap and short cap. *)
    do phase_a <- io_lift (build_model data (Some depth_bound) None);
    do phase_a <- io_lift (apply_objective phase_a "depth");
    let '(solver_a, status_a) :=
      solve_model (b_model phase_a) 120 (Some 1) None 16 1 true in
    let status_a_str := _status_to_str status_a in
    do _ <- print [AStr "Phase A status: "; AStr status_a_str];
    if negb (is_solved status_a) then
      do _ <- print [AStr "No feasible solution in Phase A."];
      io_ret (mk_result status_a_str None)
    else
      do D_a <- io_lift (match b_D phase_a with
                         | Some D => Ok D
                         | None => Raise TypeError
                         end);
      let best_depth := Value solver_a D_a in
      do _ <- print [AStr "Phase A best depth D = "; ANum (NInt best_depth)];
      let phase_a_cuts :=
        _extract_chosen_cuts node_dicts (b_var_node_used phase_a)
          (b_var_cut phase_a) (Value solver_a) in
      (* Phase B: fix depth and minimize tie-breaker. *)
      let tie_mode :=
        if String.eqb objective_mode "depth" then "depth_tiebreak_area"
        else "overall_tiebreak" in
      do phase_b <-
        io_lift (build_model data (Some depth_bound) (Some best_depth));
      do phase_b <- io_lift (apply_objective phase_b tie_mode);
      let '(solver_b, status_b) :=
        solve_model (b_model phase_b) 60 None None 16 1 false in
      let status_b_str := _status_to_str status_b in
      do _ <- print [AStr "Phase B status: "; AStr status_b_str];
      if is_solved status_b then
        do D_b <- io_lift (match b_D phase_b with
                           | Some D => Ok D
                           | None => Raise TypeError
                           end);
        let final_D := Value solver_b D_b in
        let tie_objective := ObjectiveValue solver_b in
        let chosen_cuts :=
          _extract_chosen_cuts node_dicts (b_var_node_used phase_b)
            (b_var_cut phase_b) (Value solver_b) in
        finish chosen_json_path objective_mode status_b_str (Some final_D)
          (Some (NInt best_depth)) (Some (NFloat tie_objective)) chosen_cuts
      else
        do _ <- print [AStr ("No feasible solution in Phase B; "
                             +:+ "returning Phase A solution.")];
        finish chosen_json_path objective_mode status_a_str (Some best_depth)
          (Some (NInt best_depth)) None phase_a_cuts
  else
    do single <- io_lift (build_model data None None);
    do single <- io_lift (apply_objective single objective_mode);
    let '(solver, status) :=
      solve_model (b_model single) 15 None (Some (5 # 100)%Q) 50 0 false in
    let status_str := _status_to_str status in
    do _ <- print [AStr "Status: "; AStr status_str];
    if negb (is_solved status) then
      do _ <- print [AStr "No feasible solution."];
      io_ret (mk_result status_str None)
    else
      let final_D :=
        match b_D single with
        | Some D => Some (Value solver D)
        | None => None
        end in
      let final_objective := NFloat (ObjectiveValue solver) in
      let chosen_cuts :=
        _extract_chosen_cuts node_dicts (b_var_node_used single)
          (b_var_cut single) (Value solver) in
      finish chosen_json_path objective_mode status_str final_D
        (Some final_objective) None chosen_cuts.

(** The whole of [solve_circuit].  [None]: the loaded JSON is not of the
    shape the builder is embedded on. *)
Definition solve_circuit (cuts_path chosen_json_path objective_mode : string)
    (cut_enum_bin : option string) (cut_size : option Z)
    : option (io solve_result) :=
  match load cuts_path cut_enum_bin cut_size with
  | (ev, Raise e) => Some (ev, Raise e)
  | (ev, Ok data) =>
      match catalog_of_json data with
      | None => None
      | Some cat =>
          let '(ev', r) :=
            solve_circuit_on cat chosen_json_path objective_mode in
          Some (ev ++ ev', r)
      end
  end.
End driver.


(* ===================================================================== *)
(** ** Vocabulary of the statements *)
(* ===================================================================== *)

(** [v] was created by [NewBoolVar]. *)
Definition is_bool_var (m : CpModel) (v : var) : Prop :=
  ∃ name, variables m !! v = Some (mk_var 0 1 name).

(** The entry [ci] stands for the cut at position [ci_cut_index ci] of
    [cuts], which is not a self-cut of [n], with the costs the builder
    reads off it. *)
Definition ci_of_cut (n : string) (cuts : list cut) (ci : cut_info) : Prop :=
  ∃ c, cuts !! ci_cut_index ci = Some c
       ∧ cut_leaves c = Some (ci_leaves ci)
       ∧ is_self_cut (ci_leaves ci) n = false
       ∧ ci_inv_cost ci = default 0 (cut_inv_cost c)
       ∧ ci_area_cost ci
         = default (Z.of_nat (length (ci_leaves ci))) (cut_area_cost c)
       ∧ ci_depth_cost ci = default 1 (cut_depth_cost c).

(** The positions, counted from [i], of the cuts that are not self-cuts of
    [n]. *)
Fixpoint non_self_positions (n : string) (i : nat) (cuts : list cut)
    : list nat :=
  match cuts with
  | [] => []
  | c :: rest =>
      if is_self_cut (default [] (cut_leaves c)) n
      then non_self_positions n (S i) rest
      else i :: non_self_positions n (S i) rest
  end.

(** [var_cut] holds, under each node name, one entry for each cut that is
    not a self-cut of the node [M] has under that name, in order, each with
    a Boolean variable of its own; and nothing under other names. *)
Definition var_cut_ok (m : CpModel) (M : gmap string node)
    (vc : gmap string (list cut_info)) : Prop :=
  ∀ n, match vc !! n with
       | Some cis =>
           ∃ nd, M !! n = Some nd ∧ nd_name nd = n
                 ∧ Forall (fun ci => is_bool_var m (ci_var ci)
                                     ∧ ci_of_cut n (nd_cuts nd) ci) cis
                 ∧ map ci_cut_index cis = non_self_positions n 0 (nd_cuts nd)
                 ∧ NoDup (map ci_var cis)
       | None => M !! n = None
       end.

(** How many cut variables of a node are 1. *)
Definition count_chosen (val : var → Z) (cis : list cut_info) : nat :=
  length (filter (fun ci => val (ci_var ci) = 1) cis).

Definition sum_vals (val : var → Z) (cis : list cut_info) : Z :=
  foldr (fun ci acc => val (ci_var ci) + acc) 0 cis.

(** The index [_extract_chosen_cuts] records for a node name. *)
Definition selected (vu : gmap string var) (vc : gmap string (list cut_info))
    (val : var → Z) (n : string) : option nat :=
  if val (used_of vu n) =? 1 then first_chosen val (cuts_of vc n) else None.

(** Normalization rule 2 as the spec words it: a cut record lacking cost
    fields takes inv_cost = 0, area_cost = len(leaves), depth_cost = 1. *)
Definition canonical_cut (c : cut) : cut :=
  mk_cut (cut_leaves c)
         (Some (default 0 (cut_inv_cost c)))
         (Some (default (Z.of_nat (length (default [] (cut_leaves c))))
                        (cut_area_cost c)))
         (Some (default 1 (cut_depth_cost c))).

Definition canonical_node (nd : node) : node :=
  mk_node (nd_name nd) (map canonical_cut (nd_cuts nd)).

Definition canonical_catalog (data : catalog) : catalog :=
  mk_catalog (map canonical_node (cat_nodes data)) (cat_outputs data)
             (cat_inputs data).

Definition is_record (v : json) : Prop := ∃ d, v = JDict d.

(** Every cut of every node of a loaded catalog is a dict. *)
Definition cuts_are_records (data : json) : Prop :=
  ∃ d nodes,
    data = JDict d ∧ dict_get "nodes" d = Some (JList nodes)
    ∧ is_Some (dict_get "inputs" d)
    ∧ Forall (fun nd =>
        ∃ dn cuts, nd = JDict dn ∧ dict_get "cuts" dn = Some (JList cuts)
                   ∧ Forall is_record cuts) nodes.

(** Whether a JSON document was written out. *)
Definition wrote_file {F : Type} (ev : list (@event F)) : bool :=
  existsb (fun e => match e with EWriteJson _ _ => true | _ => false end) ev.

(** A run is well reported: a result comes with the string of a solver
    status; the file was written iff that status is OPTIMAL or FEASIBLE,
    and otherwise the objective value is None; a run ended by an exception
    wrote nothing. *)
Definition well_reported {F : Type} (str_status : cp_status → string)
    (c : @io F (@solve_result F)) : Prop :=
  match c with
  | (ev, Ok res) =>
      ∃ st : cp_status,
        status res = _status_to_str str_status st
        ∧ wrote_file ev = is_solved st
        ∧ (is_solved st = false → objective_value res = None)
  | (ev, Raise _) => wrote_file ev = false
  end.

(** The solver parameters of the three calls of [solve_model]. *)
Definition params_single : solver_params :=
  mk_params 0 50 15 false None (Some (5 # 100)%Q) false.
Definition params_phase_a : solver_params :=
  mk_params 1 16 120 false (Some 1) None true.
Definition params_phase_b : solver_params :=
  mk_params 1 16 60 false None None false.

(** [tie_mode] of Phase B. *)
Definition tie_mode_of (objective_mode : string) : string :=
  if String.eqb objective_mode "depth" then "depth_tiebreak_area"
  else "overall_tiebreak".

(* ===================================================================== *)
(** ** Example catalogs *)
(* ===================================================================== *)

(** One node [a] with the single cut [cut], and output [a]. *)
Definition json_catalog (cut : json) : json :=
  JDict [("nodes", JList [JDict [("name", JStr "a");
                                 ("cuts", JList [cut])]]);
         ("outputs", JList [JStr "a"])].

(** What loading makes of it when [cut] stays as it is or is replaced. *)
Definition json_loaded (cut : json) : json :=
  JDict [("nodes", JList [JDict [("name", JStr "a");
                                 ("cuts", JList [cut])]]);
         ("outputs", JList [JStr "a"]);
         ("inputs", JList [])].

(** The same cut, as a bare list and as a record without cost fields. *)
Definition json_bare_cut : json := JList [JStr "x"].
Definition json_record_cut : json := JDict [("leaves", JList [JStr "x"])].

Definition json_lifted_cut : json :=
  JDict [("leaves", JList [JStr "x"]); ("inv_cost", JInt 0);
         ("area_cost", JInt 1); ("depth_cost", JInt 1)].

(** A cut record none of whose cost fields is an integer:
    a string, the float 1.5 and a list. *)
Definition json_bad_cost_cut : json :=
  JDict [("leaves", JList [JStr "x"]); ("inv_cost", JStr "many");
         ("area_cost", JFloat 3 (-1)); ("depth_cost", JList [])].

(** A world in which every path is a readable JSON file holding [data]. *)
Definition world_exists : string → bool := fun _ => true.
Definition world_suffix : string → string := fun _ => ".json".
Definition world_open (data : json) : string → read_outcome :=
  fun _ => Loaded data.
Definition world_no_enum : string → option string → option Z → result string :=
  fun _ _ _ => Raise FileNotFoundError.

(** A bare-list cut after normalization. *)
Definition lifted (leaves : list string) : cut :=
  mk_cut (Some leaves) (Some 0) (Some (Z.of_nat (length leaves))) (Some 1).

(** One node whose only cut has [depth_cost] 21. *)
Definition catalog_depth21 : catalog :=
  mk_catalog [mk_node "a" [mk_cut (Some ["x"]) None None (Some 21)]] ["a"] [].

(** Scenario S3 of the spec: cut 0 of [a] is a self-cut. *)
Definition catalog_self_cut : catalog :=
  mk_catalog [mk_node "a" [lifted ["a"]; lifted ["x"]]] ["a"] [].

(** Scenario S2 of the spec: a two-deep chain. *)
Definition catalog_chain : catalog :=
  mk_catalog [mk_node "a" [lifted ["x"]]; mk_node "b" [lifted ["a"]]] ["b"] [].

(** No declared outputs and no [Nout]: the last node is the root. *)
Definition catalog_no_outputs : catalog :=
  mk_catalog [mk_node "a" [lifted ["x"]]; mk_node "b" [lifted ["a"]]] [] [].

(** Cut 0 of [n] names [n] itself among its leaves. *)
Definition catalog_self_leaf : catalog :=
  mk_catalog [mk_node "n" [lifted ["n"; "x"]; lifted ["x"]]] ["n"] [].

(** The same, with a negative [depth_cost] on cut 0, which the data model
    excludes. *)
Definition catalog_negative_step : catalog :=
  mk_catalog [mk_node "n" [mk_cut (Some ["n"; "x"]) None None (Some (-1))]]
             ["n"] [].

(** A valuation from the list of values of variables 0, 1, ... *)
Definition val_of (values : list Z) : var → Z :=
  fun v => nth v values 0.

(** The valuation that sets every variable to 1. *)
Definition all_ones : var → Z := fun _ => 1.

(** A solver that answers every model with the same status and values,
    and a rendering of statuses; floats are integers here. *)
Definition stub_solve (st : cp_status) (val : var → Z)
    : solver_params → CpModel → cp_status * @solver Z :=
  fun _ _ => (st, mk_solver val 0).
Definition stub_str : cp_status → string := fun _ => "1".

(** The record a successful [build_model] returned. *)
Definition built_of (r : result built) : built :=
  match r with
  | Ok b => b
  | Raise _ => mk_built empty_model ∅ ∅ None [] [] [] [] None
  end.

(** Two nodes that name each other as leaves. *)
Definition catalog_cycle : catalog :=
  mk_catalog [mk_node "a" [lifted ["b"]]; mk_node "b" [lifted ["a"]]] ["a"] [].

(** [sys.getrecursionlimit()] of CPython, which nothing in the program
    raises.  Every nested call of [depth] takes at least one frame (in fact
    more: the generator expression inside [max] has its own), so the
    interpreter allows fewer nested calls of [depth] than this. *)
Definition python_recursion_limit : nat := 1000.

(** A chain without cycles: node n1 has the primary input n0 as its only
    leaf, n2 has n1, and so on up to the output n<k>. *)
Definition chain_name (i : nat) : string := "n" +:+ pretty i.

Fixpoint chain_nodes (k : nat) : list node :=
  match k with
  | O => []
  | S k' =>
      chain_nodes k' ++ [mk_node (chain_name k) [lifted [chain_name k']]]
  end.

Definition catalog_long_chain : catalog :=
  mk_catalog (chain_nodes python_recursion_limit)
             [chain_name python_recursion_limit] [].

(* ===================================================================== *)
(** ** The cut enumerator: [_find_cut_enumeration_binary] and
       [_generate_cuts_json_from_blif] *)
(* ===================================================================== *)

(** [if s:] on a value that is [None] or a string. *)
Definition truthy (o : option string) : option string :=
  match o with
  | Some s => if String.eqb s "" then None else Some s
  | None => None
  end.

(** How [subprocess.run(cmd, check=True)] ends: exit code 0, a non-zero
    exit code ([CalledProcessError]), or the process could not be started
    (an [OSError], which the code does not catch). *)
Inductive run_outcome :=
  | Exit0
  | CalledProcessError (returncode : Z)
  | NotStarted.

(** The effects of the generator, in order. *)
Inductive gen_event :=
  | GTempFile (path : string)
  | GPrint (line : list string)
  | GRun (cmd : list string)
  | GUnlink (path : string).

Section cut_enumerator.
(** The world outside: [Path.is_file], [shutil.which], [str(Path(p))], the
    two default locations ([Path(blif_path).parent / "cut_enumeration"] and
    the one beside the script), the name [NamedTemporaryFile] picks, and
    the run of a command. *)
Variable is_file : string → bool.
Variable which : string → option string.
Variable path_str : string → string.
Variable parent_candidate : string → string.
Variable script_dir_candidate : string.
Variable mkstemp : string → string.
Variable run : list string → run_outcome.

Definition _find_cut_enumeration_binary (binary_hint : option string)
    (blif_path : string) : result string :=
  match truthy binary_hint with
  | Some hint =>
      if is_file hint then Ok (path_str hint)
      else
        match truthy (which hint) with
        | Some resolved => Ok resolved
        | None => Raise FileNotFoundError
        end
  | None =>
      let candidates := [parent_candidate blif_path; script_dir_candidate] in
      match find is_file candidates with
      | Some candidate => Ok candidate
      | None =>
          match truthy (which "cut_enumeration") with
          | Some resolved => Ok resolved
          | None => Raise FileNotFoundError
          end
      end
  end.

(** [cmd] of the generator. *)
Definition cut_enumeration_cmd (cut_enum_bin blif_path tmp_path : string)
    (cut_size : option Z) : list string :=
  [cut_enum_bin; path_str blif_path; tmp_path]
  ++ match cut_size with
     | Some k => [pretty k]
     | None => []
     end.

Definition _generate_cuts_json_from_blif (blif_path : string)
    (binary_hint : option string) (cut_size : option Z)
    : list gen_event * result string :=
  match _find_cut_enumeration_binary binary_hint blif_path with
  | Raise e => ([], Raise e)
  | Ok cut_enum_bin =>
      let tmp_path := mkstemp blif_path in
      let cmd := cut_enumeration_cmd cut_enum_bin blif_path tmp_path cut_size in
      let ev :=
        [GTempFile tmp_path;
         GPrint ["Converting BLIF to cuts JSON via '"; cut_enum_bin;
                 "' (output: "; tmp_path; ")"];
         GRun cmd] in
      match run cmd with
      | Exit0 => (ev, Ok tmp_path)
      | CalledProcessError _ => (ev ++ [GUnlink tmp_path], Raise RuntimeError)
      | NotStarted => (ev, Raise OSError)
      end
  end.
End cut_enumerator.

(* ===================================================================== *)
(** ** Vocabulary of the further properties *)
(* ===================================================================== *)

(** [max_depth_bound] of [build_model]: the upper end of the level domains
    and the big-M of the level constraints. *)
Definition max_depth_bound (nodes : list node) (depth_bound : Z) : Z :=
  Z.max 1 (if depth_bound =? 0 then len_or_1 nodes else depth_bound).

(** The variables [build_model] declares, in order of creation: one
    [used_] variable per node, one [cut_] variable per cut that is not a
    self-cut, the constant 1, and with a depth bound one level per node and
    [D]. *)
Definition used_decls (nodes : list node) : list var_decl :=
  map (fun nd => mk_var 0 1 ("used_" +:+ nd_name nd)) nodes.

Definition cut_decl (n : string) (i : nat) : var_decl :=
  mk_var 0 1 ("cut_" +:+ n +:+ "_" +:+ pretty i).

Definition cut_decls (nodes : list node) : list var_decl :=
  flat_map (fun nd =>
    map (cut_decl (nd_name nd)) (non_self_positions (nd_name nd) 0 (nd_cuts nd)))
    nodes.

Definition level_decls (M : Z) (nodes : list node) : list var_decl :=
  map (fun nd => mk_var 0 M ("L_" +:+ nd_name nd)) nodes.

Definition depth_decls (nodes : list node) (depth_bound : option Z)
    : list var_decl :=
  match depth_bound with
  | None => []
  | Some ub =>
      level_decls (max_depth_bound nodes ub) nodes
      ++ [mk_var 0 (max_depth_bound nodes ub) "D"]
  end.

(** Some cut record of the catalog has no [leaves] key. *)
Definition lacks_leaves (data : catalog) : Prop :=
  ∃ nd c, nd ∈ cat_nodes data ∧ c ∈ nd_cuts nd ∧ cut_leaves c = None.

(** The level of a node under a valuation. *)
Definition level_of (lv : pydict var) (val : var → Z) (n : string) : Z :=
  val (default 0%nat (dict_get n lv)).

(** A path of chosen cuts: from a node down along leaves of cuts whose
    variable is 1, with the sum of the steps ([depth_cost or 1]) of the cuts
    on the way. *)
Inductive chosen_path (nodes : list node)
    (var_cut : gmap string (list cut_info)) (val : var → Z)
    : string → string → Z → Prop :=
  | path_here n :
      n ∈ map nd_name nodes → chosen_path nodes var_cut val n n 0
  | path_step n ci leaf n' c :
      n ∈ map nd_name nodes → ci ∈ cuts_of var_cut n →
      val (ci_var ci) = 1 → leaf ∈ ci_leaves ci →
      chosen_path nodes var_cut val leaf n' c →
      chosen_path nodes var_cut val n n' (or_1 (ci_depth_cost ci) + c).

(** A node with a cheap cut on a primary input and a cut of [depth_cost]
    100 on another node. *)
Definition catalog_expensive_cut : catalog :=
  mk_catalog
    [mk_node "a" [lifted ["x"];
                  mk_cut (Some ["b"]) (Some 0) (Some 1) (Some 100)];
     mk_node "b" [lifted ["y"]]]
    ["a"] [].

(** The objective modes [apply_objective] knows. *)
Definition objective_modes : list string :=
  ["og"; "original"; "inv"; "area"; "depth"; "overall"; "overall_tiebreak";
   "depth_tiebreak_area"].

(** The value of the objective [apply_objective] posted, under [val]. *)
Definition objective_under (val : var → Z) (r : result built) : option Z :=
  match r with
  | Ok b => option_map (eval val) (objective (b_model b))
  | Raise _ => None
  end.

(** The sum of [cost] over the cut variables that are 1, weighted by the
    value. *)
Definition weighted_sum (cost : cut_info → Z) (val : var → Z)
    (cis : list cut_info) : Z :=
  foldr (fun ci acc => cost ci * val (ci_var ci) + acc) 0 cis.

(** The costs of a catalog cut as [build_model] reads them. *)
Definition cut_inv_of (c : cut) : Z := default 0 (cut_inv_cost c).
Definition cut_area_of (c : cut) : Z :=
  default (Z.of_nat (length (default [] (cut_leaves c)))) (cut_area_cost c).

(** CP-SAT takes 64-bit integers, where [NewIntVar] and the linear
    expressions here take any: a variable bound, a coefficient or a constant
    outside that range makes the real builder raise.  That a model is built
    is stated for catalogs and depth settings far inside the range: every
    cost a cut carries below 2^51 in absolute value, the bound of the depth
    variables and a fixed depth below 2^62. *)
Definition small_cut (c : cut) : bool :=
  (Z.abs (cut_inv_of c) <? 2 ^ 51) && (Z.abs (cut_area_of c) <? 2 ^ 51)
  && (Z.abs (default 1 (cut_depth_cost c)) <? 2 ^ 51).

Definition small_costs (data : catalog) : bool :=
  forallb (fun nd => forallb small_cut (nd_cuts nd)) (cat_nodes data).

Definition depth_settings_in_range (nodes : list node)
    (depth_bound fix_depth : option Z) : bool :=
  match depth_bound with
  | Some ub => max_depth_bound nodes ub <? 2 ^ 62
  | None => true
  end
  && match fix_depth with
     | Some d => Z.abs d <? 2 ^ 62
     | None => true
     end.

(** The cost of a selection, read off the catalog: for every node of the
    list with an entry in [chosen_cuts], the cost of the cut at the chosen
    position. *)
Definition selection_cost (cost : cut → Z) (nodes : list node)
    (chosen_cuts : pydict nat) : Z :=
  foldr (fun nd acc =>
    match dict_get (nd_name nd) chosen_cuts with
    | Some i =>
        match node_map_of nodes !! nd_name nd with
        | Some nd' => from_option cost 0 (nd_cuts nd' !! i)
        | None => 0
        end
    | None => 0
    end + acc) 0 nodes.

(** The valuation that uses no node and chooses no cut: every variable is
    0, except the constant 1. *)
Definition select_nothing (data : catalog) : var → Z :=
  fun v =>
    if Nat.eqb v (length (cat_nodes data)
                  + length (cut_decls (cat_nodes data)))
    then 1 else 0.

(** The declared output names no node of the catalog. *)
Definition catalog_missing_output : catalog :=
  mk_catalog [mk_node "a" [lifted ["x"]]; mk_node "b" [lifted ["a"]]]
             ["Nout"] [].

(** The only cut of the output [a] is a self-cut. *)
Definition catalog_only_self_cut : catalog :=
  mk_catalog [mk_node "x" [lifted ["p"]]; mk_node "a" [lifted ["a"]]]
             ["a"] [].

(** Every cut of every node of a raw catalog is a bare list of leaves, as
    old cut enumerators write it. *)
Definition cuts_are_bare (data : json) : Prop :=
  ∃ d nodes,
    data = JDict d ∧ dict_get "nodes" d = Some (JList nodes)
    ∧ Forall (fun nd =>
        ∃ dn cuts, nd = JDict dn ∧ dict_get "cuts" dn = Some (JList cuts)
                   ∧ Forall (fun c => ∃ leaves, c = JList leaves) cuts) nodes.

(** A raw catalog in the old format: two nodes with bare-list cuts. *)
Definition json_bare_catalog : json :=
  JDict [("nodes",
          JList [JDict [("name", JStr "a");
                        ("cuts", JList [JList [JStr "x"; JStr "y"]])];
                 JDict [("name", JStr "b");
                        ("cuts", JList [JList [JStr "a"]; JList [JStr "b"]])]]);
         ("outputs", JList [JStr "b"])].

(** What [normalize_cut] makes of a cut: a dict is kept, a list is read
    as the leaves and given the default costs.  Nothing is said of a cut
    that is a string: Python iterates its characters. *)
Definition cut_normalized (c c' : json) : Prop :=
  match c with
  | JDict _ => c' = c
  | JList leaves =>
      c' = JDict [("leaves", JList leaves); ("inv_cost", JInt 0);
                  ("area_cost", JInt (Z.of_nat (length leaves)));
                  ("depth_cost", JInt 1)]
  | _ => True
  end.

(** A node dict after normalization: every key but [cuts] as it was, and
    under [cuts] a list: when [cuts] was a list (or absent, which stands
    for the empty one), that of the normalized cuts, in order. *)
Definition node_normalized (nd nd' : json) : Prop :=
  ∃ dn dn' cs',
    nd = JDict dn ∧ nd' = JDict dn'
    ∧ (∀ k, k ≠ "cuts" → dict_get k dn' = dict_get k dn)
    ∧ dict_get "cuts" dn' = Some (JList cs')
    ∧ match default (JList []) (dict_get "cuts" dn) with
      | JList cs => Forall2 cut_normalized cs cs'
      | _ => True
      end.

(** The nodes of a catalog after normalization: when [nodes] was a list (or
    absent), the normalized nodes, in order. *)
Definition nodes_normalized (nodes : json) (ns' : list json) : Prop :=
  match nodes with
  | JList ns => Forall2 node_normalized ns ns'
  | _ => True
  end.

(** The recurrence that [depth] evaluates, without its memo and its stack:
    0 for a name that is no node; for a node, the least, over its cuts that
    are not self-cuts, of the largest depth of the leaves other than the
    node itself (0 without such leaves) plus [depth_cost or 1]; and 0 for a
    node without such a cut.  [None] is running out of fuel, which on a
    cycle happens for every fuel. *)
Fixpoint plain_cuts (rec : string → option Z) (name : string)
    (cuts : list cut) (best : option Z) : option (option Z) :=
  match cuts with
  | [] => Some best
  | c :: cs =>
      let leaves_raw := default [] (cut_leaves c) in
      if is_self_cut leaves_raw name then plain_cuts rec name cs best
      else
        match omap_list rec (filter (fun l => l ≠ name) leaves_raw) with
        | None => None
        | Some ds =>
            let cut_depth := py_max ds 0 + depth_step c in
            let best' :=
              match best with
              | None => Some cut_depth
              | Some b => if cut_depth <? b then Some cut_depth else Some b
              end in
            plain_cuts rec name cs best'
        end
  end.

Fixpoint plain_depth (nodes : list node) (fuel : nat) (name : string)
    : option Z :=
  match fuel with
  | O => None
  | S fuel' =>
      match node_map_of nodes !! name with
      | None => Some 0
      | Some nd =>
          option_map (default 0)
            (plain_cuts (plain_depth nodes fuel') name (nd_cuts nd) None)
      end
  end.

(** Every value in the memo is a value of the recurrence. *)
Definition memo_sound (nodes : list node) (st : dfs_state) : Prop :=
  ∀ n d, memo st !! n = Some d → ∃ fuel, plain_depth nodes fuel n = Some d.

(** [rec_ok nodes f]: where the recurrence has a value within fuel [f], and
    no name on the stack has one, [depth] with the same fuel returns that
    value, keeps the memo sound and restores the stack. *)
Definition rec_ok (nodes : list node) (f : nat) : Prop :=
  ∀ x dx st,
    plain_depth nodes f x = Some dx → memo_sound nodes st →
    (∀ v, v ∈ visiting st → plain_depth nodes f v = None) →
    ∃ st', depth nodes f x st = Some (dx, st') ∧ memo_sound nodes st'
           ∧ visiting st' = visiting st.

(** A catalog in which [c] is reached twice from the root [r], through [a]
    and through [b]. *)
Definition catalog_diamond : catalog :=
  mk_catalog
    [mk_node "c" [mk_cut (Some ["x"]) None None (Some 3)];
     mk_node "a" [lifted ["c"]];
     mk_node "b" [mk_cut (Some ["c"]) None None (Some 2)];
     mk_node "r" [lifted ["a"; "b"]]]
    ["r"; "a"] [].

(** The run returned a result. *)
Definition returned {F A : Type} (c : @io F A) : Prop :=
  ∃ a, snd c = Ok a.

(** Every effect of the run satisfies [P]. *)
Definition all_events {F A : Type} (P : @event F → Prop) (c : @io F A)
    : Prop :=
  ∀ e, e ∈ fst c → P e.

(** A chosen-cuts dict fits the catalog: no key twice, every key a node
    name, every value the position of a cut of that node that is not a
    self-cut. *)
Definition selection_in_catalog (nodes : list node) (chosen : pydict nat)
    : Prop :=
  NoDup (map fst chosen)
  ∧ ∀ n i, dict_get n chosen = Some i →
      ∃ nd c, node_map_of nodes !! n = Some nd ∧ nd_cuts nd !! i = Some c
              ∧ is_self_cut (default [] (cut_leaves c)) n = false.

(** The effects [solve_circuit] may have after loading: printing, and
    writing to [path] a chosen-cuts document that fits the catalog. *)
Definition safe_event {F : Type} (nodes : list node) (path : string)
    (e : @event F) : Prop :=
  match e with
  | EPrint _ => True
  | EUnlink _ => False
  | EWriteJson p c =>
      p = path
      ∧ ∃ chosen, c = chosen_cuts_json chosen
                  ∧ selection_in_catalog nodes chosen
  end.

(** A catalog with a cut record that has no leaves. *)
Definition catalog_no_leaves : catalog :=
  mk_catalog [mk_node "a" [lifted ["x"]; mk_cut None (Some 1) None None]]
             ["a"] [].

(** How often [path] is deleted by the generator and by the loader. *)
Definition gen_unlinks (path : string) (ev : list gen_event) : nat :=
  length (List.filter (fun e => match e with
                                | GUnlink p => String.eqb p path
                                | _ => false
                                end) ev).

Definition load_unlinks {F : Type} (path : string) (ev : list (@event F))
    : nat :=
  length (List.filter (fun e => match e with
                                | EUnlink p => String.eqb p path
                                | _ => false
                                end) ev).

(** A world for the generator in which every path is a file, nothing is on
    the PATH, the temporary file is [tmp.json] and the enumerator ends as
    [outcome]. *)
Definition world_is_file : string → bool := fun _ => true.
Definition world_which : string → option string := fun _ => None.
Definition world_path_str : string → string := fun p => p.
Definition world_parent : string → string := fun _ => "dir/cut_enumeration".
Definition world_mkstemp : string → string := fun _ => "tmp.json".
Definition world_run (outcome : run_outcome) : list string → run_outcome :=
  fun _ => outcome.
Definition world_blif_suffix : string → string := fun _ => ".blif".

(** A chosen-cuts dict is a cover of the catalog: it fits the catalog, it
    holds every root that names a node, and with a node it holds every
    leaf of the cut chosen for it that names a node. *)
Definition is_cover (data : catalog) (chosen : pydict nat) : Prop :=
  let nodes := cat_nodes data in
  selection_in_catalog nodes chosen
  ∧ (∀ out, out ∈ resolve_outputs data → out ∈ map nd_name nodes →
            is_Some (dict_get out chosen))
  ∧ (∀ n i nd c leaf,
       dict_get n chosen = Some i →
       node_map_of nodes !! n = Some nd → nd_cuts nd !! i = Some c →
       leaf ∈ default [] (cut_leaves c) → leaf ∈ map nd_name nodes →
       is_Some (dict_get leaf chosen)).

(** The solver is sound: the values it reports with OPTIMAL or FEASIBLE
    solve the model it was given. *)
Definition solver_sound {F : Type}
    (Solve : solver_params → CpModel → cp_status * @solver F) : Prop :=
  ∀ params m st s,
    Solve params m = (st, s) → is_solved st = true →
    feasible (Value s) m = true.

Definition cover_event {F : Type} (data : catalog) (path : string)
    (e : @event F) : Prop :=
  match e with
  | EPrint _ => True
  | EUnlink _ => False
  | EWriteJson p c =>
      p = path ∧ ∃ chosen, c = chosen_cuts_json chosen ∧ is_cover data chosen
  end.

(** A solver that answers the model of [catalog_chain] without depth with
    its only solution, and every other model with INFEASIBLE. *)
Definition chain_solver : solver_params → CpModel → cp_status * @solver Z :=
  fun _ m =>
    if feasible all_ones m then (OPTIMAL, mk_solver all_ones 2)
    else (INFEASIBLE, mk_solver all_ones 0).

(** [cp_good] of [run_full_flow._run_single_pipeline], the test that
    decides whether the rebuild step runs:
    [cp_sat_result.get("status", "") in ("FEASIBLE", "OPTIMAL")] on the
    dict [solve_circuit] returned. *)
Definition cp_good {F : Type} (cp_sat_result : @solve_result F) : bool :=
  let cp_status := status cp_sat_result in
  (String.eqb cp_status "FEASIBLE" || String.eqb cp_status "OPTIMAL")%bool.

(* ===================================================================== *)
(** * Properties *)
(* ===================================================================== *)

(** ** Python dicts *)

Lemma dict_get_set_eq {V} (k : string) (v : V) (d : pydict V) :
  dict_get k (dict_set k v d) = Some v.
Proof.
  induction d as [|[k' v'] d IH]; simpl.
  - by rewrite String.eqb_refl.
  - destruct (String.eqb k k') eqn:E; simpl.
    + by rewrite String.eqb_refl.
    + by rewrite E.
Qed.

Lemma dict_get_set_ne {V} (k k' : string) (v : V) (d : pydict V) :
  k ≠ k' → dict_get k' (dict_set k v d) = dict_get k' d.
Proof.
  intros Hne. induction d as [|[k0 v0] d IH]; simpl.
  - destruct (String.eqb k' k) eqn:E; [|done].
    apply String.eqb_eq in E. congruence.
  - destruct (String.eqb k k0) eqn:E; simpl.
    + apply String.eqb_eq in E. subst k0.
      destruct (String.eqb k' k) eqn:E'; [|done].
      apply String.eqb_eq in E'. congruence.
    + by rewrite IH.
Qed.

Lemma dict_get_set {V} (k k' : string) (v : V) (d : pydict V) :
  dict_get k' (dict_set k v d)
  = if decide (k = k') then Some v else dict_get k' d.
Proof.
  case_decide.
  - subst. apply dict_get_set_eq.
  - by apply dict_get_set_ne.
Qed.

(** ** The name -> node map *)

Lemma node_map_fold_lookup (nodes : list node) (M : gmap string node)
    (n : string) (nd : node) :
  fold_left (fun m nd => <[nd_name nd := nd]> m) nodes M !! n = Some nd →
  M !! n = Some nd ∨ (nd ∈ nodes ∧ nd_name nd = n).
Proof.
  revert M. induction nodes as [|x xs IH]; simpl; intros M H.
  - by left.
  - apply IH in H as [H|[H1 H2]].
    + destruct (decide (nd_name x = n)) as [<-|Hne].
      * rewrite lookup_insert_eq in H. inversion H; subst.
        right. split; [left|done].
      * rewrite lookup_insert_ne in H by done. by left.
    + right. split; [by right|done].
Qed.

Lemma node_map_fold_dom (nodes : list node) (M : gmap string node)
    (n : string) :
  is_Some (fold_left (fun m nd => <[nd_name nd := nd]> m) nodes M !! n)
  ↔ is_Some (M !! n) ∨ n ∈ map nd_name nodes.
Proof.
  revert M. induction nodes as [|x xs IH]; simpl; intros M.
  - split; [by left|]. intros [H|H]; [done|]. by apply elem_of_nil in H.
  - rewrite IH. rewrite elem_of_cons.
    destruct (decide (nd_name x = n)) as [<-|Hne].
    + rewrite lookup_insert_eq. split; [intros _; right; by left|].
      intros _. left. eauto.
    + rewrite lookup_insert_ne by done. split; intros [H|H]; eauto.
      destruct H as [H|H]; [congruence|eauto].
Qed.

Lemma node_map_of_lookup (nodes : list node) (n : string) (nd : node) :
  node_map_of nodes !! n = Some nd → nd ∈ nodes ∧ nd_name nd = n.
Proof.
  intros H. apply node_map_fold_lookup in H as [H|H]; [|done].
  by rewrite lookup_empty in H.
Qed.

Lemma node_map_of_dom (nodes : list node) (n : string) :
  is_Some (node_map_of nodes !! n) ↔ n ∈ map nd_name nodes.
Proof.
  unfold node_map_of. rewrite node_map_fold_dom, lookup_empty.
  split; [intros [[? H]|H]; [done|done]|by right].
Qed.

Lemma node_map_fold_size (nodes : list node) (M : gmap string node) :
  (size (dom (fold_left (fun m nd => <[nd_name nd := nd]> m) nodes M))
   ≤ size (dom M) + length nodes)%nat.
Proof.
  revert M. induction nodes as [|x xs IH]; simpl; intros M; [lia|].
  etrans; [apply IH|]. rewrite dom_insert_L.
  pose proof (size_union_alt ({[nd_name x]} : gset string) (dom M)) as Hu.
  rewrite Hu, size_singleton.
  pose proof (subseteq_size (dom M ∖ {[nd_name x]}) (dom M)) as Hs.
  assert (dom M ∖ {[nd_name x]} ⊆ dom M) by set_solver.
  specialize (Hs H). lia.
Qed.

Lemma node_map_of_size (nodes : list node) :
  (size (dom (node_map_of nodes)) ≤ length nodes)%nat.
Proof.
  unfold node_map_of.
  pose proof (node_map_fold_size nodes ∅) as H.
  rewrite dom_empty_L, size_empty in H. lia.
Qed.

(** ** The depth bounder terminates *)

Section depth_total.
Variable nodes : list node.

Lemma dfs_map_total {A B} (f : A → DFS B) (V : gset string) :
  (∀ x st, visiting st = V →
     ∃ y st', f x st = Some (y, st') ∧ visiting st' = V) →
  ∀ xs st, visiting st = V →
    ∃ ys st', dfs_map f xs st = Some (ys, st') ∧ visiting st' = V
              ∧ length ys = length xs.
Proof.
  intros Hf. induction xs as [|x xs IH]; intros st HV; simpl.
  - exists [], st. done.
  - unfold dfs_bind.
    destruct (Hf x st HV) as (y & st1 & -> & HV1).
    destruct (IH st1 HV1) as (ys & st2 & -> & HV2 & Hlen).
    exists (y :: ys), st2. simpl. by rewrite Hlen.
Qed.

Lemma depth_cuts_total (rec : string → DFS Z) (V : gset string)
    (name : string) :
  (∀ x st, visiting st = V →
     ∃ y st', rec x st = Some (y, st') ∧ visiting st' = V) →
  ∀ cuts best st, visiting st = V →
    ∃ r st', depth_cuts rec name cuts best st = Some (r, st')
             ∧ visiting st' = V.
Proof.
  intros Hrec. induction cuts as [|c cs IH]; intros best st HV; simpl.
  - exists best, st. done.
  - destruct (is_self_cut _ name); [by apply IH|].
    unfold dfs_bind.
    destruct (dfs_map_total rec V Hrec
                (filter (fun l => l ≠ name) (default [] (cut_leaves c)))
                st HV) as (ds & st1 & -> & HV1 & _).
    by apply IH.
Qed.

Lemma depth_total_measure (fuel : nat) :
  ∀ name st,
    (size (dom (node_map_of nodes) ∖ visiting st) < fuel)%nat →
    ∃ d st', depth nodes fuel name st = Some (d, st')
             ∧ visiting st' = visiting st.
Proof.
  induction fuel as [|fuel IH]; intros name st Hsz; [lia|].
  simpl. unfold depth_body.
  destruct (memo st !! name) as [d|]; [by exists d, st|].
  destruct (decide (name ∈ visiting st)) as [Hin|Hnin]; [by eexists _, st|].
  destruct (node_map_of nodes !! name) as [nd|] eqn:Hnd; [|by eexists _, _].
  set (V := {[name]} ∪ visiting st).
  assert (Hlt : (size (dom (node_map_of nodes) ∖ V) < fuel)%nat).
  { assert (dom (node_map_of nodes) ∖ V ⊂ dom (node_map_of nodes) ∖ visiting st)
      as Hsub.
    { assert (name ∈ dom (node_map_of nodes)) by (apply elem_of_dom; eauto).
      subst V. set_solver. }
    apply subset_size in Hsub. lia. }
  destruct (depth_cuts_total (depth nodes fuel) V name) with
    (cuts := nd_cuts nd) (best := @None Z)
    (st := mk_dfs (memo st) V) as (r & st2 & -> & HV2); [|done|].
  { intros x st0 HV0. destruct (IH x st0) as (y & st' & ? & ?).
    - by rewrite HV0.
    - exists y, st'. split; [done|congruence]. }
  eexists _, _. split; [done|]. simpl. rewrite HV2. subst V. set_solver.
Qed.

Lemma depth_total (fuel : nat) (name : string) (st : dfs_state) :
  (length nodes < fuel)%nat →
  ∃ d st', depth nodes fuel name st = Some (d, st')
           ∧ visiting st' = visiting st.
Proof.
  intros Hf. apply depth_total_measure.
  pose proof (node_map_of_size nodes).
  assert (dom (node_map_of nodes) ∖ visiting st ⊆ dom (node_map_of nodes))
    as Hs by set_solver.
  apply subseteq_size in Hs. lia.
Qed.

Lemma depth_on_stack (fuel : nat) (name : string) (st : dfs_state) :
  memo st !! name = None → name ∈ visiting st →
  depth nodes (S fuel) name st = Some (len_or_1 nodes, st).
Proof.
  intros Hm Hv. simpl. unfold depth_body. rewrite Hm.
  by rewrite decide_True.
Qed.
End depth_total.

Lemma compute_depth_upper_bound_total (data : catalog) :
  ∃ ds st,
    dfs_map (depth (cat_nodes data) (S (length (cat_nodes data))))
            (resolve_outputs data) dfs_init = Some (ds, st)
    ∧ length ds = length (resolve_outputs data)
    ∧ _compute_depth_upper_bound data
      = Some (ub_of_base (cat_nodes data) (base_of (cat_nodes data) ds)).
Proof.
  destruct (dfs_map_total (depth (cat_nodes data) (S (length (cat_nodes data))))
              ∅) with (xs := resolve_outputs data) (st := dfs_init)
    as (ds & st & Hds & _ & Hlen); [|done|].
  { intros x st HV.
    destruct (depth_total (cat_nodes data) (S (length (cat_nodes data))) x st)
      as (y & st' & ? & ?); [lia|].
    exists y, st'. split; [done|congruence]. }
  exists ds, st. split; [done|]. split; [done|].
  unfold _compute_depth_upper_bound, compute_depth_upper_bound_fuel, base_depth.
  by rewrite Hds.
Qed.

(** More fuel never changes a result. *)
Lemma dfs_map_mono {A B} (f g : A → DFS B) :
  (∀ x st r, f x st = Some r → g x st = Some r) →
  ∀ xs st r, dfs_map f xs st = Some r → dfs_map g xs st = Some r.
Proof.
  intros Hfg. induction xs as [|x xs IH]; intros st r; simpl; [done|].
  unfold dfs_bind. destruct (f x st) as [[y st1]|] eqn:Hf; [|done].
  rewrite (Hfg _ _ _ Hf).
  destruct (dfs_map f xs st1) as [[ys st2]|] eqn:Hm; [|done].
  by rewrite (IH _ _ Hm).
Qed.

Lemma depth_cuts_mono (f g : string → DFS Z) (name : string) :
  (∀ x st r, f x st = Some r → g x st = Some r) →
  ∀ cuts best st r,
    depth_cuts f name cuts best st = Some r →
    depth_cuts g name cuts best st = Some r.
Proof.
  intros Hfg. induction cuts as [|c cs IH]; intros best st r; simpl; [done|].
  destruct (is_self_cut _ name); [apply IH|].
  unfold dfs_bind.
  destruct (dfs_map f _ st) as [[ds st1]|] eqn:Hm; [|done].
  rewrite (dfs_map_mono f g Hfg _ _ _ Hm). apply IH.
Qed.

Lemma depth_fuel_S (nodes : list node) (fuel : nat) :
  ∀ name st r,
    depth nodes fuel name st = Some r → depth nodes (S fuel) name st = Some r.
Proof.
  induction fuel as [|fuel IH]; intros name st r; [done|].
  intros H. simpl in H. unfold depth_body in H.
  change (depth nodes (S (S fuel)) name st)
    with (depth_body nodes (depth nodes (S fuel)) name st).
  unfold depth_body.
  destruct (memo st !! name); [done|].
  destruct (decide (name ∈ visiting st)); [done|].
  destruct (node_map_of nodes !! name) as [nd|]; [|done].
  destruct (depth_cuts (depth nodes fuel) name (nd_cuts nd) None _)
    as [[best st2]|] eqn:Hc; [|done].
  by rewrite (depth_cuts_mono _ _ name IH _ _ _ _ Hc).
Qed.

Lemma depth_fuel_mono (nodes : list node) (fuel fuel' : nat) name st r :
  (fuel ≤ fuel')%nat →
  depth nodes fuel name st = Some r → depth nodes fuel' name st = Some r.
Proof.
  induction 1 as [|k Hle IH]; [done|].
  intros H. by apply depth_fuel_S, IH.
Qed.

Lemma base_depth_mono (data : catalog) (fuel fuel' : nat) (base : Z) :
  (fuel ≤ fuel')%nat →
  base_depth fuel data = Some base → base_depth fuel' data = Some base.
Proof.
  intros Hle. unfold base_depth.
  destruct (dfs_map (depth (cat_nodes data) fuel) _ dfs_init)
    as [[ds st]|] eqn:Hds; [|done].
  rewrite (dfs_map_mono (depth (cat_nodes data) fuel)
             (depth (cat_nodes data) fuel')
             (fun x st r =>
                depth_fuel_mono (cat_nodes data) fuel fuel' x st r Hle)
             _ _ _ Hds).
  done.
Qed.

Lemma compute_depth_upper_bound_fuel_mono (data : catalog)
    (fuel fuel' : nat) (ub : Z) :
  (fuel ≤ fuel')%nat →
  compute_depth_upper_bound_fuel fuel data = Some ub →
  compute_depth_upper_bound_fuel fuel' data = Some ub.
Proof.
  intros Hle. unfold compute_depth_upper_bound_fuel.
  destruct (base_depth fuel data) as [base|] eqn:Hb; [|done].
  by rewrite (base_depth_mono data fuel fuel' base Hle Hb).
Qed.

(** Whatever fuel the bound is computed with, it is the value of
    [_compute_depth_upper_bound]. *)
Lemma compute_depth_upper_bound_fuel_value (data : catalog)
    (fuel : nat) (ub : Z) :
  compute_depth_upper_bound_fuel fuel data = Some ub →
  _compute_depth_upper_bound data = Some ub.
Proof.
  intros Hub. unfold _compute_depth_upper_bound.
  destruct (compute_depth_upper_bound_total data) as (ds & st & _ & _ & Hv).
  unfold _compute_depth_upper_bound in Hv.
  destruct (Nat.le_ge_cases fuel (S (length (cat_nodes data)))) as [Hle|Hge].
  - by apply (compute_depth_upper_bound_fuel_mono data fuel).
  - rewrite Hv.
    pose proof (compute_depth_upper_bound_fuel_mono data _ fuel _ Hge Hv).
    congruence.
Qed.

(** *** A long chain *)

Lemma chain_name_inj (i j : nat) : chain_name i = chain_name j → i = j.
Proof.
  unfold chain_name. intros H.
  change (String "n" (pretty i) = String "n" (pretty j)) in H.
  inversion H as [Hp]. by apply (inj pretty) in Hp.
Qed.

Lemma chain_nodes_elem (k : nat) (nd : node) :
  nd ∈ chain_nodes k
  ↔ ∃ j, (j < k)%nat
         ∧ nd = mk_node (chain_name (S j)) [lifted [chain_name j]].
Proof.
  induction k as [|k IH]; simpl.
  - split; [intros H; by apply elem_of_nil in H|intros (j & Hj & _); lia].
  - rewrite elem_of_app, IH, list_elem_of_singleton. split.
    + intros [(j & Hj & ->)| ->].
      * exists j. split; [lia|done].
      * exists k. split; [lia|done].
    + intros (j & Hj & ->).
      destruct (decide (j = k)) as [->|Hne]; [by right|].
      left. exists j. split; [lia|done].
Qed.

Lemma chain_nodes_length (k : nat) : length (chain_nodes k) = k.
Proof.
  induction k as [|k IH]; simpl; [done|].
  rewrite length_app, IH. simpl. lia.
Qed.

Lemma chain_nodes_lookup (k i : nat) :
  (i < k)%nat →
  node_map_of (chain_nodes k) !! chain_name (S i)
  = Some (mk_node (chain_name (S i)) [lifted [chain_name i]]).
Proof.
  intros Hi.
  destruct (node_map_of (chain_nodes k) !! chain_name (S i)) as [nd|] eqn:E.
  - apply node_map_of_lookup in E as [Hin Hname].
    apply chain_nodes_elem in Hin as (j & Hj & ->). simpl in Hname.
    apply chain_name_inj in Hname. inversion Hname; subst j. done.
  - assert (is_Some (node_map_of (chain_nodes k) !! chain_name (S i))) as Hs.
    { apply node_map_of_dom. apply list_elem_of_fmap.
      exists (mk_node (chain_name (S i)) [lifted [chain_name i]]).
      split; [done|]. apply chain_nodes_elem. eauto. }
    rewrite E in Hs. by destruct Hs.
Qed.

(** On the chain, [depth] at node n<i> needs more than [i] nested calls. *)
Lemma chain_depth_fails (k : nat) :
  ∀ fuel i st,
    (fuel ≤ i)%nat → (i ≤ k)%nat →
    (∀ j, (j ≤ i)%nat → memo st !! chain_name j = None) →
    (∀ j, (j ≤ i)%nat → chain_name j ∉ visiting st) →
    depth (chain_nodes k) fuel (chain_name i) st = None.
Proof.
  induction fuel as [|fuel IH]; intros i st Hf Hk Hm Hv; [done|].
  destruct i as [|i]; [lia|].
  assert (Hne : chain_name i ≠ chain_name (S i)).
  { intros H. apply chain_name_inj in H. lia. }
  change (depth (chain_nodes k) (S fuel) (chain_name (S i)) st)
    with (depth_body (chain_nodes k) (depth (chain_nodes k) fuel)
            (chain_name (S i)) st).
  unfold depth_body.
  rewrite (Hm (S i)) by lia.
  rewrite decide_False by (apply Hv; lia).
  rewrite chain_nodes_lookup by lia.
  cbn [nd_cuts depth_cuts lifted cut_leaves default from_option].
  unfold id. cbn [is_self_cut].
  rewrite (proj2 (String.eqb_neq _ _) Hne).
  rewrite filter_cons, decide_True by done. rewrite filter_nil.
  cbn [dfs_map]. unfold dfs_bind.
  rewrite IH; [done|lia|lia| |].
  - intros j Hj. cbn [memo]. apply Hm. lia.
  - intros j Hj. cbn [visiting]. intros Hin.
    apply elem_of_union in Hin as [Hin|Hin].
    + apply elem_of_singleton in Hin. apply chain_name_inj in Hin. lia.
    + revert Hin. apply Hv. lia.
Qed.

Lemma chain_bound_fails (k limit : nat) :
  (limit ≤ k)%nat →
  compute_depth_upper_bound_fuel limit
    (mk_catalog (chain_nodes k) [chain_name k] []) = None.
Proof.
  intros Hle. unfold compute_depth_upper_bound_fuel, base_depth.
  cbn [cat_nodes cat_outputs resolve_outputs dfs_map]. unfold dfs_bind.
  rewrite chain_depth_fails; [done|done|done| |].
  - intros j _. apply lookup_empty.
  - intros j _. apply not_elem_of_empty.
Qed.

Lemma chain_bound_returns (k limit : nat) :
  (k < limit)%nat →
  is_Some (compute_depth_upper_bound_fuel limit
             (mk_catalog (chain_nodes k) [chain_name k] [])).
Proof.
  intros Hlt.
  destruct (compute_depth_upper_bound_total
              (mk_catalog (chain_nodes k) [chain_name k] []))
    as (ds & st & _ & _ & Hv).
  eexists.
  apply (compute_depth_upper_bound_fuel_mono _ _ limit _) in Hv; [exact Hv|].
  cbn [cat_nodes]. rewrite chain_nodes_length. lia.
Qed.

(** C8, as the spec states it, fails: the depth computation is not a total
    function.  On a chain of [python_recursion_limit] nodes without any
    cycle, [depth] has to nest one call per node and one for the primary
    input at the bottom; an interpreter that allows [python_recursion_limit]
    nested calls of [depth], or fewer, as CPython does, ends in
    [RecursionError], where one more nested call would have returned the
    bound. *)
Lemma C8_counterexample :
  compute_depth_upper_bound_fuel python_recursion_limit catalog_long_chain
  = None
  ∧ (∀ limit, (limit ≤ python_recursion_limit)%nat →
       compute_depth_upper_bound_fuel limit catalog_long_chain = None)
  ∧ is_Some (compute_depth_upper_bound_fuel (S python_recursion_limit)
               catalog_long_chain).
Proof.
  split; [|split].
  - exact (chain_bound_fails python_recursion_limit python_recursion_limit
             (Nat.le_refl _)).
  - intros limit Hle.
    exact (chain_bound_fails python_recursion_limit limit Hle).
  - exact (chain_bound_returns python_recursion_limit
             (S python_recursion_limit) (Nat.lt_succ_diag_r _)).
Qed.

(** C8, amended.  The depth computation cannot recurse forever, on any
    catalog, cyclic or not, but it returns only if the interpreter admits
    its recursion.  With [fuel] the number of nested calls of [depth] the
    interpreter allows: above the number of nodes, [depth] yields a value
    from every state and leaves the DFS stack as it found it, and more
    fuel gives the same value; a name met again while on the stack gets the
    sentinel max(len(nodes), 1) at once, with no recursive call (fuel 1 is
    enough) and no change of state; hence the upper bound is computed
    whenever the interpreter allows more than len(nodes) nested calls; and
    whenever it is computed, under whatever limit, it is the same value,
    the one [_compute_depth_upper_bound] stands for. *)
Theorem C8_depth_bound_terminates (data : catalog) :
  let nodes := cat_nodes data in
  (∀ fuel name st,
      (length nodes < fuel)%nat →
      ∃ d st', depth nodes fuel name st = Some (d, st')
               ∧ visiting st' = visiting st
               ∧ ∀ fuel', (fuel ≤ fuel')%nat →
                   depth nodes fuel' name st = Some (d, st'))
  ∧ (∀ name st,
      memo st !! name = None → name ∈ visiting st →
      depth nodes 1 name st
      = Some (Z.max (Z.of_nat (length nodes)) 1, st))
  ∧ (∀ limit, (length nodes < limit)%nat →
       is_Some (compute_depth_upper_bound_fuel limit data))
  ∧ (∀ limit limit' ub, (limit ≤ limit')%nat →
       compute_depth_upper_bound_fuel limit data = Some ub →
       compute_depth_upper_bound_fuel limit' data = Some ub)
  ∧ (∀ limit ub,
       compute_depth_upper_bound_fuel limit data = Some ub →
       _compute_depth_upper_bound data = Some ub).
Proof.
  intros nodes. split; [|split; [|split; [|split]]].
  - intros fuel name st Hf.
    destruct (depth_total nodes fuel name st Hf) as (d & st' & Hd & HV).
    exists d, st'. split; [done|]. split; [done|].
    intros fuel' Hle. by apply (depth_fuel_mono nodes fuel fuel').
  - intros name st Hm Hv. rewrite (depth_on_stack nodes 0 name st Hm Hv).
    do 2 f_equal. unfold len_or_1, or_1.
    destruct (Z.eqb_spec (Z.of_nat (length nodes)) 0); lia.
  - intros limit Hlim.
    destruct (compute_depth_upper_bound_total data) as (ds & st & _ & _ & Hv).
    exists (ub_of_base (cat_nodes data) (base_of (cat_nodes data) ds)).
    apply (compute_depth_upper_bound_fuel_mono data
             (S (length (cat_nodes data))) limit); [|done].
    subst nodes. lia.
  - intros limit limit' ub Hle.
    by apply compute_depth_upper_bound_fuel_mono.
  - intros limit ub. apply compute_depth_upper_bound_fuel_value.
Qed.

Lemma C8_depth_bound_terminates_witness :
  (∃ d st', depth (cat_nodes catalog_cycle) 3 "a" dfs_init = Some (d, st')
            ∧ visiting st' = visiting dfs_init
            ∧ ∀ fuel', (3 ≤ fuel')%nat →
                depth (cat_nodes catalog_cycle) fuel' "a" dfs_init
                = Some (d, st'))
  ∧ depth (cat_nodes catalog_cycle) 1 "a" (mk_dfs ∅ {["a"]})
    = Some (Z.max (Z.of_nat (length (cat_nodes catalog_cycle))) 1,
            mk_dfs ∅ {["a"]})
  ∧ is_Some (compute_depth_upper_bound_fuel 3 catalog_cycle)
  ∧ compute_depth_upper_bound_fuel 4 catalog_chain = Some 12
  ∧ _compute_depth_upper_bound catalog_chain = Some 12.
Proof.
  split; [|split; [|split; [|split]]].
  - apply (proj1 (C8_depth_bound_terminates catalog_cycle)). simpl. lia.
  - apply (proj1 (proj2 (C8_depth_bound_terminates catalog_cycle))).
    + reflexivity.
    + simpl. by apply elem_of_singleton.
  - apply (proj1 (proj2 (proj2 (C8_depth_bound_terminates catalog_cycle)))).
    simpl. lia.
  - apply (proj1 (proj2 (proj2 (proj2
             (C8_depth_bound_terminates catalog_chain)))) 3%nat 4%nat).
    + lia.
    + vm_compute. reflexivity.
  - apply (proj2 (proj2 (proj2 (proj2
             (C8_depth_bound_terminates catalog_chain)))) 3%nat).
    vm_compute. reflexivity.
Defined.

(** C4, as the spec states it, fails: with base 21 the code returns
    max(31, int(31.5)) = 31, the spec's formula max(31, ceil(31.5)) = 32. *)
Lemma C4_counterexample :
  base_depth 2 catalog_depth21 = Some 21
  ∧ _compute_depth_upper_bound catalog_depth21 = Some 31
  ∧ spec_depth_upper_bound (cat_nodes catalog_depth21) 21 = 32.
Proof. vm_compute. done. Qed.

Lemma fold_max_spec (ds : list Z) (d : Z) :
  fold_left Z.max ds d ∈ d :: ds
  ∧ ∀ x, x ∈ d :: ds → x ≤ fold_left Z.max ds d.
Proof.
  revert d. induction ds as [|y ds IH]; intros d; simpl.
  - split; [left|]. intros x Hx. apply list_elem_of_singleton in Hx. lia.
  - destruct (IH (Z.max d y)) as [Hin Hle]. split.
    + apply elem_of_cons in Hin as [Heq|Hin].
      * rewrite Heq. destruct (Z.max_spec d y) as [[_ ->]|[_ ->]].
        -- right. left.
        -- left.
      * right. by right.
    + intros x Hx. rewrite !elem_of_cons in Hx.
      pose proof (Hle (Z.max d y) ltac:(left)) as Hm.
      destruct Hx as [->|[->|Hx]]; [lia|lia|].
      apply Hle. by right.
Qed.

(** C4, amended.  The bound is max(base + 10, int(1.5 * base), len(nodes), 1)
    with the product truncated, not rounded up; [base] is the largest of
    the depths the DFS computes for the resolved roots, in order, or
    max(len(nodes), 1) without roots.  Stated where the double product is
    exact. *)
Theorem C4_depth_upper_bound_formula (data : catalog) (base : Z) :
  base_depth (S (length (cat_nodes data))) data = Some base →
  Z.abs base < 2 ^ 51 →
  _compute_depth_upper_bound data
  = Some (Z.max (Z.max (Z.max (base + 10) (Z.quot (3 * base) 2))
                       (Z.of_nat (length (cat_nodes data)))) 1)
  ∧ (0 ≤ base → Z.quot (3 * base) 2 = (3 * base) / 2)
  ∧ (resolve_outputs data = [] →
     base = Z.max (Z.of_nat (length (cat_nodes data))) 1)
  ∧ (resolve_outputs data ≠ [] →
     ∃ ds st,
       dfs_map (depth (cat_nodes data) (S (length (cat_nodes data))))
               (resolve_outputs data) dfs_init = Some (ds, st)
       ∧ length ds = length (resolve_outputs data)
       ∧ base ∈ ds ∧ ∀ d, d ∈ ds → d ≤ base).
Proof.
  intros Hb _. split; [|split; [|split]].
  - unfold _compute_depth_upper_bound, compute_depth_upper_bound_fuel.
    rewrite Hb. simpl. f_equal. unfold ub_of_base, int_mul_1_5, len_or_1, or_1.
    destruct (Z.eqb_spec (Z.of_nat (length (cat_nodes data))) 0); lia.
  - intros Hge. apply Z.quot_div_nonneg; lia.
  - intros Hr. unfold base_depth in Hb. rewrite Hr in Hb. simpl in Hb.
    inversion Hb. unfold len_or_1, or_1.
    destruct (Z.eqb_spec (Z.of_nat (length (cat_nodes data))) 0); lia.
  - intros Hr.
    destruct (compute_depth_upper_bound_total data)
      as (ds & st & Hds & Hlen & _).
    exists ds, st. split; [done|]. split; [done|].
    unfold base_depth in Hb. rewrite Hds in Hb. inversion Hb as [Hbase].
    destruct ds as [|d ds].
    { destruct (resolve_outputs data); [done|discriminate Hlen]. }
    simpl. apply fold_max_spec.
Qed.

Lemma C4_depth_upper_bound_formula_witness :
  _compute_depth_upper_bound catalog_depth21
  = Some (Z.max (Z.max (Z.max (21 + 10) (Z.quot (3 * 21) 2))
                       (Z.of_nat (length (cat_nodes catalog_depth21)))) 1).
Proof.
  apply (C4_depth_upper_bound_formula catalog_depth21 21).
  - vm_compute. reflexivity.
  - vm_compute. reflexivity.
Defined.

(** ** Variables and constraints of a model under construction *)


Lemma is_bool_var_app (m m' : CpModel) (ext : list var_decl) (v : var) :
  variables m' = variables m ++ ext → is_bool_var m v → is_bool_var m' v.
Proof.
  intros Hext [name H]. exists name. rewrite Hext.
  by apply lookup_app_l_Some.
Qed.

Lemma NewIntVar_spec lb ub name m v m' :
  NewIntVar lb ub name m = (v, m') →
  v = length (variables m)
  ∧ variables m' = variables m ++ [mk_var lb ub name]
  ∧ constraints m' = constraints m.
Proof. unfold NewIntVar. intros H. by inversion H. Qed.

Lemma NewBoolVar_is_bool name m v m' :
  NewBoolVar name m = (v, m') → is_bool_var m' v.
Proof.
  intros H. apply NewIntVar_spec in H as (-> & Hv & _).
  exists name. rewrite Hv. by rewrite lookup_app_r, Nat.sub_diag.
Qed.

Lemma NewBoolVar_spec name m v m' :
  NewBoolVar name m = (v, m') →
  v = length (variables m)
  ∧ variables m' = variables m ++ [mk_var 0 1 name]
  ∧ constraints m' = constraints m.
Proof. apply NewIntVar_spec. Qed.

Lemma NewConstant_spec k m v m' :
  NewConstant k m = (v, m') →
  v = length (variables m)
  ∧ variables m' = variables m ++ [mk_var k k ""]
  ∧ constraints m' = constraints m.
Proof. apply NewIntVar_spec. Qed.

Opaque NewIntVar NewBoolVar NewConstant.

Lemma add_all_variables cs m : variables (add_all cs m) = variables m.
Proof. revert m. induction cs as [|c cs IH]; intros m; simpl; [done|]. by rewrite IH. Qed.

Lemma add_all_constraints cs m :
  constraints (add_all cs m) = constraints m ++ cs.
Proof.
  revert m. induction cs as [|c cs IH]; intros m; simpl.
  - by rewrite app_nil_r.
  - rewrite IH. simpl. by rewrite <- app_assoc.
Qed.

Lemma new_used_vars_spec nds : ∀ d m d' m',
  new_used_vars nds d m = (d', m') →
  constraints m' = constraints m
  ∧ (∃ ext, variables m' = variables m ++ ext)
  ∧ (∀ n, is_Some (d' !! n) ↔ is_Some (d !! n) ∨ n ∈ map nd_name nds)
  ∧ (∀ n v, d' !! n = Some v → d !! n = Some v ∨ is_bool_var m' v).
Proof.
  induction nds as [|nd rest IH]; simpl; intros d m d' m' H.
  - inversion H; subst. split; [done|]. split; [exists []; by rewrite app_nil_r|].
    split; [|by left]. intros n. split; [by left|].
    intros [?|Hin]; [done|]. by apply elem_of_nil in Hin.
  - destruct (NewBoolVar _ m) as [v m1] eqn:Hv.
    pose proof (NewBoolVar_is_bool _ _ _ _ Hv) as Hbool.
    apply NewBoolVar_spec in Hv as (Hvl & Hvars & Hcs).
    apply IH in H as (Hc & [ext Hext] & Hdom & Hval).
    split; [congruence|].
    split; [exists ([mk_var 0 1 ("used_" +:+ nd_name nd)] ++ ext);
            by rewrite Hext, Hvars, <- app_assoc|].
    split.
    + intros n. rewrite Hdom, elem_of_cons.
      destruct (decide (nd_name nd = n)) as [<-|Hne].
      * rewrite lookup_insert_eq. split; intros _; [right; by left|left; eauto].
      * rewrite lookup_insert_ne by done. split; intros [?|?]; eauto.
        destruct H as [?|?]; [congruence|eauto].
    + intros n v0 Hn. apply Hval in Hn as [Hn|Hn]; [|by right].
      destruct (decide (nd_name nd = n)) as [<-|Hne].
      * rewrite lookup_insert_eq in Hn. inversion Hn; subst v0.
        right. by eapply is_bool_var_app.
      * rewrite lookup_insert_ne in Hn by done. by left.
Qed.

Lemma new_cut_vars_spec n cuts : ∀ i acc cc m acc' cc' m',
  new_cut_vars n i cuts acc cc m = Ok (acc', cc', m') →
  constraints m' = constraints m
  ∧ (∃ ext, variables m' = variables m ++ ext)
  ∧ ∃ new, acc' = acc ++ new
      ∧ Forall (fun ci =>
          is_bool_var m' (ci_var ci)
          ∧ ∃ j c, ci_cut_index ci = (i + j)%nat ∧ cuts !! j = Some c
              ∧ cut_leaves c = Some (ci_leaves ci)
              ∧ is_self_cut (ci_leaves ci) n = false
              ∧ ci_inv_cost ci = default 0 (cut_inv_cost c)
              ∧ ci_area_cost ci
                = default (Z.of_nat (length (ci_leaves ci))) (cut_area_cost c)
              ∧ ci_depth_cost ci = default 1 (cut_depth_cost c)) new
      ∧ map ci_cut_index new = non_self_positions n i cuts
      ∧ map ci_var new = seq (length (variables m)) (length new)
      ∧ map ci_lex_weight new = seq cc (length new)
      ∧ cc' = (cc + length new)%nat.
Proof.
  induction cuts as [|c rest IH]; simpl; intros i acc cc m acc' cc' m' H.
  - inversion H; subst. split; [done|]. split; [exists []; by rewrite app_nil_r|].
    exists []. rewrite app_nil_r. simpl. repeat split; try done; lia.
  - destruct (cut_leaves c) as [leaves|] eqn:Hl; [|done]. simpl.
    destruct (is_self_cut leaves n) eqn:Hself.
    + apply IH in H as (Hc & Hext & new & -> & Hall & Hpos & Hvars & Hlex).
      split; [done|]. split; [done|]. exists new. split; [done|].
      split; [|done].
      eapply Forall_impl; [exact Hall|]. simpl.
      intros ci (Hb & j & c' & Hi & Hj & Hrest). split; [done|].
      exists (S j), c'. split; [lia|]. done.
    + destruct (NewBoolVar _ m) as [v m1] eqn:Hv.
      pose proof (NewBoolVar_is_bool _ _ _ _ Hv) as Hbool.
      apply NewBoolVar_spec in Hv as (Hvl & Hvars & Hcs).
      apply IH in H
        as (Hc & [ext Hext] & new & -> & Hall & Hpos & Hvs & Hlex & Hcc).
      split; [congruence|].
      split; [eexists; by rewrite Hext, Hvars, <- app_assoc|].
      eexists (_ :: new). split; [by rewrite <- app_assoc|].
      split.
      { constructor.
        * simpl. split; [by eapply is_bool_var_app|].
          exists 0%nat, c. rewrite Nat.add_0_r. simpl. done.
        * eapply Forall_impl; [exact Hall|]. simpl.
          intros ci (Hb & j & c' & Hi & Hj & Hrest). split; [done|].
          exists (S j), c'. split; [lia|]. done. }
      simpl. rewrite Hpos, Hvs, Hlex, Hvars, length_app, Hvl. simpl.
      rewrite Nat.add_1_r. repeat split; try done; lia.
Qed.

Lemma var_cut_ok_app m m' ext M vc :
  variables m' = variables m ++ ext → var_cut_ok m M vc → var_cut_ok m' M vc.
Proof.
  intros Hext Hok n. specialize (Hok n).
  destruct (vc !! n) as [cis|]; [|done].
  destruct Hok as (nd & ? & ? & Hall & ? & ?).
  exists nd. split; [done|]. split; [done|]. split; [|done].
  eapply Forall_impl; [exact Hall|]. simpl. intros ci [Hb ?].
  split; [by eapply is_bool_var_app|done].
Qed.

Lemma new_all_cut_vars_spec nds : ∀ M vc cc m vc' cc' m',
  var_cut_ok m M vc →
  new_all_cut_vars nds vc cc m = Ok (vc', cc', m') →
  constraints m' = constraints m
  ∧ (∃ ext, variables m' = variables m ++ ext)
  ∧ var_cut_ok m' (fold_left (fun m nd => <[nd_name nd := nd]> m) nds M) vc'.
Proof.
  induction nds as [|nd rest IH]; simpl; intros M vc cc m vc' cc' m' Hok H.
  - inversion H; subst. split; [done|]. split; [exists []; by rewrite app_nil_r|done].
  - destruct (new_cut_vars _ _ _ _ _ _) as [[[cis cc1] m1]|] eqn:Hcuts; [|done].
    apply new_cut_vars_spec in Hcuts
      as (Hc1 & [ext1 Hext1] & new & Hnew & Hall & Hpos & Hvs & _).
    simpl in Hnew. subst new.
    apply (IH (<[nd_name nd := nd]> M)) in H as (Hc & [ext Hext] & Hok').
    + split; [congruence|].
      split; [eexists; by rewrite Hext, Hext1, <- app_assoc|done].
    + intros n. destruct (decide (nd_name nd = n)) as [<-|Hne].
      * rewrite !lookup_insert_eq. exists nd. split; [done|]. split; [done|].
        split; [|split; [done|rewrite Hvs; apply NoDup_seq]].
        eapply Forall_impl; [exact Hall|]. simpl.
        intros ci (Hb & j & c & Hi & Hj & Hrest). split; [done|].
        exists c. by rewrite Hi.
      * rewrite !lookup_insert_ne by done.
        by apply (var_cut_ok_app m m1 ext1 M vc Hext1 Hok n).
Qed.

Lemma new_level_vars_spec nds ub : ∀ d m d' m',
  new_level_vars nds ub d m = (d', m') →
  constraints m' = constraints m
  ∧ (∃ ext, variables m' = variables m ++ ext)
  ∧ (∀ n, is_Some (dict_get n d') ↔ is_Some (dict_get n d) ∨ n ∈ map nd_name nds).
Proof.
  induction nds as [|nd rest IH]; simpl; intros d m d' m' H.
  - inversion H; subst. split; [done|]. split; [exists []; by rewrite app_nil_r|].
    intros n. split; [by left|].
    intros [?|Hin]; [done|]. by apply elem_of_nil in Hin.
  - destruct (NewIntVar _ _ _ m) as [v m1] eqn:Hv.
    apply NewIntVar_spec in Hv as (Hvl & Hvars & Hcs).
    apply IH in H as (Hc & [ext Hext] & Hdom).
    split; [congruence|].
    split; [eexists; by rewrite Hext, Hvars, <- app_assoc|].
    intros n. rewrite Hdom, elem_of_cons, dict_get_set.
    case_decide as Hn.
    + subst n. split; intros _; [right; by left|left; eauto].
    + split; intros [?|?]; eauto. destruct H as [?|?]; [congruence|eauto].
Qed.

(** ** What [build_model] builds *)

Lemma build_model_spec data db fd b :
  build_model data db fd = Ok b →
  let nodes := cat_nodes data in
  let vu := b_var_node_used b in
  let vc := b_var_cut b in
  var_cut_ok (b_model b) (node_map_of nodes) vc
  ∧ (∀ n, n ∈ map nd_name nodes →
       ∃ v, vu !! n = Some v ∧ is_bool_var (b_model b) v)
  ∧ (∀ n, is_Some (vu !! n) → n ∈ map nd_name nodes)
  ∧ b_depth_bound b = db
  ∧ ∃ forced_1 depth_cs,
      constraints (b_model b)
      = constraints_A nodes vu vc ++ constraints_B nodes vu vc forced_1
        ++ depth_cs ++ constraints_roots nodes (cat_outputs data) vu
      ∧ match db with
        | None => depth_cs = [] ∧ b_D b = None ∧ b_level_vars b = []
        | Some ub =>
            ∃ D, b_D b = Some D
              ∧ (∀ n, n ∈ map nd_name nodes →
                   is_Some (dict_get n (b_level_vars b)))
              ∧ depth_cs
                = constraints_inputs (cat_inputs data) (b_level_vars b)
                  ++ constraints_levels nodes (cat_inputs data) vu vc
                       (b_level_vars b)
                       (Z.max 1 (if ub =? 0 then len_or_1 nodes else ub))
                  ++ constraints_D (b_level_vars b) D fd
        end.
Proof.
  unfold build_model. intros H.
  destruct (new_used_vars (cat_nodes data) ∅ empty_model) as [vu m1] eqn:Hu.
  destruct (new_all_cut_vars (cat_nodes data) ∅ 0 m1)
    as [[[vc cc] m2]|] eqn:Hc; [|done].
  apply new_used_vars_spec in Hu as (Hu_c & [ext1 Hu_v] & Hu_dom & Hu_bool).
  eapply (new_all_cut_vars_spec _ ∅) in Hc as (Hc_c & [ext2 Hc_v] & Hok);
    [|intros n; by rewrite !lookup_empty].
  destruct (NewConstant 1 _) as [forced_1 m3] eqn:Hf.
  apply NewConstant_spec in Hf as (_ & Hf_v & Hf_c).
  rewrite add_all_variables in Hf_v. rewrite add_all_constraints in Hf_c.
  assert (Hused : ∀ n, n ∈ map nd_name (cat_nodes data) →
            ∃ v, vu !! n = Some v ∧ is_bool_var m1 v).
  { intros n Hn. destruct (proj2 (Hu_dom n)) as [v Hv]; [by right|].
    exists v. split; [done|].
    destruct (Hu_bool n v Hv) as [Hv'|?]; [|done].
    by rewrite lookup_empty in Hv'. }
  assert (Hnames : ∀ n, is_Some (vu !! n) → n ∈ map nd_name (cat_nodes data)).
  { intros n Hn. apply Hu_dom in Hn as [[? Hn]|?]; [|done].
    by rewrite lookup_empty in Hn. }
  destruct db as [ub|].
  - destruct (new_level_vars _ _ [] _) as [lv m4] eqn:Hl.
    apply new_level_vars_spec in Hl as (Hl_c & [ext4 Hl_v] & Hl_dom).
    rewrite add_all_variables in Hl_v. rewrite add_all_constraints in Hl_c.
    destruct (NewIntVar 0 _ "D" m4) as [D m5] eqn:HD.
    apply NewIntVar_spec in HD as (_ & HD_v & HD_c).
    inversion H; subst b; clear H. simpl.
    split.
    { eapply var_cut_ok_app; [|exact Hok].
      rewrite !add_all_variables, HD_v, Hl_v, Hf_v, <- !app_assoc. done. }
    split.
    { intros n Hn. destruct (Hused n Hn) as (v & Hv & Hb). exists v.
      split; [done|]. eapply is_bool_var_app; [|exact Hb].
      rewrite !add_all_variables, HD_v, Hl_v, Hf_v, Hc_v, <- !app_assoc. done. }
    split; [done|]. split; [done|].
    exists forced_1,
      (constraints_inputs (cat_inputs data) lv
       ++ constraints_levels (cat_nodes data) (cat_inputs data) vu vc lv
            (Z.max 1 (if ub =? 0 then len_or_1 (cat_nodes data) else ub))
       ++ constraints_D lv D fd).
    split.
    { rewrite !add_all_constraints, HD_c, Hl_c, Hf_c, Hc_c, Hu_c. simpl.
      rewrite <- !app_assoc. reflexivity. }
    exists D. split; [done|]. split; [|done].
    intros n Hn. apply Hl_dom. by right.
  - inversion H; subst b; clear H. simpl.
    split.
    { eapply var_cut_ok_app; [|exact Hok].
      rewrite !add_all_variables, Hf_v. done. }
    split.
    { intros n Hn. destruct (Hused n Hn) as (v & Hv & Hb). exists v.
      split; [done|]. eapply is_bool_var_app; [|exact Hb].
      rewrite !add_all_variables, Hf_v, Hc_v, <- !app_assoc. done. }
    split; [done|]. split; [done|].
    exists forced_1, []. split; [|done].
    rewrite !add_all_constraints, Hf_c, Hc_c, Hu_c. simpl.
    rewrite <- !app_assoc. reflexivity.
Qed.

(** ** Solutions of a model *)

Lemma combine_seq_lookup {A} (l : list A) (s v : nat) (d : A) :
  l !! v = Some d → In ((s + v)%nat, d) (combine (seq s (length l)) l).
Proof.
  revert s v. induction l as [|x l IH]; intros s v H; [done|].
  destruct v as [|v]; simpl in *.
  - inversion H; subst. left. f_equal. lia.
  - right. replace (s + S v)%nat with (S s + v)%nat by lia. by apply IH.
Qed.

Lemma domains_ok_lookup val m v d :
  domains_ok val m = true → variables m !! v = Some d →
  var_lb d ≤ val v ≤ var_ub d.
Proof.
  unfold domains_ok. rewrite forallb_forall. intros Hall Hv.
  specialize (Hall (v, d) (combine_seq_lookup _ 0 v d Hv)).
  unfold in_domain in Hall. simpl in Hall.
  apply andb_true_iff in Hall as [H1 H2]. lia.
Qed.

Lemma bool_var_value val m v :
  domains_ok val m = true → is_bool_var m v → val v = 0 ∨ val v = 1.
Proof.
  intros Hd [name Hv]. pose proof (domains_ok_lookup _ _ _ _ Hd Hv) as H.
  simpl in H. lia.
Qed.

Lemma feasible_spec val m :
  feasible val m = true →
  domains_ok val m = true ∧ ∀ c, c ∈ constraints m → holds val c = true.
Proof.
  unfold feasible. intros H. apply andb_true_iff in H as [Hd Hc].
  split; [done|]. intros c Hin. rewrite forallb_forall in Hc.
  apply Hc. by apply list_elem_of_In.
Qed.

Lemma eval_fold_LAdd val (es : list linexpr) (a : linexpr) :
  eval val (fold_left LAdd es a)
  = eval val a + foldr (fun e acc => eval val e + acc) 0 es.
Proof.
  revert a. induction es as [|e es IH]; intros a; simpl; [lia|].
  rewrite IH. simpl. lia.
Qed.

Lemma eval_py_sum_vars val (cis : list cut_info) :
  eval val (py_sum (map (fun ci => LVar (ci_var ci)) cis)) = sum_vals val cis.
Proof.
  unfold py_sum. rewrite eval_fold_LAdd.
  change (eval val (LConst 0)) with 0. rewrite Z.add_0_l.
  induction cis as [|ci cis IH]; simpl; [done|]. by rewrite IH.
Qed.

Lemma sum_vals_count val (cis : list cut_info) :
  Forall (fun ci => val (ci_var ci) = 0 ∨ val (ci_var ci) = 1) cis →
  sum_vals val cis = Z.of_nat (count_chosen val cis).
Proof.
  unfold count_chosen. induction 1 as [|ci cis Hci Hall IH]; simpl; [done|].
  rewrite filter_cons. case_decide as Hd; simpl; rewrite IH; lia.
Qed.

Lemma count_chosen_pos val (cis : list cut_info) :
  (0 < count_chosen val cis)%nat ↔ ∃ ci, ci ∈ cis ∧ val (ci_var ci) = 1.
Proof.
  unfold count_chosen. split.
  - intros H. destruct (filter _ cis) as [|ci l] eqn:E; [simpl in H; lia|].
    assert (ci ∈ filter (fun ci => val (ci_var ci) = 1) cis) as Hin
      by (rewrite E; left).
    apply list_elem_of_filter in Hin as [? ?]. eauto.
  - intros (ci & Hin & Hv).
    assert (ci ∈ filter (fun ci => val (ci_var ci) = 1) cis) as Hin'
      by (by apply list_elem_of_filter).
    destruct (filter _ cis); [by apply elem_of_nil in Hin'|simpl; lia].
Qed.

(** ** Extraction *)

Lemma first_chosen_Some val cis i :
  first_chosen val cis = Some i →
  ∃ ci, ci ∈ cis ∧ val (ci_var ci) = 1 ∧ ci_cut_index ci = i.
Proof.
  induction cis as [|ci cis IH]; simpl; [done|].
  destruct (Z.eqb_spec (val (ci_var ci)) 1) as [Hv|Hv].
  - intros H. inversion H. exists ci. split; [left|done].
  - intros H. destruct (IH H) as (ci' & ? & ? & ?). exists ci'.
    split; [by right|done].
Qed.

Lemma first_chosen_is_Some val cis ci :
  ci ∈ cis → val (ci_var ci) = 1 → is_Some (first_chosen val cis).
Proof.
  induction cis as [|c cis IH]; simpl; intros Hin Hv.
  - by apply elem_of_nil in Hin.
  - destruct (Z.eqb_spec (val (ci_var c)) 1); [eauto|].
    apply elem_of_cons in Hin as [->|Hin]; [done|]. by apply IH.
Qed.

Lemma extract_step_selected vu vc val chosen nd :
  extract_step vu vc val chosen nd
  = match selected vu vc val (nd_name nd) with
    | Some i => dict_set (nd_name nd) i chosen
    | None => chosen
    end.
Proof.
  unfold extract_step, selected.
  by destruct (val (used_of vu (nd_name nd)) =? 1).
Qed.

Lemma extract_fold_lookup vu vc val nds : ∀ chosen n,
  dict_get n (fold_left (extract_step vu vc val) nds chosen)
  = if decide (n ∈ map nd_name nds)
    then match selected vu vc val n with
         | Some i => Some i
         | None => dict_get n chosen
         end
    else dict_get n chosen.
Proof.
  induction nds as [|nd nds IH]; intros chosen n; cbn [fold_left map].
  - case_decide as H; [by apply elem_of_nil in H|done].
  - rewrite IH, extract_step_selected.
    destruct (decide (nd_name nd = n)) as [<-|Hne].
    + destruct (decide (nd_name nd ∈ nd_name nd :: map nd_name nds))
        as [_|Hc]; [|exfalso; apply Hc; left].
      destruct (selected vu vc val (nd_name nd)) as [i|] eqn:Hs.
      * rewrite dict_get_set_eq. by case_decide.
      * by case_decide.
    + assert (Hget : dict_get n
                (match selected vu vc val (nd_name nd) with
                 | Some i => dict_set (nd_name nd) i chosen
                 | None => chosen
                 end) = dict_get n chosen).
      { destruct (selected _ _ _ (nd_name nd)); [|done].
        by apply dict_get_set_ne. }
      rewrite Hget.
      destruct (decide (n ∈ map nd_name nds)) as [Hin|Hnin];
        destruct (decide (n ∈ nd_name nd :: map nd_name nds)) as [Hin'|Hnin'];
        try done.
      * exfalso. apply Hnin'. by right.
      * apply elem_of_cons in Hin' as [?|?]; congruence.
Qed.

(** [chosen_cuts] maps exactly the node names with a selected cut, each to
    its selected index. *)
Lemma extract_chosen_cuts_lookup nds vu vc val n :
  dict_get n (_extract_chosen_cuts nds vu vc val)
  = if decide (n ∈ map nd_name nds) then selected vu vc val n else None.
Proof.
  unfold _extract_chosen_cuts. rewrite extract_fold_lookup.
  case_decide; [|done]. by destruct (selected vu vc val n).
Qed.

Lemma cuts_of_entries m M vc n ci :
  var_cut_ok m M vc → ci ∈ cuts_of vc n →
  ∃ nd, M !! n = Some nd ∧ nd_name nd = n
        ∧ is_bool_var m (ci_var ci) ∧ ci_of_cut n (nd_cuts nd) ci.
Proof.
  intros Hok Hin. specialize (Hok n). unfold cuts_of in Hin.
  destruct (vc !! n) as [cis|]; simpl in Hin; [|by apply elem_of_nil in Hin].
  destruct Hok as (nd & HM & Hname & Hall & _). exists nd.
  split; [done|]. split; [done|].
  rewrite Forall_forall in Hall. by apply Hall.
Qed.

Lemma cuts_of_positions m M vc n nd :
  var_cut_ok m M vc → M !! n = Some nd →
  map ci_cut_index (cuts_of vc n) = non_self_positions n 0 (nd_cuts nd)
  ∧ NoDup (map ci_var (cuts_of vc n)).
Proof.
  intros Hok HM. specialize (Hok n). unfold cuts_of.
  destruct (vc !! n) as [cis|]; [|congruence].
  destruct Hok as (nd' & HM' & _ & _ & Hpos & Hnd). simpl.
  rewrite HM in HM'. inversion HM'; subst nd'. done.
Qed.

(** ** Chosen cuts carry catalog positions *)

Lemma chosen_cuts_entry nodes vu vc val m n i :
  var_cut_ok m (node_map_of nodes) vc →
  dict_get n (_extract_chosen_cuts nodes vu vc val) = Some i →
  ∃ nd c ci,
    node_map_of nodes !! n = Some nd ∧ nd ∈ nodes ∧ nd_name nd = n
    ∧ val (used_of vu n) = 1
    ∧ ci ∈ cuts_of vc n ∧ val (ci_var ci) = 1
    ∧ ci_cut_index ci = i
    ∧ nd_cuts nd !! i = Some c ∧ cut_leaves c = Some (ci_leaves ci)
    ∧ is_self_cut (ci_leaves ci) n = false.
Proof.
  intros Hok Hget.
  rewrite extract_chosen_cuts_lookup in Hget.
  case_decide as Hn; [|done]. unfold selected in Hget.
  destruct (Z.eqb_spec (val (used_of vu n)) 1) as [Hu|]; [|done].
  apply first_chosen_Some in Hget as (ci & Hin & Hv & Hi).
  destruct (cuts_of_entries _ _ _ _ _ Hok Hin)
    as (nd & HM & Hname & _ & c & Hc & Hl & Hself & _).
  exists nd, c, ci. rewrite <- Hi.
  destruct (node_map_of_lookup _ _ _ HM). done.
Qed.

(** C1.  Every entry (n -> i) of chosen_cuts names a used node n, and i is
    the position, in the cuts array of the node the catalog holds under
    that name, of a cut whose variable is 1: the position counts self-cuts
    too, so skipping them shifts nothing.  The cut at that position is not
    a self-cut; a self-cut has no entry in var_cut, hence no variable, and
    its position is never emitted: the entries of var_cut[n] are, in order,
    the positions of the cuts of n that are not self-cuts, each with a
    variable of its own.  (If a name occurs twice, the node is the last one
    of that name, as in every dict of the builder.) *)
Theorem C1_chosen_cuts_original_index (data : catalog) (db fd : option Z)
    (b : built) (val : var → Z) :
  build_model data db fd = Ok b →
  let nodes := cat_nodes data in
  let chosen :=
    _extract_chosen_cuts nodes (b_var_node_used b) (b_var_cut b) val in
  (∀ n i, dict_get n chosen = Some i →
     ∃ nd c ci,
       node_map_of nodes !! n = Some nd ∧ nd ∈ nodes ∧ nd_name nd = n
       ∧ val (used_of (b_var_node_used b) n) = 1
       ∧ ci ∈ cuts_of (b_var_cut b) n ∧ val (ci_var ci) = 1
       ∧ ci_cut_index ci = i
       ∧ nd_cuts nd !! i = Some c ∧ cut_leaves c = Some (ci_leaves ci)
       ∧ is_self_cut (ci_leaves ci) n = false)
  ∧ (∀ n nd j c leaves,
       node_map_of nodes !! n = Some nd → nd_cuts nd !! j = Some c →
       cut_leaves c = Some leaves → is_self_cut leaves n = true →
       (∀ ci, ci ∈ cuts_of (b_var_cut b) n → ci_cut_index ci ≠ j)
       ∧ dict_get n chosen ≠ Some j)
  ∧ (∀ n nd,
       node_map_of nodes !! n = Some nd →
       map ci_cut_index (cuts_of (b_var_cut b) n)
       = non_self_positions n 0 (nd_cuts nd)
       ∧ NoDup (map ci_var (cuts_of (b_var_cut b) n))).
Proof.
  intros Hb nodes chosen.
  destruct (build_model_spec _ _ _ _ Hb) as (Hok & _).
  fold nodes in Hok.
  assert (Hsel : ∀ n i, dict_get n chosen = Some i →
     ∃ nd c ci,
       node_map_of nodes !! n = Some nd ∧ nd ∈ nodes ∧ nd_name nd = n
       ∧ val (used_of (b_var_node_used b) n) = 1
       ∧ ci ∈ cuts_of (b_var_cut b) n ∧ val (ci_var ci) = 1
       ∧ ci_cut_index ci = i
       ∧ nd_cuts nd !! i = Some c ∧ cut_leaves c = Some (ci_leaves ci)
       ∧ is_self_cut (ci_leaves ci) n = false).
  { intros n i Hget. by eapply chosen_cuts_entry. }
  split; [exact Hsel|].
  split; [|intros n nd HM; by eapply cuts_of_positions].
  intros n nd j c leaves HM Hc Hl Hself.
  assert (Hno : ∀ ci, ci ∈ cuts_of (b_var_cut b) n → ci_cut_index ci ≠ j).
  { intros ci Hin Hj.
    destruct (cuts_of_entries _ _ _ _ _ Hok Hin)
      as (nd' & HM' & _ & _ & c' & Hc' & Hl' & Hself' & _).
    rewrite HM in HM'. inversion HM'; subst nd'.
    rewrite Hj, Hc in Hc'. inversion Hc'; subst c'.
    rewrite Hl in Hl'. inversion Hl'; subst leaves. congruence. }
  split; [exact Hno|].
  intros Hget. destruct (Hsel n j Hget) as (_ & _ & ci & _ & _ & _ & _ & Hin & _ & Hi & _).
  by apply (Hno ci Hin).
Qed.

Lemma C1_chosen_cuts_original_index_witness :
  let b := built_of (build_model catalog_self_cut None None) in
  let chosen :=
    _extract_chosen_cuts (cat_nodes catalog_self_cut) (b_var_node_used b)
      (b_var_cut b) all_ones in
  chosen = [("a", 1%nat)]
  ∧ (∀ n i, dict_get n chosen = Some i →
     ∃ nd c ci,
       node_map_of (cat_nodes catalog_self_cut) !! n = Some nd
       ∧ nd ∈ cat_nodes catalog_self_cut ∧ nd_name nd = n
       ∧ all_ones (used_of (b_var_node_used b) n) = 1
       ∧ ci ∈ cuts_of (b_var_cut b) n ∧ all_ones (ci_var ci) = 1
       ∧ ci_cut_index ci = i
       ∧ nd_cuts nd !! i = Some c ∧ cut_leaves c = Some (ci_leaves ci)
       ∧ is_self_cut (ci_leaves ci) n = false).
Proof.
  intros b chosen. split; [vm_compute; reflexivity|].
  apply (C1_chosen_cuts_original_index catalog_self_cut None None b all_ones).
  vm_compute. reflexivity.
Defined.

(** ** Used nodes, chosen cuts and their leaves *)

(** C2.  Under any valuation that respects the variable domains and the
    constraints (A) and (B) of the built model: a node is used iff exactly
    one of its cut variables (one per non-self cut, pairwise distinct) is
    1, a node all of whose cuts are self-cuts is not used, and for every
    node in
    chosen_cuts each leaf of its selected cut that names a catalog node is
    in chosen_cuts too. *)
Theorem C2_used_iff_one_cut_leaves_closed (data : catalog)
    (db fd : option Z) (b : built) (val : var → Z) (forced_1 : var) :
  build_model data db fd = Ok b →
  let nodes := cat_nodes data in
  let vu := b_var_node_used b in
  let vc := b_var_cut b in
  let chosen := _extract_chosen_cuts nodes vu vc val in
  domains_ok val (b_model b) = true →
  (∀ c, c ∈ constraints_A nodes vu vc → holds val c = true) →
  (∀ c, c ∈ constraints_B nodes vu vc forced_1 → holds val c = true) →
  (∀ nd, nd ∈ nodes →
     let n := nd_name nd in
     (val (used_of vu n) = 1 ↔ count_chosen val (cuts_of vc n) = 1%nat)
     ∧ (val (used_of vu n) = 0 ↔ count_chosen val (cuts_of vc n) = 0%nat)
     ∧ (val (used_of vu n) = 0 ∨ val (used_of vu n) = 1)
     ∧ NoDup (map ci_var (cuts_of vc n))
     ∧ ∀ nd', node_map_of nodes !! n = Some nd' →
         (∀ c, c ∈ nd_cuts nd' →
               is_self_cut (default [] (cut_leaves c)) n = true) →
         val (used_of vu n) = 0)
  ∧ (∀ n i nd c leaf,
       dict_get n chosen = Some i →
       node_map_of nodes !! n = Some nd → nd_cuts nd !! i = Some c →
       leaf ∈ default [] (cut_leaves c) → leaf ∈ map nd_name nodes →
       is_Some (dict_get leaf chosen)).
Proof.
  intros Hb nodes vu vc chosen Hdom HA HB.
  destruct (build_model_spec _ _ _ _ Hb) as (Hok & Hused & _).
  fold nodes vu vc in Hok, Hused.
  assert (Hbools : ∀ n,
            Forall (fun ci => val (ci_var ci) = 0 ∨ val (ci_var ci) = 1)
                   (cuts_of vc n)).
  { intros n. apply Forall_forall. intros ci Hin.
    destruct (cuts_of_entries _ _ _ _ _ Hok Hin) as (_ & _ & _ & Hbv & _).
    by apply (bool_var_value val (b_model b)). }
  assert (Hsum : ∀ nd, nd ∈ nodes →
            val (used_of vu (nd_name nd))
            = Z.of_nat (count_chosen val (cuts_of vc (nd_name nd)))).
  { intros nd Hnd.
    assert (constraint_A vu vc nd ∈ constraints_A nodes vu vc) as Hin.
    { unfold constraints_A. apply list_elem_of_fmap. eauto. }
    apply HA in Hin. unfold constraint_A in Hin.
    destruct (cuts_of vc (nd_name nd)) as [|ci0 cis] eqn:Hcuts.
    - simpl in Hin. apply Z.eqb_eq in Hin. rewrite Hin. done.
    - unfold holds in Hin. apply Z.eqb_eq in Hin.
      rewrite eval_py_sum_vars in Hin. cbn [eval] in Hin.
      rewrite <- Hin. apply sum_vals_count. rewrite <- Hcuts. apply Hbools. }
  split.
  - intros nd Hnd n. subst n. pose proof (Hsum nd Hnd) as Hs.
    assert (Hu01 : val (used_of vu (nd_name nd)) = 0
                   ∨ val (used_of vu (nd_name nd)) = 1).
    { destruct (Hused (nd_name nd)) as (v & Hv & Hbv).
      { apply list_elem_of_fmap. eauto. }
      unfold used_of. rewrite Hv. simpl.
      by apply (bool_var_value val (b_model b)). }
    split; [lia|]. split; [lia|]. split; [done|].
    split.
    { destruct (proj2 (node_map_of_dom nodes (nd_name nd))) as [nd0 Hnd0].
      { apply list_elem_of_fmap. eauto. }
      by destruct (cuts_of_positions _ _ _ _ _ Hok Hnd0). }
    intros nd' HM Hself.
    destruct (cuts_of vc (nd_name nd)) as [|ci cis] eqn:Hcuts.
    { rewrite Hs. done. }
    assert (ci ∈ cuts_of vc (nd_name nd)) as Hin by (rewrite Hcuts; left).
    destruct (cuts_of_entries _ _ _ _ _ Hok Hin)
      as (nd2 & HM2 & _ & _ & c & Hc & Hl & Hns & _).
    rewrite HM in HM2. inversion HM2; subst nd2.
    specialize (Hself c). rewrite Hl in Hself. simpl in Hself.
    rewrite Hself in Hns; [done|]. by eapply list_elem_of_lookup_2.
  - intros n i nd c leaf Hget HM Hc Hleaf Hname.
    destruct (chosen_cuts_entry nodes vu vc val (b_model b) n i Hok Hget)
      as (nd' & c' & ci & HM' & _ & _ & _ & Hin & Hv & _ & Hc' & Hl' & _).
    rewrite HM in HM'. inversion HM'; subst nd'.
    rewrite Hc in Hc'. inversion Hc'; subst c'.
    rewrite Hl' in Hleaf. simpl in Hleaf.
    (* (B): the leaf is used *)
    destruct (node_map_of_lookup _ _ _ HM) as [Hnd Hn].
    assert (constraint_B nodes vu forced_1 ci leaf
            ∈ constraints_B nodes vu vc forced_1) as HinB.
    { unfold constraints_B. apply list_elem_of_In, in_flat_map.
      exists nd. split; [by apply list_elem_of_In|].
      apply in_flat_map. exists ci. rewrite Hn.
      split; [by apply list_elem_of_In|].
      apply in_map. by apply list_elem_of_In. }
    apply HB in HinB. unfold constraint_B in HinB.
    rewrite decide_True in HinB
      by (unfold node_names; by apply elem_of_list_to_set).
    simpl in HinB. rewrite Hv in HinB. simpl in HinB.
    apply Z.eqb_eq in HinB.
    (* (A): the leaf has a cut variable at 1 *)
    apply list_elem_of_fmap in Hname as (ndl & Hnl & Hndl).
    pose proof (Hsum ndl Hndl) as Hs. rewrite <- Hnl, HinB in Hs.
    assert (0 < count_chosen val (cuts_of vc leaf))%nat as Hpos by lia.
    apply count_chosen_pos in Hpos as (cil & Hcil & Hvl).
    destruct (first_chosen_is_Some val _ cil Hcil Hvl) as [k Hk].
    exists k. subst chosen. rewrite extract_chosen_cuts_lookup.
    rewrite decide_True by (apply list_elem_of_fmap; eauto).
    unfold selected. rewrite HinB. simpl. done.
Qed.

Lemma forallb_holds val (cs : list constraint) :
  forallb (holds val) cs = true → ∀ c, c ∈ cs → holds val c = true.
Proof.
  rewrite forallb_forall. intros H c Hc. apply H. by apply list_elem_of_In.
Qed.

Lemma C2_used_iff_one_cut_leaves_closed_witness :
  let b := built_of (build_model catalog_chain None None) in
  is_Some (dict_get "a"
             (_extract_chosen_cuts (cat_nodes catalog_chain)
                (b_var_node_used b) (b_var_cut b) all_ones)).
Proof.
  intros b.
  refine (proj2 (C2_used_iff_one_cut_leaves_closed catalog_chain None None b
                   all_ones 4%nat _ _ _ _)
            "b" 0%nat (mk_node "b" [lifted ["a"]]) (lifted ["a"]) "a"
            _ _ _ _ _).
  - vm_compute. reflexivity.
  - vm_compute. reflexivity.
  - apply forallb_holds. vm_compute. reflexivity.
  - apply forallb_holds. vm_compute. reflexivity.
  - vm_compute. reflexivity.
  - vm_compute. reflexivity.
  - reflexivity.
  - simpl. left.
  - simpl. left.
Defined.

(** ** Roots *)

Lemma build_model_roots_hold data db fd b val :
  build_model data db fd = Ok b → feasible val (b_model b) = true →
  ∀ c, c ∈ constraints_roots (cat_nodes data) (cat_outputs data)
             (b_var_node_used b) →
       holds val c = true.
Proof.
  intros Hb Hf c Hc.
  destruct (build_model_spec _ _ _ _ Hb)
    as (_ & _ & _ & _ & f1 & dcs & Hcs & _).
  apply feasible_spec in Hf as [_ Hall]. apply Hall. rewrite Hcs.
  rewrite !elem_of_app. auto.
Qed.

(** C9.  Root resolution as posted by the builder: every declared output
    that names a catalog node is forced to be used; with no declared
    outputs, Nout is forced if it is a node, otherwise the last node of the
    catalog; and no other root constraint is posted. *)
Theorem C9_root_enforcement (data : catalog) (db fd : option Z) (b : built)
    (val : var → Z) :
  build_model data db fd = Ok b →
  feasible val (b_model b) = true →
  let nodes := cat_nodes data in
  let vu := b_var_node_used b in
  (∀ out, out ∈ cat_outputs data → out ∈ map nd_name nodes →
          val (used_of vu out) = 1)
  ∧ (cat_outputs data = [] → "Nout" ∈ map nd_name nodes →
     val (used_of vu "Nout") = 1)
  ∧ (cat_outputs data = [] → "Nout" ∉ map nd_name nodes →
     ∀ nd, last nodes = Some nd → val (used_of vu (nd_name nd)) = 1)
  ∧ (∀ c, c ∈ constraints_roots nodes (cat_outputs data) vu →
       ∃ x, c = CEq (LVar (used_of vu x)) (LConst 1)
            ∧ x ∈ map nd_name nodes
            ∧ (x ∈ cat_outputs data
               ∨ (cat_outputs data = []
                  ∧ (x = "Nout"
                     ∨ (("Nout" ∉ map nd_name nodes)
                        ∧ (∃ nd, last nodes = Some nd ∧ nd_name nd = x)))))).
Proof.
  intros Hb Hf nodes vu.
  pose proof (build_model_roots_hold _ _ _ _ _ Hb Hf) as Hroots.
  destruct (build_model_spec _ _ _ _ Hb) as (_ & Hused & Hnames & _).
  fold nodes vu in Hroots, Hused, Hnames.
  split; [|split; [|split]].
  - intros out Hout Hname. destruct (Hused out Hname) as (v & Hv & _).
    assert (CEq (LVar v) (LConst 1)
            ∈ constraints_roots nodes (cat_outputs data) vu) as Hin.
    { unfold constraints_roots.
      destruct (cat_outputs data) as [|o outs] eqn:Houts;
        [by apply elem_of_nil in Hout|].
      apply list_elem_of_In, in_flat_map. exists out.
      split; [by apply list_elem_of_In|]. rewrite Hv. by left. }
    apply Hroots in Hin. simpl in Hin. apply Z.eqb_eq in Hin.
    unfold used_of. by rewrite Hv.
  - intros Houts Hname. destruct (Hused "Nout" Hname) as (v & Hv & _).
    assert (CEq (LVar v) (LConst 1)
            ∈ constraints_roots nodes (cat_outputs data) vu) as Hin.
    { unfold constraints_roots. rewrite Houts, Hv. left. }
    apply Hroots in Hin. simpl in Hin. apply Z.eqb_eq in Hin.
    unfold used_of. by rewrite Hv.
  - intros Houts Hname nd Hlast.
    assert (vu !! "Nout" = None) as Hnone.
    { destruct (vu !! "Nout") eqn:E; [|done].
      exfalso. apply Hname, Hnames. eauto. }
    assert (CEq (LVar (used_of vu (nd_name nd))) (LConst 1)
            ∈ constraints_roots nodes (cat_outputs data) vu) as Hin.
    { unfold constraints_roots. rewrite Houts, Hnone, Hlast. left. }
    apply Hroots in Hin. simpl in Hin. by apply Z.eqb_eq in Hin.
  - intros c Hc. unfold constraints_roots in Hc.
    destruct (cat_outputs data) as [|o outs] eqn:Houts.
    + destruct (vu !! "Nout") as [u|] eqn:HN.
      * apply list_elem_of_In in Hc. destruct Hc as [<-|[]].
        exists "Nout". unfold used_of. rewrite HN. simpl.
        split; [done|]. split; [apply Hnames; eauto|]. right. eauto.
      * destruct (last nodes) as [nd|] eqn:Hlast;
          [|by apply elem_of_nil in Hc].
        apply list_elem_of_In in Hc. destruct Hc as [<-|[]].
        exists (nd_name nd). split; [done|].
        split; [apply list_elem_of_fmap; exists nd; split; [done|];
                by eapply last_Some_elem_of|].
        right. split; [done|]. right. split; [|eauto].
        intros Hin. destruct (Hused _ Hin) as (v & Hv & _). congruence.
    + apply list_elem_of_In, in_flat_map in Hc as (out & Hout & Hc).
      destruct (vu !! out) as [u|] eqn:Hu; [|done].
      destruct Hc as [<-|[]]. exists out. unfold used_of. rewrite Hu. simpl.
      split; [done|]. split; [apply Hnames; eauto|].
      left. by apply list_elem_of_In.
Qed.

Lemma C9_root_enforcement_witness :
  let b := built_of (build_model catalog_no_outputs None None) in
  all_ones (used_of (b_var_node_used b) "b") = 1.
Proof.
  intros b.
  refine (proj1 (proj2 (proj2
            (C9_root_enforcement catalog_no_outputs None None b all_ones _ _)))
            _ _ (mk_node "b" [lifted ["a"]]) _).
  - vm_compute. reflexivity.
  - vm_compute. reflexivity.
  - reflexivity.
  - simpl. intros H. apply list_elem_of_In in H. simpl in H.
    destruct H as [H|[H|[]]]; discriminate H.
  - reflexivity.
Defined.

(** ** Level constraints on a cut that names its own node *)

Lemma level_constraint_posted data ub fd b nd ci leaf :
  build_model data (Some ub) fd = Ok b →
  nd ∈ cat_nodes data → ci ∈ cuts_of (b_var_cut b) (nd_name nd) →
  leaf ∈ ci_leaves ci → leaf ∈ map nd_name (cat_nodes data) →
  ∃ node_level leaf_level,
    dict_get (nd_name nd) (b_level_vars b) = Some node_level
    ∧ dict_get leaf (b_level_vars b) = Some leaf_level
    ∧ CGe (LVar node_level)
          (LSub (LAdd (LVar leaf_level) (LConst (or_1 (ci_depth_cost ci))))
                (LMul (Z.max 1 (if ub =? 0 then len_or_1 (cat_nodes data)
                                else ub))
                      (LSub (LConst 1) (LVar (ci_var ci)))))
      ∈ constraints (b_model b).
Proof.
  intros Hb Hnd Hci Hleaf Hname.
  destruct (build_model_spec _ _ _ _ Hb)
    as (_ & _ & _ & _ & f1 & dcs & Hcs & D & _ & Hlv & Hdcs).
  destruct (Hlv (nd_name nd)) as [l Hl].
  { apply list_elem_of_fmap. eauto. }
  destruct (Hlv leaf Hname) as [ll Hll].
  exists l, ll. split; [done|]. split; [done|].
  rewrite Hcs, Hdcs. rewrite !elem_of_app. right. right. left. right. left.
  unfold constraints_levels. apply list_elem_of_In, in_flat_map.
  exists nd. split; [by apply list_elem_of_In|].
  unfold constraints_node_level. rewrite Hl.
  apply in_or_app. right. apply in_or_app. right.
  apply in_flat_map. exists ci. split; [by apply list_elem_of_In|].
  apply in_flat_map. exists leaf. split; [by apply list_elem_of_In|].
  unfold constraint_level. rewrite Hll. by left.
Qed.

(** C10.  In a depth-enabled model a non-self cut of node n with n among
    its leaves gets the constraint
    level[n] >= level[n] + depth_cost - M * (1 - chosen), M the depth
    bound, so with a positive depth_cost (as the data model has it) no
    solution chooses it; a model built without depth variables has no
    level variables, and in the one of the example catalog (node n with
    cuts [n, x] and [x]) a solution chooses the cut [n, x]. *)
Theorem C10_self_leaf_cut_blocked_by_levels :
  (∀ (data : catalog) (ub : Z) (fd : option Z) (b : built) (val : var → Z)
     (nd : node) (ci : cut_info),
     build_model data (Some ub) fd = Ok b →
     feasible val (b_model b) = true →
     nd ∈ cat_nodes data →
     ci ∈ cuts_of (b_var_cut b) (nd_name nd) →
     nd_name nd ∈ ci_leaves ci →
     0 < ci_depth_cost ci →
     is_self_cut (ci_leaves ci) (nd_name nd) = false
     ∧ (∃ level_n,
          let M := Z.max 1 (if ub =? 0 then len_or_1 (cat_nodes data)
                            else ub) in
          dict_get (nd_name nd) (b_level_vars b) = Some level_n
          ∧ CGe (LVar level_n)
                (LSub (LAdd (LVar level_n) (LConst (ci_depth_cost ci)))
                      (LMul M (LSub (LConst 1) (LVar (ci_var ci)))))
            ∈ constraints (b_model b))
     ∧ val (ci_var ci) = 0)
  ∧ (∀ (data : catalog) (fd : option Z) (b : built),
       build_model data None fd = Ok b →
       b_level_vars b = [] ∧ b_D b = None
       ∧ ∃ forced_1,
           constraints (b_model b)
           = constraints_A (cat_nodes data) (b_var_node_used b) (b_var_cut b)
             ++ constraints_B (cat_nodes data) (b_var_node_used b)
                  (b_var_cut b) forced_1
             ++ constraints_roots (cat_nodes data) (cat_outputs data)
                  (b_var_node_used b))
  ∧ (∃ (b : built) (val : var → Z) (ci : cut_info),
       build_model catalog_self_leaf None None = Ok b
       ∧ feasible val (b_model b) = true
       ∧ ci ∈ cuts_of (b_var_cut b) "n"
       ∧ ci_leaves ci = ["n"; "x"]
       ∧ val (ci_var ci) = 1).
Proof.
  split; [|split].
  2:{ intros data fd b Hb.
      destruct (build_model_spec _ _ _ _ Hb)
        as (_ & _ & _ & _ & f1 & dcs & Hcs & -> & HD & Hlv).
      split; [done|]. split; [done|]. exists f1. by rewrite Hcs. }
  - intros data ub fd b val nd ci Hb Hf Hnd Hci Hleaf Hpos.
    destruct (level_constraint_posted _ _ _ _ _ _ _ Hb Hnd Hci Hleaf)
      as (l & l' & Hl & Hl' & Hin).
    { apply list_elem_of_fmap. eauto. }
    rewrite Hl in Hl'. inversion Hl'; subst l'.
    assert (or_1 (ci_depth_cost ci) = ci_depth_cost ci) as Hstep.
    { unfold or_1. destruct (Z.eqb_spec (ci_depth_cost ci) 0); lia. }
    rewrite Hstep in Hin.
    destruct (build_model_spec _ _ _ _ Hb) as (Hok & _).
    destruct (cuts_of_entries _ _ _ _ _ Hok Hci)
      as (_ & _ & _ & Hbv & _ & _ & _ & Hns & _).
    split; [done|]. split; [eauto|].
    pose proof (feasible_spec _ _ Hf) as [Hdom Hall].
    apply Hall in Hin. simpl in Hin. apply Z.leb_le in Hin.
    destruct (bool_var_value _ _ _ Hdom Hbv) as [H0|H1]; [done|].
    rewrite H1 in Hin. lia.
  - exists (built_of (build_model catalog_self_leaf None None)),
      (val_of [1; 1; 0; 1]), (mk_ci 1 ["n"; "x"] 0 2 1 0 0).
    split; [vm_compute; reflexivity|]. split; [vm_compute; reflexivity|].
    split; [vm_compute; left|]. done.
Qed.

(** Why the positive [depth_cost] of the data model matters there: with -1
    the level constraint reads level[n] >= level[n] - 1 and the cut can be
    chosen in a depth-enabled model. *)
Example negative_step_selectable :
  let b := built_of (build_model catalog_negative_step (Some 9) None) in
  feasible (val_of [1; 1; 1; 1; 1]) (b_model b) = true
  ∧ cuts_of (b_var_cut b) "n" = [mk_ci 1 ["n"; "x"] 0 2 (-1) 0 0].
Proof. vm_compute. done. Qed.

Lemma C10_self_leaf_cut_blocked_by_levels_witness :
  let b := built_of (build_model catalog_self_leaf (Some 11) None) in
  let val := val_of [1; 0; 1; 1; 1; 1] in
  feasible val (b_model b) = true
  ∧ val (ci_var (mk_ci 1 ["n"; "x"] 0 2 1 0 0)) = 0.
Proof.
  intros b val. split; [vm_compute; reflexivity|].
  refine (proj2 (proj2 (proj1 C10_self_leaf_cut_blocked_by_levels
            catalog_self_leaf 11 None b val
            (mk_node "n" [lifted ["n"; "x"]; lifted ["x"]])
            (mk_ci 1 ["n"; "x"] 0 2 1 0 0) _ _ _ _ _ _))).
  - vm_compute. reflexivity.
  - vm_compute. reflexivity.
  - simpl. left.
  - vm_compute. left.
  - simpl. left.
  - simpl. lia.
Defined.

(** ** The loader *)

Lemma rmap_Ok {A B} (f : A → result B) (xs : list A) (ys : list B) :
  rmap f xs = Ok ys → Forall2 (fun x y => f x = Ok y) xs ys.
Proof.
  revert ys. induction xs as [|x xs IH]; simpl; intros ys H.
  - inversion H. constructor.
  - destruct (f x) as [y|] eqn:Hf; [|done]. simpl in H.
    destruct (rmap f xs) as [ys'|] eqn:Hr; [|done]. simpl in H.
    inversion H; subst. constructor; [done|]. by apply IH.
Qed.

Lemma normalize_cut_record (d : pydict json) :
  normalize_cut (JDict d) = Ok (JDict d).
Proof. reflexivity. Qed.

Lemma normalize_cut_is_record (cut cut' : json) :
  normalize_cut cut = Ok cut' → is_record cut'.
Proof.
  unfold normalize_cut, is_record.
  destruct cut; simpl; intros H; inversion H; eauto.
Qed.

Lemma normalize_node_cuts (nd nd' : json) :
  normalize_node nd = Ok nd' →
  ∃ dn cuts, nd' = JDict dn ∧ dict_get "cuts" dn = Some (JList cuts)
             ∧ Forall is_record cuts.
Proof.
  unfold normalize_node. destruct nd; try done. simpl.
  destruct (py_iter _) as [cut_list|]; [|done]. simpl.
  destruct (rmap normalize_cut cut_list) as [cuts|] eqn:Hr; [|done]. simpl.
  intros H. inversion H; subst nd'.
  eexists _, cuts. split; [done|]. split; [apply dict_get_set_eq|].
  apply rmap_Ok in Hr. clear H.
  induction Hr as [|x y xs ys Hxy _ IH]; [constructor|].
  constructor; [by eapply normalize_cut_is_record|done].
Qed.

Lemma normalize_cuts_data_records (data data' : json) :
  _normalize_cuts_data data = Ok data' → cuts_are_records data'.
Proof.
  unfold _normalize_cuts_data. destruct data; try done. simpl.
  destruct (py_iter _) as [node_list|]; [|done]. simpl.
  destruct (rmap normalize_node node_list) as [nodes|] eqn:Hr; [|done]. simpl.
  intros H. inversion H; subst data'. clear H.
  eexists _, nodes. split; [done|].
  assert (Hnodes : ∀ d0 : pydict json,
            dict_get "nodes"
              (if dict_has "inputs" (dict_set "nodes" (JList nodes) d0)
               then dict_set "nodes" (JList nodes) d0
               else dict_set "inputs" (JList [])
                      (dict_set "nodes" (JList nodes) d0))
            = Some (JList nodes)).
  { intros d0. destruct (dict_has _ _).
    - apply dict_get_set_eq.
    - rewrite dict_get_set_ne by done. apply dict_get_set_eq. }
  split; [apply Hnodes|]. split.
  - unfold dict_has.
    destruct (dict_get "inputs" (dict_set "nodes" (JList nodes) d)) eqn:E.
    + rewrite E. eauto.
    + rewrite dict_get_set_eq. eauto.
  - apply rmap_Ok in Hr. clear Hnodes.
    induction Hr as [|x y xs ys Hxy _ IH]; [constructor|].
    constructor; [by eapply normalize_node_cuts|done].
Qed.

(** ** Defaults are read by the model builder *)

Lemma new_cut_vars_canonical n cuts : ∀ i acc cc m,
  new_cut_vars n i (map canonical_cut cuts) acc cc m
  = new_cut_vars n i cuts acc cc m.
Proof.
  induction cuts as [|c rest IH]; intros i acc cc m; [done|].
  cbn [map new_cut_vars].
  assert (cut_leaves (canonical_cut c) = cut_leaves c) as -> by done.
  destruct (cut_leaves c) as [leaves|] eqn:Hl; [|done].
  destruct (is_self_cut leaves n); [apply IH|].
  assert (default 0 (cut_inv_cost (canonical_cut c))
          = default 0 (cut_inv_cost c)) as -> by done.
  assert (default (Z.of_nat (length leaves)) (cut_area_cost (canonical_cut c))
          = default (Z.of_nat (length leaves)) (cut_area_cost c)) as ->
    by (simpl; by rewrite Hl).
  assert (default 1 (cut_depth_cost (canonical_cut c))
          = default 1 (cut_depth_cost c)) as -> by done.
  destruct (NewBoolVar _ m) as [cvar m']. apply IH.
Qed.

Lemma new_all_cut_vars_canonical nds : ∀ vc cc m,
  new_all_cut_vars (map canonical_node nds) vc cc m
  = new_all_cut_vars nds vc cc m.
Proof.
  induction nds as [|nd rest IH]; intros vc cc m; [done|].
  cbn [map new_all_cut_vars].
  change (nd_name (canonical_node nd)) with (nd_name nd).
  change (nd_cuts (canonical_node nd)) with (map canonical_cut (nd_cuts nd)).
  rewrite new_cut_vars_canonical.
  destruct (new_cut_vars _ _ _ _ _ _) as [[[cis cc1] m1]|]; [apply IH|done].
Qed.

Lemma new_used_vars_canonical nds : ∀ d m,
  new_used_vars (map canonical_node nds) d m = new_used_vars nds d m.
Proof.
  induction nds as [|nd rest IH]; intros d m; [done|].
  cbn [map new_used_vars].
  change (nd_name (canonical_node nd)) with (nd_name nd).
  destruct (NewBoolVar _ m) as [v m']. apply IH.
Qed.

Lemma new_level_vars_canonical nds ub : ∀ d m,
  new_level_vars (map canonical_node nds) ub d m = new_level_vars nds ub d m.
Proof.
  induction nds as [|nd rest IH]; intros d m; [done|].
  cbn [map new_level_vars].
  change (nd_name (canonical_node nd)) with (nd_name nd).
  destruct (NewIntVar _ _ _ m) as [v m']. apply IH.
Qed.

Lemma map_name_canonical nds :
  map nd_name (map canonical_node nds) = map nd_name nds.
Proof. rewrite map_map. by apply map_ext. Qed.

Lemma flat_map_canonical {B} (f : string → list B) nds :
  flat_map (fun nd => f (nd_name nd)) (map canonical_node nds)
  = flat_map (fun nd => f (nd_name nd)) nds.
Proof. induction nds as [|nd rest IH]; simpl; [done|]. by rewrite IH. Qed.

Lemma last_canonical nds :
  last (map canonical_node nds) = canonical_node <$> last nds.
Proof.
  induction nds as [|nd rest IH]; [done|].
  destruct rest as [|nd' rest']; [done|]. exact IH.
Qed.

Lemma constraints_levels_canonical nds inputs vu vc lv M :
  constraints_levels (map canonical_node nds) inputs vu vc lv M
  = constraints_levels nds inputs vu vc lv M.
Proof.
  unfold constraints_levels.
  induction nds as [|nd rest IH]; [done|].
  cbn [map flat_map]. rewrite IH. reflexivity.
Qed.

Lemma build_model_canonical data db fd :
  build_model (canonical_catalog data) db fd = build_model data db fd.
Proof.
  unfold build_model, canonical_catalog.
  cbn [cat_nodes cat_outputs cat_inputs].
  rewrite new_used_vars_canonical.
  destruct (new_used_vars _ _ _) as [vu m1].
  rewrite new_all_cut_vars_canonical.
  destruct (new_all_cut_vars _ _ _ _) as [[[vc cc] m2]|]; [|done].
  assert (HA : constraints_A (map canonical_node (cat_nodes data)) vu vc
               = constraints_A (cat_nodes data) vu vc).
  { unfold constraints_A. rewrite map_map. by apply map_ext. }
  assert (HB : ∀ f1, constraints_B (map canonical_node (cat_nodes data)) vu vc f1
               = constraints_B (cat_nodes data) vu vc f1).
  { intros f1. unfold constraints_B, constraint_B, node_names.
    rewrite map_name_canonical.
    apply (flat_map_canonical (fun n =>
      flat_map (fun ci => map _ (ci_leaves ci)) (cuts_of vc n))). }
  assert (HR : constraints_roots (map canonical_node (cat_nodes data))
                 (cat_outputs data) vu
               = constraints_roots (cat_nodes data) (cat_outputs data) vu).
  { unfold constraints_roots. rewrite last_canonical.
    destruct (last (cat_nodes data)); reflexivity. }
  pose proof (constraints_levels_canonical (cat_nodes data) (cat_inputs data)
                vu vc) as HL.
  assert (HC : all_cut_infos (map canonical_node (cat_nodes data)) vc
               = all_cut_infos (cat_nodes data) vc).
  { unfold all_cut_infos. apply (flat_map_canonical (cuts_of vc)). }
  assert (Hlen : len_or_1 (map canonical_node (cat_nodes data))
                 = len_or_1 (cat_nodes data)).
  { unfold len_or_1. by rewrite length_map. }
  rewrite HA. destruct (NewConstant 1 _) as [f1 m3]. rewrite HB, HR, HC.
  destruct db as [ub|]; [|done].
  rewrite Hlen, new_level_vars_canonical.
  destruct (new_level_vars _ _ _ _) as [lv m4].
  destruct (NewIntVar _ _ _ m4) as [D m5]. by rewrite HL.
Qed.

(** The depth bounder reads the same defaults. *)
Lemma node_map_fold_canonical nds : ∀ M : gmap string node,
  fold_left (fun m nd => <[nd_name nd := nd]> m) (map canonical_node nds)
            (canonical_node <$> M)
  = canonical_node <$> fold_left (fun m nd => <[nd_name nd := nd]> m) nds M.
Proof.
  induction nds as [|nd rest IH]; intros M; [done|].
  cbn [map fold_left].
  change (nd_name (canonical_node nd)) with (nd_name nd).
  rewrite <- fmap_insert. apply IH.
Qed.

Lemma node_map_of_canonical nds :
  node_map_of (map canonical_node nds) = canonical_node <$> node_map_of nds.
Proof.
  unfold node_map_of. rewrite <- node_map_fold_canonical.
  by rewrite fmap_empty.
Qed.

Lemma dfs_map_ext {A B} (f g : A → DFS B) :
  (∀ x st, f x st = g x st) → ∀ xs st, dfs_map f xs st = dfs_map g xs st.
Proof.
  intros Hfg. induction xs as [|x xs IH]; intros st; simpl; [done|].
  unfold dfs_bind. rewrite Hfg. destruct (g x st) as [[y st1]|]; [|done].
  by rewrite IH.
Qed.

Lemma depth_cuts_canonical (f g : string → DFS Z) (name : string) :
  (∀ x st, f x st = g x st) →
  ∀ cuts best st,
    depth_cuts f name (map canonical_cut cuts) best st
    = depth_cuts g name cuts best st.
Proof.
  intros Hfg. induction cuts as [|c cs IH]; intros best st; [done|].
  cbn [map depth_cuts].
  change (cut_leaves (canonical_cut c)) with (cut_leaves c).
  change (depth_step (canonical_cut c)) with (depth_step c).
  destruct (is_self_cut _ name); [apply IH|].
  unfold dfs_bind. rewrite (dfs_map_ext f g Hfg).
  destruct (dfs_map g _ st) as [[ds st1]|]; [|done]. apply IH.
Qed.

Lemma depth_canonical nodes fuel : ∀ name st,
  depth (map canonical_node nodes) fuel name st = depth nodes fuel name st.
Proof.
  induction fuel as [|fuel IH]; intros name st; [done|].
  cbn [depth]. unfold depth_body.
  destruct (memo st !! name); [done|].
  assert (len_or_1 (map canonical_node nodes) = len_or_1 nodes) as ->
    by (unfold len_or_1; by rewrite length_map).
  destruct (decide (name ∈ visiting st)); [done|].
  rewrite node_map_of_canonical, lookup_fmap.
  destruct (node_map_of nodes !! name) as [nd|]; [|done].
  cbn [fmap option_fmap option_map].
  change (nd_cuts (canonical_node nd)) with (map canonical_cut (nd_cuts nd)).
  by rewrite (depth_cuts_canonical _ (depth nodes fuel) name IH).
Qed.

Lemma resolve_outputs_canonical data :
  resolve_outputs (canonical_catalog data) = resolve_outputs data.
Proof.
  unfold resolve_outputs, canonical_catalog.
  cbn [cat_outputs cat_nodes].
  destruct (cat_outputs data); [|done].
  rewrite node_map_of_canonical, lookup_fmap, last_canonical.
  destruct (node_map_of (cat_nodes data) !! "Nout") as [n|];
    cbn [fmap option_fmap option_map].
  - destruct (decide (is_Some (Some (canonical_node n)))) as [_|Hn];
      [|exfalso; apply Hn; eauto].
    destruct (decide (is_Some (Some n))) as [_|Hn];
      [done|exfalso; apply Hn; eauto].
  - destruct (decide (is_Some (@None node))) as [[? Hn]|_]; [done|].
    by destruct (last (cat_nodes data)).
Qed.

Lemma compute_depth_upper_bound_canonical data :
  _compute_depth_upper_bound (canonical_catalog data)
  = _compute_depth_upper_bound data.
Proof.
  unfold _compute_depth_upper_bound, compute_depth_upper_bound_fuel,
    base_depth.
  rewrite resolve_outputs_canonical.
  unfold canonical_catalog at 1 2 3 4. cbn [cat_nodes].
  rewrite length_map.
  rewrite (dfs_map_ext _ _ (depth_canonical (cat_nodes data) _)).
  destruct (dfs_map _ _ dfs_init) as [[ds st]|]; [|done]. simpl.
  unfold ub_of_base, base_of, len_or_1. by rewrite length_map.
Qed.

Lemma rmap_Raise {A B} (f : A → result B) (xs : list A) (x : A) :
  x ∈ xs → (∃ e, f x = Raise e) → ∃ e, rmap f xs = Raise e.
Proof.
  intros Hin [e He]. induction xs as [|y ys IH]; [by apply elem_of_nil in Hin|].
  simpl. destruct (f y) as [b|e'] eqn:Hy; [|by exists e'].
  apply elem_of_cons in Hin as [->|Hin]; [congruence|].
  destruct (IH Hin) as [e2 He2]. rewrite He2. simpl. by exists e2.
Qed.

Lemma normalize_node_not_record (nd : json) :
  ¬ is_record nd → normalize_node nd = Raise AttributeError.
Proof.
  intros H. destruct nd; try done; exfalso; apply H; by eexists.
Qed.

(** C3, as the spec states it, fails: the loader lifts a bare list with the
    default costs but leaves a record without cost fields as it is, so the
    same cut given in the two forms loads to two different catalogs. *)
Lemma C3_counterexample :
  _normalize_cuts_data (json_catalog json_bare_cut)
  = Ok (json_loaded json_lifted_cut)
  ∧ _normalize_cuts_data (json_catalog json_record_cut)
    = Ok (json_loaded json_record_cut)
  ∧ json_loaded json_lifted_cut ≠ json_loaded json_record_cut
  ∧ canonical_catalog <$> catalog_of_json (json_loaded json_lifted_cut)
    = canonical_catalog <$> catalog_of_json (json_loaded json_record_cut).
Proof.
  split; [reflexivity|]. split; [reflexivity|]. split; [discriminate|].
  reflexivity.
Qed.

(** C3, amended.  After loading, every cut of every node is a record: a
    bare list is lifted with inv_cost = 0, area_cost = len(leaves),
    depth_cost = 1, a record is kept as it is.  The defaults for cost fields
    a record lacks are applied when the model builder and the depth bounder
    read the cut, so two catalogs that agree once the defaults are filled
    in yield the same model and the same depth bound. *)
Theorem C3_records_kept_defaults_at_build :
  (∀ data data', _normalize_cuts_data data = Ok data' → cuts_are_records data')
  ∧ (∀ leaves : list json,
       normalize_cut (JList leaves)
       = Ok (JDict [("leaves", JList leaves); ("inv_cost", JInt 0);
                    ("area_cost", JInt (Z.of_nat (length leaves)));
                    ("depth_cost", JInt 1)]))
  ∧ (∀ d : pydict json, normalize_cut (JDict d) = Ok (JDict d))
  ∧ (∀ data db fd,
       build_model (canonical_catalog data) db fd = build_model data db fd)
  ∧ (∀ data,
       _compute_depth_upper_bound (canonical_catalog data)
       = _compute_depth_upper_bound data)
  ∧ (∀ data1 data2 db fd,
       canonical_catalog data1 = canonical_catalog data2 →
       build_model data1 db fd = build_model data2 db fd
       ∧ _compute_depth_upper_bound data1 = _compute_depth_upper_bound data2).
Proof.
  split; [exact normalize_cuts_data_records|].
  split; [reflexivity|]. split; [reflexivity|].
  split; [exact build_model_canonical|].
  split; [exact compute_depth_upper_bound_canonical|].
  intros data1 data2 db fd Heq. split.
  - rewrite <- (build_model_canonical data1), <- (build_model_canonical data2).
    by rewrite Heq.
  - rewrite <- (compute_depth_upper_bound_canonical data1),
      <- (compute_depth_upper_bound_canonical data2).
    by rewrite Heq.
Qed.

Lemma C3_records_kept_defaults_at_build_witness :
  cuts_are_records (json_loaded json_record_cut)
  ∧ build_model
      (mk_catalog [mk_node "a" [lifted ["x"]]] ["a"] []) None None
    = build_model
        (mk_catalog [mk_node "a" [mk_cut (Some ["x"]) None None None]] ["a"] [])
        None None.
Proof.
  split.
  - apply (proj1 C3_records_kept_defaults_at_build
             (json_catalog json_record_cut)).
    reflexivity.
  - apply (proj2 (proj2 (proj2 (proj2 (proj2
             C3_records_kept_defaults_at_build))))).
    reflexivity.
Defined.

(** C5, as the spec states it, fails: a catalog whose cut record has a
    string, a float and a list as cost fields loads without any error. *)
Lemma C5_counterexample :
  load (pyfloat := unit) world_exists world_suffix
       (world_open (json_catalog json_bad_cost_cut)) world_no_enum
       "cuts.json" None None
  = ([], Ok (json_loaded json_bad_cost_cut))
  ∧ as_int (JStr "many") = None
  ∧ as_int (JFloat 3 (-1)) = None
  ∧ as_int (JList []) = None.
Proof. repeat split; reflexivity. Qed.

Section loader_properties.
Context {pyfloat : Type}.
Variable path_exists : string → bool.
Variable suffix_lower : string → string.
Variable open_json_load : string → read_outcome.
Variable generate_cuts_json_from_blif :
  string → option string → option Z → result string.

Local Abbreviation load_ :=
  (load (pyfloat := pyfloat) path_exists suffix_lower open_json_load
        generate_cuts_json_from_blif).

(** C5, amended.  Loading fails when the file does not exist
    (FileNotFoundError), cannot be read (OSError), is not valid JSON
    (ValueError), when the external conversion of a non-JSON input fails,
    and when the document is malformed: its top level or a node is not an
    object (AttributeError), its nodes entry is not iterable (TypeError), a
    cut is neither an object nor iterable.  The cost fields of a cut record
    are not looked at: whatever they hold, the record is loaded as it
    is. *)
Theorem C5_load_failures (cuts_path : string) (binary_hint : option string)
    (cut_size : option Z) :
  (path_exists cuts_path = false →
   load_ cuts_path binary_hint cut_size = ([], Raise FileNotFoundError))
  ∧ (path_exists cuts_path = true → suffix_lower cuts_path = ".json" →
     load_ cuts_path binary_hint cut_size
     = match open_json_load cuts_path with
       | ReadOSError => ([], Raise OSError)
       | JSONDecodeError => ([], Raise ValueError)
       | Loaded data => ([], _normalize_cuts_data data)
       end)
  ∧ (path_exists cuts_path = true → suffix_lower cuts_path ≠ ".json" →
     load_ cuts_path binary_hint cut_size
     = match generate_cuts_json_from_blif cuts_path binary_hint cut_size with
       | Raise e => ([], Raise e)
       | Ok temp_json =>
           match open_json_load temp_json with
           | ReadOSError => ([EUnlink temp_json], Raise OSError)
           | JSONDecodeError => ([EUnlink temp_json], Raise ValueError)
           | Loaded data => ([EUnlink temp_json], _normalize_cuts_data data)
           end
       end)
  ∧ (∀ data, ¬ is_record data →
       _normalize_cuts_data data = Raise AttributeError)
  ∧ (∀ d v, dict_get "nodes" d = Some v → py_iter v = Raise TypeError →
       _normalize_cuts_data (JDict d) = Raise TypeError)
  ∧ (∀ d nodes nd, dict_get "nodes" d = Some (JList nodes) → nd ∈ nodes →
       ¬ is_record nd → ∃ e, _normalize_cuts_data (JDict d) = Raise e)
  ∧ (∀ cut, ¬ is_record cut → py_iter cut = Raise TypeError →
       normalize_cut cut = Raise TypeError)
  ∧ (∀ d : pydict json, normalize_cut (JDict d) = Ok (JDict d))
  ∧ (∀ d : pydict json,
       path_exists cuts_path = true → suffix_lower cuts_path = ".json" →
       open_json_load cuts_path = Loaded (json_catalog (JDict d)) →
       load_ cuts_path binary_hint cut_size
       = ([], Ok (json_loaded (JDict d)))).
Proof.
  assert (Hjson : path_exists cuts_path = true →
    suffix_lower cuts_path = ".json" →
    load_ cuts_path binary_hint cut_size
    = match open_json_load cuts_path with
      | ReadOSError => ([], Raise OSError)
      | JSONDecodeError => ([], Raise ValueError)
      | Loaded data => ([], _normalize_cuts_data data)
      end).
  { intros He Hs. unfold load, _load_cuts_data. rewrite He, Hs. simpl.
    destruct (open_json_load cuts_path) as [| |data]; reflexivity. }
  split; [|split; [exact Hjson|split; [|split; [|split; [|split; [|split; [|split]]]]]]].
  - intros He. unfold load, _load_cuts_data. by rewrite He.
  - intros He Hs. unfold load, _load_cuts_data. rewrite He.
    apply String.eqb_neq in Hs. rewrite Hs. simpl.
    destruct (generate_cuts_json_from_blif _ _ _) as [tmp|e]; [|done].
    simpl. destruct (open_json_load tmp) as [| |data]; try reflexivity.
  - intros data Hd. destruct data; try done; exfalso; apply Hd; by eexists.
  - intros d v Hv Hit. unfold _normalize_cuts_data. simpl. rewrite Hv. simpl.
    by rewrite Hit.
  - intros d nodes nd Hn Hin Hnd. unfold _normalize_cuts_data. simpl.
    rewrite Hn. simpl.
    destruct (rmap_Raise normalize_node nodes nd Hin) as [e He].
    { exists AttributeError. by apply normalize_node_not_record. }
    rewrite He. simpl. by exists e.
  - intros cut Hc Hit. destruct cut; try done; exfalso; apply Hc; by eexists.
  - reflexivity.
  - intros d He Hs Ho. rewrite (Hjson He Hs), Ho. reflexivity.
Qed.
End loader_properties.

Lemma C5_load_failures_witness :
  load (pyfloat := unit) world_exists world_suffix
       (world_open (json_catalog json_bad_cost_cut)) world_no_enum
       "cuts.json" None None
  = ([], Ok (json_loaded json_bad_cost_cut))
  ∧ _normalize_cuts_data (JList []) = Raise AttributeError.
Proof.
  split.
  - refine (proj2 (proj2 (proj2 (proj2 (proj2 (proj2 (proj2 (proj2
      (C5_load_failures (pyfloat := unit) world_exists world_suffix
         (world_open (json_catalog json_bad_cost_cut)) world_no_enum
         "cuts.json" None None))))))))
      [("leaves", JList [JStr "x"]); ("inv_cost", JStr "many");
       ("area_cost", JFloat 3 (-1)); ("depth_cost", JList [])] _ _ _);
      reflexivity.
  - refine (proj1 (proj2 (proj2 (proj2
      (C5_load_failures (pyfloat := unit) world_exists world_suffix
         (world_open (json_catalog json_bad_cost_cut)) world_no_enum
         "cuts.json" None None)))) (JList []) _).
    intros [d Hd]. discriminate Hd.
Defined.

(** ** The driver *)

Lemma build_model_succeeds_again data db fd b db' fd' :
  build_model data db fd = Ok b → ∃ b', build_model data db' fd' = Ok b'.
Proof.
  unfold build_model.
  destruct (new_used_vars _ _ _) as [vu m1].
  destruct (new_all_cut_vars _ _ _ _) as [[[vc cc] m2]|]; [|done].
  intros _. destruct (NewConstant 1 _) as [f1 m3].
  destruct db' as [ub|].
  - destruct (new_level_vars _ _ _ _) as [lv m4].
    destruct (NewIntVar _ _ _ m4) as [D m5]. eauto.
  - eauto.
Qed.

Lemma apply_objective_fields b mode b' :
  apply_objective b mode = Ok b' →
  b_var_node_used b' = b_var_node_used b ∧ b_var_cut b' = b_var_cut b
  ∧ b_D b' = b_D b ∧ b_level_vars b' = b_level_vars b
  ∧ constraints (b_model b') = constraints (b_model b)
  ∧ variables (b_model b') = variables (b_model b).
Proof.
  unfold apply_objective.
  repeat match goal with
         | |- context [if ?c then _ else _] => destruct c
         | |- context [match b_D b with _ => _ end] => destruct (b_D b)
         end;
    intros H; inversion H; subst; done.
Qed.



Section driver_properties.
Context {pyfloat : Type}.
Variable Solve : solver_params → CpModel → cp_status * @solver pyfloat.
Variable str_status : cp_status → string.

Local Abbreviation io_ := (@io pyfloat).
Local Abbreviation solve_on := (solve_circuit_on Solve str_status).
Local Abbreviation to_str := (_status_to_str str_status).
Local Abbreviation well_reported_ := (@well_reported pyfloat str_status).

Lemma io_bind_lift {A B} (r : result A) (k : A → io_ B) :
  io_bind (io_lift r) k
  = match r with Ok a => k a | Raise e => ([], Raise e) end.
Proof. destruct r as [a|e]; [|done]. simpl. by destruct (k a). Qed.

Lemma io_bind_print {B} (line : list atom) (k : unit → io_ B) :
  io_bind (print line) k = (EPrint line :: fst (k tt), snd (k tt)).
Proof. unfold print. simpl. by destruct (k tt). Qed.

Lemma is_solved_to_str (st : cp_status) :
  is_solved st = true → to_str st = "OPTIMAL" ∨ to_str st = "FEASIBLE".
Proof. destruct st; simpl; intros H; try done; auto. Qed.

(** What the tail of [solve_circuit] does. *)
Lemma finish_spec (path mode st : string) (D : option Z)
    (obj tie : option pynum) (chosen : pydict nat) :
  ∃ ev : list (@event pyfloat),
    finish path mode st D obj tie chosen = (ev, Ok (mk_result st obj))
    ∧ wrote_file ev = true
    ∧ (∀ e, e ∈ ev →
         match e with
         | EWriteJson p c => p = path ∧ c = chosen_cuts_json chosen
         | EUnlink _ => False
         | EPrint _ => True
         end)
    ∧ EWriteJson path (chosen_cuts_json chosen) ∈ ev
    ∧ (mode = "depth" ∨ mode = "overall" →
       EPrint [AStr "Phase B tie-break objective ="; opt_atom tie] ∈ ev).
Proof.
  unfold finish.
  set (tail := (if (String.eqb mode "depth" || String.eqb mode "overall")%bool
                then _ else _) : io_ unit).
  assert (Htail : ∃ evt, tail = (evt, Ok tt)
            ∧ Forall (fun e => match e with EPrint _ => True | _ => False end) evt
            ∧ (mode = "depth" ∨ mode = "overall" →
               EPrint [AStr "Phase B tie-break objective ="; opt_atom tie]
               ∈ evt)).
  { subst tail.
    destruct (String.eqb mode "depth" || String.eqb mode "overall")%bool eqn:E.
    - eexists. split; [reflexivity|]. split; [repeat constructor|].
      intros _. right. left.
    - exists []. split; [reflexivity|]. split; [constructor|].
      intros [->| ->]; discriminate E. }
  destruct Htail as (evt & -> & Hevt & Htie).
  destruct obj as [v|].
  - eexists. split; [reflexivity|]. simpl.
    split.
    { unfold wrote_file. simpl. rewrite !existsb_app. simpl.
      by rewrite orb_true_r. }
    split.
    { intros e He. rewrite !elem_of_cons, !elem_of_app, !elem_of_cons in He.
      rewrite Forall_forall in Hevt.
      destruct He as [->|[->|[He|[->|[->|He]]]]]; try done.
      - specialize (Hevt e He). by destruct e.
      - by apply elem_of_nil in He. }
    split.
    { rewrite !elem_of_cons, !elem_of_app, !elem_of_cons. auto 10. }
    intros Hm. specialize (Htie Hm).
    rewrite !elem_of_cons, !elem_of_app. auto 10.
  - eexists. split; [reflexivity|]. simpl.
    split.
    { unfold wrote_file. simpl. rewrite !existsb_app. simpl.
      by rewrite orb_true_r. }
    split.
    { intros e He. rewrite !elem_of_cons, !elem_of_app, !elem_of_cons in He.
      rewrite Forall_forall in Hevt.
      destruct He as [->|[He|[->|[->|He]]]]; try done.
      - specialize (Hevt e He). by destruct e.
      - by apply elem_of_nil in He. }
    split.
    { rewrite !elem_of_cons, !elem_of_app, !elem_of_cons. auto 10. }
    intros Hm. specialize (Htie Hm).
    rewrite !elem_of_cons, !elem_of_app. auto 10.
Qed.

Lemma well_reported_lift {A} (r : result A) (k : A → io_ solve_result) :
  (∀ a, r = Ok a → well_reported_ (k a)) →
  well_reported_ (io_bind (io_lift r) k).
Proof.
  intros H. rewrite io_bind_lift. destruct r as [a|e]; [by apply H|done].
Qed.

Lemma well_reported_print (line : list atom) (k : unit → io_ solve_result) :
  well_reported_ (k tt) → well_reported_ (io_bind (print line) k).
Proof.
  rewrite io_bind_print. unfold well_reported.
  destruct (k tt) as [ev [res|e]]; simpl; done.
Qed.

Lemma well_reported_finish path mode (st : cp_status) D obj tie chosen :
  is_solved st = true →
  well_reported_ (finish path mode (to_str st) D obj tie chosen).
Proof.
  intros Hs.
  destruct (finish_spec path mode (to_str st) D obj tie chosen)
    as (ev & -> & Hw & _).
  exists st. simpl. rewrite Hw, Hs. split; [done|]. split; [done|]. done.
Qed.

Lemma well_reported_failed (st : cp_status) :
  is_solved st = false →
  well_reported_ (io_ret (mk_result (to_str st) None)).
Proof. intros Hs. exists st. simpl. by rewrite Hs. Qed.

Lemma solve_circuit_on_well_reported data path mode :
  well_reported_ (solve_on data path mode).
Proof.
  unfold solve_circuit_on.
  destruct (String.eqb mode "depth" || String.eqb mode "overall")%bool.
  - apply well_reported_lift. intros ub _.
    apply well_reported_print.
    apply well_reported_lift. intros pa0 _.
    apply well_reported_lift. intros pa _.
    destruct (solve_model Solve (b_model pa) _ _ _ _ _ _) as [sa sta].
    apply well_reported_print.
    destruct (is_solved sta) eqn:Hsa; simpl negb; cbv iota.
    + apply well_reported_lift. intros Da _.
      apply well_reported_print.
      apply well_reported_lift. intros pb0 _.
      apply well_reported_lift. intros pb _.
      destruct (solve_model Solve (b_model pb) _ _ _ _ _ _) as [sb stb].
      apply well_reported_print.
      destruct (is_solved stb) eqn:Hsb.
      * apply well_reported_lift. intros Db _.
        by apply well_reported_finish.
      * apply well_reported_print. by apply well_reported_finish.
    + apply well_reported_print. by apply well_reported_failed.
  - apply well_reported_lift. intros s0 _.
    apply well_reported_lift. intros s1 _.
    destruct (solve_model Solve (b_model s1) _ _ _ _ _ _) as [sv stv].
    apply well_reported_print.
    destruct (is_solved stv) eqn:Hsv; simpl negb; cbv iota.
    + by apply well_reported_finish.
    + apply well_reported_print. by apply well_reported_failed.
Qed.
Lemma io_bind_print_match {B} (line : list atom) (k : unit → io_ B) :
  io_bind (print line) k
  = match k tt with (ev, r) => (EPrint line :: ev, r) end.
Proof. unfold print. simpl. by destruct (k tt). Qed.

(** C6.  In the modes depth and overall, once Phase A has found a solution
    of depth best_depth, Phase B is built and solved; if its status is
    OPTIMAL or FEASIBLE the chosen cuts written out are those of Phase B,
    otherwise those of Phase A; in both cases the objective value returned
    is best_depth, and the tie-break value of Phase B (None when Phase B
    failed) is printed alongside. *)
Theorem C6_phase_b_result (data : catalog) (path mode : string) (ub : Z)
    (pa0 : built) :
  mode = "depth" ∨ mode = "overall" →
  _compute_depth_upper_bound data = Some ub →
  let nodes := cat_nodes data in
  let UB := Z.max ub (len_or_1 nodes) in
  build_model data (Some UB) None = Ok pa0 →
  ∃ pa Da,
    apply_objective pa0 "depth" = Ok pa ∧ b_D pa = Some Da
    ∧ ∀ sta sa,
        Solve params_phase_a (b_model pa) = (sta, sa) →
        is_solved sta = true →
        let best_depth := Value sa Da in
        ∃ pb0 pb,
          build_model data (Some UB) (Some best_depth) = Ok pb0
          ∧ apply_objective pb0 (tie_mode_of mode) = Ok pb
          ∧ ∀ stb sb,
              Solve params_phase_b (b_model pb) = (stb, sb) →
              let cuts_a :=
                _extract_chosen_cuts nodes (b_var_node_used pa)
                  (b_var_cut pa) (Value sa) in
              let cuts_b :=
                _extract_chosen_cuts nodes (b_var_node_used pb)
                  (b_var_cut pb) (Value sb) in
              let emitted := if is_solved stb then cuts_b else cuts_a in
              ∃ ev,
                solve_on data path mode
                = (ev, Ok (mk_result
                             (if is_solved stb then to_str stb else to_str sta)
                             (Some (NInt best_depth))))
                ∧ EWriteJson path (chosen_cuts_json emitted) ∈ ev
                ∧ (∀ p c, EWriteJson p c ∈ ev →
                          p = path ∧ c = chosen_cuts_json emitted)
                ∧ EPrint [AStr "Phase B tie-break objective =";
                          if is_solved stb
                          then ANum (NFloat (ObjectiveValue sb)) else ANone]
                  ∈ ev.
Proof.
  intros Hmode Hub nodes UB Hpa0.
  destruct (build_model_spec _ _ _ _ Hpa0)
    as (_ & _ & _ & _ & f1 & dcs & _ & Da & HDa & _).
  destruct (apply_objective pa0 "depth") as [pa|] eqn:Hpa.
  2:{ unfold apply_objective in Hpa. simpl in Hpa. by rewrite HDa in Hpa. }
  destruct (apply_objective_fields _ _ _ Hpa) as (Hvu & Hvc & HD & _).
  exists pa, Da. split; [done|]. split; [congruence|].
  intros sta sa HSa Hsa best_depth.
  destruct (build_model_succeeds_again _ _ _ _ (Some UB) (Some best_depth) Hpa0)
    as [pb0 Hpb0].
  destruct (build_model_spec _ _ _ _ Hpb0)
    as (_ & _ & _ & _ & f1' & dcs' & _ & Db & HDb & _).
  destruct (apply_objective pb0 (tie_mode_of mode)) as [pb|] eqn:Hpb.
  2:{ destruct Hmode as [-> | ->]; discriminate Hpb. }
  destruct (apply_objective_fields _ _ _ Hpb) as (Hvu' & Hvc' & HD' & _).
  exists pb0, pb. split; [done|]. split; [done|].
  intros stb sb HSb cuts_a cuts_b emitted.
  assert (Hm : (String.eqb mode "depth" || String.eqb mode "overall")%bool = true)
    by (destruct Hmode as [-> | ->]; reflexivity).
  unfold solve_circuit_on. rewrite Hm, Hub.
  rewrite io_bind_lift. cbv beta iota zeta. fold nodes. fold UB.
  rewrite io_bind_print_match, Hpa0, io_bind_lift. cbv beta iota.
  rewrite Hpa, io_bind_lift. cbv beta iota.
  unfold solve_model.
  change (mk_params 1 16 120 false (Some 1) None true) with params_phase_a.
  rewrite HSa. cbv beta iota zeta.
  rewrite io_bind_print_match, Hsa. simpl negb. cbv beta iota.
  rewrite HD, HDa, io_bind_lift. cbv beta iota.
  rewrite io_bind_print_match.
  fold best_depth. rewrite Hpb0, io_bind_lift. cbv beta iota.
  change (if (mode =? "depth")%string then "depth_tiebreak_area"
          else "overall_tiebreak") with (tie_mode_of mode).
  rewrite Hpb, io_bind_lift. cbv beta iota.
  change (mk_params 1 16 60 false None None false) with params_phase_b.
  rewrite HSb. cbv beta iota zeta. rewrite io_bind_print_match.
  subst emitted. destruct (is_solved stb) eqn:Hsb.
  - rewrite HD', HDb, io_bind_lift. cbv beta iota.
    destruct (finish_spec path mode (to_str stb) (Some (Value sb Db))
                (Some (NInt best_depth)) (Some (NFloat (ObjectiveValue sb)))
                cuts_b) as (evf & Hfin & _ & Hev & Hin & Htie).
    fold cuts_b. rewrite Hfin. eexists. split; [reflexivity|].
    split; [rewrite !elem_of_cons; auto 10|].
    split; [|rewrite !elem_of_cons; auto 10].
    intros p c Hpc. rewrite !elem_of_cons in Hpc.
    destruct Hpc as [?|[?|[?|[?|Hpc]]]]; try done.
    by apply Hev in Hpc.
  - rewrite io_bind_print_match.
    destruct (finish_spec path mode (to_str sta) (Some best_depth)
                (Some (NInt best_depth)) None cuts_a)
      as (evf & Hfin & _ & Hev & Hin & Htie).
    fold cuts_a. rewrite Hfin. eexists. split; [reflexivity|].
    split; [rewrite !elem_of_cons; auto 10|].
    split; [|rewrite !elem_of_cons; auto 10].
    intros p c Hpc. rewrite !elem_of_cons in Hpc.
    destruct Hpc as [?|[?|[?|[?|[?|Hpc]]]]]; try done.
    by apply Hev in Hpc.
Qed.

(** C7.  The chosen-cuts file is written iff the final solve status is
    OPTIMAL or FEASIBLE, the final status being the solver's answer: that of
    the single solve; in the depth modes that of Phase A when it failed,
    else that of Phase B when it succeeded, else again that of Phase A.
    Whenever the driver returns, the status it returns is the string of a
    solver status, the file was written iff that status is OPTIMAL or
    FEASIBLE, and for any other status the objective value is None and
    nothing was written; a run ended by an exception wrote nothing either.
    A failed single solve, and a failed Phase A in the depth modes, return
    the failing status with None after their prints and no write.  A single
    solve that succeeded returns its status with the solver's objective
    value and has written the cuts extracted from its solution, and nothing
    else; in the depth modes, once Phase A succeeded, the run returns the
    status of Phase B if that succeeded and of Phase A otherwise, and has
    written the file in both cases. *)
Theorem C7_file_written_iff_solved (data : catalog) (path mode : string) :
  (∀ ev r, solve_on data path mode = (ev, r) →
     match r with
     | Ok res =>
         ∃ st : cp_status,
           status res = to_str st
           ∧ (wrote_file ev = true ↔ is_solved st = true)
           ∧ (is_solved st = true →
              status res = "OPTIMAL" ∨ status res = "FEASIBLE")
           ∧ (is_solved st = false →
              objective_value res = None ∧ wrote_file ev = false)
     | Raise _ => wrote_file ev = false
     end)
  ∧ (∀ single0 single st s,
       (String.eqb mode "depth" || String.eqb mode "overall")%bool = false →
       build_model data None None = Ok single0 →
       apply_objective single0 mode = Ok single →
       Solve params_single (b_model single) = (st, s) →
       is_solved st = false →
       solve_on data path mode
       = ([EPrint [AStr "Status: "; AStr (to_str st)];
           EPrint [AStr "No feasible solution."]],
          Ok (mk_result (to_str st) None)))
  ∧ (∀ ub pa0 pa sta sa,
       (String.eqb mode "depth" || String.eqb mode "overall")%bool = true →
       _compute_depth_upper_bound data = Some ub →
       let UB := Z.max ub (len_or_1 (cat_nodes data)) in
       build_model data (Some UB) None = Ok pa0 →
       apply_objective pa0 "depth" = Ok pa →
       Solve params_phase_a (b_model pa) = (sta, sa) →
       is_solved sta = false →
       solve_on data path mode
       = ([EPrint [AStr "Using depth upper bound UB = "; ANum (NInt UB)];
           EPrint [AStr "Phase A status: "; AStr (to_str sta)];
           EPrint [AStr "No feasible solution in Phase A."]],
          Ok (mk_result (to_str sta) None)))
  ∧ (∀ single0 single st s,
       (String.eqb mode "depth" || String.eqb mode "overall")%bool = false →
       build_model data None None = Ok single0 →
       apply_objective single0 mode = Ok single →
       Solve params_single (b_model single) = (st, s) →
       is_solved st = true →
       let chosen :=
         _extract_chosen_cuts (cat_nodes data) (b_var_node_used single)
           (b_var_cut single) (Value s) in
       ∃ ev,
         solve_on data path mode
         = (ev, Ok (mk_result (to_str st)
                      (Some (NFloat (ObjectiveValue s)))))
         ∧ (to_str st = "OPTIMAL" ∨ to_str st = "FEASIBLE")
         ∧ wrote_file ev = true
         ∧ EWriteJson path (chosen_cuts_json chosen) ∈ ev
         ∧ (∀ p c, EWriteJson p c ∈ ev →
                   p = path ∧ c = chosen_cuts_json chosen))
  ∧ (∀ ub pa0 pa sta sa,
       (String.eqb mode "depth" || String.eqb mode "overall")%bool = true →
       _compute_depth_upper_bound data = Some ub →
       let UB := Z.max ub (len_or_1 (cat_nodes data)) in
       build_model data (Some UB) None = Ok pa0 →
       apply_objective pa0 "depth" = Ok pa →
       Solve params_phase_a (b_model pa) = (sta, sa) →
       is_solved sta = true →
       ∃ Da pb0 pb,
         b_D pa = Some Da
         ∧ build_model data (Some UB) (Some (Value sa Da)) = Ok pb0
         ∧ apply_objective pb0 (tie_mode_of mode) = Ok pb
         ∧ ∀ stb sb,
             Solve params_phase_b (b_model pb) = (stb, sb) →
             let final := if is_solved stb then stb else sta in
             ∃ ev,
               solve_on data path mode
               = (ev, Ok (mk_result (to_str final)
                            (Some (NInt (Value sa Da)))))
               ∧ is_solved final = true
               ∧ (to_str final = "OPTIMAL" ∨ to_str final = "FEASIBLE")
               ∧ wrote_file ev = true).
Proof.
  split; [|split; [|split; [|split]]].
  - intros ev r Hrun.
    pose proof (solve_circuit_on_well_reported data path mode) as Hw.
    rewrite Hrun in Hw. destruct r as [res|e]; [|exact Hw].
    destruct Hw as (st & Hst & Hwf & Hnone). exists st.
    split; [done|]. split; [by rewrite Hwf|].
    split; [intros Hs; rewrite Hst; by apply is_solved_to_str|].
    intros Hs. split; [by apply Hnone|]. by rewrite Hwf.
  - intros single0 single st s Hm Hb Hobj HS Hs.
    unfold solve_circuit_on. rewrite Hm, Hb, io_bind_lift. cbv beta iota.
    rewrite Hobj, io_bind_lift. cbv beta iota. unfold solve_model.
    change (mk_params 0 50 15 false None (Some (5 # 100)%Q) false)
      with params_single.
    rewrite HS. cbv beta iota zeta. rewrite io_bind_print_match, Hs.
    reflexivity.
  - intros ub pa0 pa sta sa Hm Hub UB Hpa0 Hpa HSa Hsa.
    unfold solve_circuit_on. rewrite Hm, Hub, io_bind_lift.
    cbv beta iota zeta. fold UB.
    rewrite io_bind_print_match, Hpa0, io_bind_lift. cbv beta iota.
    rewrite Hpa, io_bind_lift. cbv beta iota. unfold solve_model.
    change (mk_params 1 16 120 false (Some 1) None true) with params_phase_a.
    rewrite HSa. cbv beta iota zeta. rewrite io_bind_print_match, Hsa.
    reflexivity.
  - intros single0 single st s Hm Hb Hobj HS Hs chosen.
    unfold solve_circuit_on. rewrite Hm, Hb, io_bind_lift. cbv beta iota.
    rewrite Hobj, io_bind_lift. cbv beta iota. unfold solve_model.
    change (mk_params 0 50 15 false None (Some (5 # 100)%Q) false)
      with params_single.
    rewrite HS. cbv beta iota zeta. rewrite io_bind_print_match, Hs.
    simpl negb. cbv beta iota. fold chosen.
    match goal with
    | |- context [finish ?a ?b ?c ?d ?e ?f ?g] =>
        destruct (finish_spec a b c d e f g)
          as (evf & Hfin & Hw & Hev & Hin & _)
    end.
    rewrite Hfin. eexists. split; [reflexivity|].
    split; [by apply is_solved_to_str|].
    split; [exact Hw|].
    split; [by right|].
    intros p c Hpc. apply elem_of_cons in Hpc as [Hpc|Hpc]; [done|].
    by apply Hev in Hpc.
  - intros ub pa0 pa sta sa Hm Hub UB Hpa0 Hpa HSa Hsa.
    assert (Hmode : mode = "depth" ∨ mode = "overall").
    { apply orb_true_iff in Hm as [Hm|Hm]; apply String.eqb_eq in Hm; auto. }
    destruct (build_model_spec _ _ _ _ Hpa0)
      as (_ & _ & _ & _ & f1 & dcs & _ & Da & HDa & _).
    destruct (apply_objective_fields _ _ _ Hpa) as (_ & _ & HD & _).
    destruct (build_model_succeeds_again _ _ _ _ (Some UB)
                (Some (Value sa Da)) Hpa0) as [pb0 Hpb0].
    destruct (build_model_spec _ _ _ _ Hpb0)
      as (_ & _ & _ & _ & f1' & dcs' & _ & Db & HDb & _).
    destruct (apply_objective pb0 (tie_mode_of mode)) as [pb|] eqn:Hpb.
    2:{ destruct Hmode as [-> | ->]; discriminate Hpb. }
    destruct (apply_objective_fields _ _ _ Hpb) as (_ & _ & HD' & _).
    exists Da, pb0, pb. split; [congruence|]. split; [done|]. split; [done|].
    intros stb sb HSb final.
    unfold solve_circuit_on. rewrite Hm, Hub.
    rewrite io_bind_lift. cbv beta iota zeta. fold UB.
    rewrite io_bind_print_match, Hpa0, io_bind_lift. cbv beta iota.
    rewrite Hpa, io_bind_lift. cbv beta iota.
    unfold solve_model.
    change (mk_params 1 16 120 false (Some 1) None true) with params_phase_a.
    rewrite HSa. cbv beta iota zeta.
    rewrite io_bind_print_match, Hsa. simpl negb. cbv beta iota.
    rewrite HD, HDa, io_bind_lift. cbv beta iota.
    rewrite io_bind_print_match.
    rewrite Hpb0, io_bind_lift. cbv beta iota.
    change (if (mode =? "depth")%string then "depth_tiebreak_area"
            else "overall_tiebreak") with (tie_mode_of mode).
    rewrite Hpb, io_bind_lift. cbv beta iota.
    change (mk_params 1 16 60 false None None false) with params_phase_b.
    rewrite HSb. cbv beta iota zeta. rewrite io_bind_print_match.
    subst final. destruct (is_solved stb) eqn:Hsb.
    + rewrite HD', HDb, io_bind_lift. cbv beta iota.
      match goal with
      | |- context [finish ?a ?b ?c ?d ?e ?f ?g] =>
          destruct (finish_spec a b c d e f g) as (evf & Hfin & Hw & _)
      end.
      rewrite Hfin. eexists. split; [reflexivity|].
      split; [done|]. split; [by apply is_solved_to_str|]. exact Hw.
    + rewrite io_bind_print_match.
      match goal with
      | |- context [finish ?a ?b ?c ?d ?e ?f ?g] =>
          destruct (finish_spec a b c d e f g) as (evf & Hfin & Hw & _)
      end.
      rewrite Hfin. eexists. split; [reflexivity|].
      split; [done|]. split; [by apply is_solved_to_str|]. exact Hw.
Qed.
End driver_properties.

Lemma C6_phase_b_result_witness :
  ∃ ev : list (@event Z),
    solve_circuit_on (stub_solve FEASIBLE all_ones) stub_str catalog_chain
      "chosen.json" "depth"
    = (ev, Ok (mk_result "FEASIBLE" (Some (NInt 1))))
    ∧ EPrint [AStr "Phase B tie-break objective ="; ANum (NFloat 0)] ∈ ev.
Proof.
  destruct (C6_phase_b_result (stub_solve FEASIBLE all_ones) stub_str
              catalog_chain "chosen.json" "depth" 12
              (built_of (build_model catalog_chain (Some 12) None)))
    as (pa & Da & _ & _ & Ha).
  - left. reflexivity.
  - vm_compute. reflexivity.
  - vm_compute. reflexivity.
  - destruct (Ha FEASIBLE (mk_solver all_ones 0)) as (pb0 & pb & _ & _ & Hb).
    + reflexivity.
    + reflexivity.
    + destruct (Hb FEASIBLE (mk_solver all_ones 0)) as (ev & Hev & _ & _ & Ht).
      * reflexivity.
      * exists ev. split; [exact Hev|exact Ht].
Defined.

Lemma C7_file_written_iff_solved_witness :
  let failed := solve_circuit_on (pyfloat := Z) (stub_solve INFEASIBLE all_ones)
                  stub_str catalog_chain "chosen.json" "area" in
  let solved := solve_circuit_on (pyfloat := Z) (stub_solve OPTIMAL all_ones)
                  stub_str catalog_chain "chosen.json" "area" in
  let deep := solve_circuit_on (pyfloat := Z) (stub_solve FEASIBLE all_ones)
                stub_str catalog_chain "chosen.json" "depth" in
  wrote_file (fst failed) = false
  ∧ match snd failed with
    | Ok res =>
        ∃ st : cp_status,
          status res = _status_to_str stub_str st
          ∧ (wrote_file (fst failed) = true ↔ is_solved st = true)
          ∧ (is_solved st = true →
             status res = "OPTIMAL" ∨ status res = "FEASIBLE")
          ∧ (is_solved st = false →
             objective_value res = None ∧ wrote_file (fst failed) = false)
    | Raise _ => wrote_file (fst failed) = false
    end
  ∧ failed = ([EPrint [AStr "Status: "; AStr "INFEASIBLE"];
               EPrint [AStr "No feasible solution."]],
              Ok (mk_result "INFEASIBLE" None))
  ∧ (∃ ev, solved = (ev, Ok (mk_result "OPTIMAL" (Some (NFloat 0))))
           ∧ wrote_file ev = true
           ∧ EWriteJson "chosen.json"
               (JDict [("chosen_cuts", JDict [("a", JInt 0); ("b", JInt 0)])])
             ∈ ev)
  ∧ (∃ ev, deep = (ev, Ok (mk_result "FEASIBLE" (Some (NInt 1))))
           ∧ wrote_file ev = true)
  ∧ solve_circuit_on (pyfloat := Z) (stub_solve UNKNOWN all_ones) stub_str
      catalog_chain "chosen.json" "overall"
    = ([EPrint [AStr "Using depth upper bound UB = "; ANum (NInt 12)];
        EPrint [AStr "Phase A status: "; AStr "UNKNOWN"];
        EPrint [AStr "No feasible solution in Phase A."]],
       Ok (mk_result "UNKNOWN" None)).
Proof.
  intros failed solved deep.
  split; [vm_compute; reflexivity|]. split; [|split; [|split; [|split]]].
  - apply (proj1 (C7_file_written_iff_solved (stub_solve INFEASIBLE all_ones)
                    stub_str catalog_chain "chosen.json" "area")
             (fst failed) (snd failed)).
    vm_compute. reflexivity.
  - refine (proj1 (proj2 (C7_file_written_iff_solved
                            (stub_solve INFEASIBLE all_ones) stub_str
                            catalog_chain "chosen.json" "area"))
              (built_of (build_model catalog_chain None None))
              (built_of (apply_objective
                           (built_of (build_model catalog_chain None None))
                           "area"))
              INFEASIBLE (mk_solver all_ones 0) _ _ _ _ _);
      vm_compute; reflexivity.
  - destruct (proj1 (proj2 (proj2 (proj2 (C7_file_written_iff_solved
                 (stub_solve OPTIMAL all_ones) stub_str
                 catalog_chain "chosen.json" "area"))))
                (built_of (build_model catalog_chain None None))
                (built_of (apply_objective
                             (built_of (build_model catalog_chain None None))
                             "area"))
                OPTIMAL (mk_solver all_ones 0))
      as (ev & Hrun & _ & Hw & Hin & _);
      [vm_compute; reflexivity ..|].
    exists ev. split; [exact Hrun|]. split; [exact Hw|].
    vm_compute in Hin. exact Hin.
  - destruct (proj2 (proj2 (proj2 (proj2 (C7_file_written_iff_solved
                 (stub_solve FEASIBLE all_ones) stub_str
                 catalog_chain "chosen.json" "depth"))))
                12
                (built_of (build_model catalog_chain (Some 12) None))
                (built_of (apply_objective
                   (built_of (build_model catalog_chain (Some 12) None))
                   "depth"))
                FEASIBLE (mk_solver all_ones 0))
      as (Da & pb0 & pb & HDa & _ & _ & Hb);
      [vm_compute; reflexivity ..|].
    destruct (Hb FEASIBLE (mk_solver all_ones 0)) as (ev & Hrun & _ & _ & Hw).
    + reflexivity.
    + exists ev. split; [exact Hrun|exact Hw].
  - refine (proj1 (proj2 (proj2 (C7_file_written_iff_solved
                            (stub_solve UNKNOWN all_ones) stub_str
                            catalog_chain "chosen.json" "overall")))
              12
              (built_of (build_model catalog_chain (Some 12) None))
              (built_of (apply_objective
                 (built_of (build_model catalog_chain (Some 12) None))
                 "depth"))
              UNKNOWN (mk_solver all_ones 0) _ _ _ _ _ _);
      vm_compute; reflexivity.
Defined.

(* ===================================================================== *)
(** * Further properties of the code *)
(* ===================================================================== *)

(** ** The variables of the model, in order *)

Lemma new_used_vars_layout nds : ∀ d m d' m',
  new_used_vars nds d m = (d', m') →
  variables m' = variables m ++ used_decls nds
  ∧ ∀ n v, d' !! n = Some v →
      d !! n = Some v
      ∨ ∃ j nd, nds !! j = Some nd ∧ nd_name nd = n
                ∧ v = (length (variables m) + j)%nat.
Proof.
  induction nds as [|nd rest IH]; simpl; intros d m d' m' H.
  - inversion H; subst. rewrite app_nil_r. split; [done|]. by left.
  - destruct (NewBoolVar _ m) as [v m1] eqn:Hv.
    apply NewBoolVar_spec in Hv as (Hvl & Hvars & _).
    apply IH in H as (Hvs & Hd).
    split; [by rewrite Hvs, Hvars, <- app_assoc|].
    intros n v0 Hn. apply Hd in Hn as [Hn|(j & nd' & Hj & Hname & Hv0)].
    + destruct (decide (nd_name nd = n)) as [<-|Hne].
      * rewrite lookup_insert_eq in Hn. inversion Hn; subst v0.
        right. exists 0%nat, nd. split; [done|]. split; [done|]. lia.
      * rewrite lookup_insert_ne in Hn by done. by left.
    + right. exists (S j), nd'. split; [done|]. split; [done|].
      rewrite Hv0, Hvars, length_app. simpl. lia.
Qed.

Lemma new_cut_vars_layout n cuts : ∀ i acc cc m acc' cc' m',
  new_cut_vars n i cuts acc cc m = Ok (acc', cc', m') →
  variables m' = variables m ++ map (cut_decl n) (non_self_positions n i cuts).
Proof.
  induction cuts as [|c rest IH]; simpl; intros i acc cc m acc' cc' m' H.
  - inversion H; subst. by rewrite app_nil_r.
  - destruct (cut_leaves c) as [leaves|] eqn:Hl; [|done]. simpl.
    destruct (is_self_cut leaves n) eqn:Hself; [by eapply IH|].
    destruct (NewBoolVar _ m) as [v m1] eqn:Hv.
    apply NewBoolVar_spec in Hv as (Hvl & Hvars & _).
    apply IH in H. rewrite H, Hvars, <- app_assoc. done.
Qed.

Lemma new_all_cut_vars_layout nds : ∀ K vc cc m vc' cc' m',
  new_all_cut_vars nds vc cc m = Ok (vc', cc', m') →
  length (variables m) = (K + cc)%nat →
  (∀ n ci, ci ∈ cuts_of vc n →
     ci_var ci = (K + ci_lex_weight ci)%nat ∧ (ci_lex_weight ci < cc)%nat) →
  variables m' = variables m ++ cut_decls nds
  ∧ cc' = (cc + length (cut_decls nds))%nat
  ∧ ∀ n ci, ci ∈ cuts_of vc' n →
      ci_var ci = (K + ci_lex_weight ci)%nat ∧ (ci_lex_weight ci < cc')%nat.
Proof.
  induction nds as [|nd rest IH]; simpl; intros K vc cc m vc' cc' m' H Hlen Hinv.
  - inversion H; subst. rewrite app_nil_r. split; [done|]. split; [lia|done].
  - destruct (new_cut_vars _ _ _ _ _ _) as [[[cis cc1] m1]|] eqn:Hcuts; [|done].
    pose proof (new_cut_vars_layout _ _ _ _ _ _ _ _ _ Hcuts) as Hvars.
    apply new_cut_vars_spec in Hcuts
      as (_ & _ & new & Hnew & _ & Hpos & Hvs & Hlex & Hcc).
    simpl in Hnew. subst cis.
    assert (Hl : length new
                 = length (non_self_positions (nd_name nd) 0 (nd_cuts nd)))
      by (by rewrite <- Hpos, length_map).
    apply (IH K) in H as (Hv' & Hcc' & Hinv').
    + rewrite Hv', Hvars, <- app_assoc. split; [done|].
      split; [|done]. rewrite Hcc', Hcc, length_app, length_map, Hl. lia.
    + rewrite Hvars, length_app, length_map, <- Hl. lia.
    + intros n ci Hin. unfold cuts_of in Hin.
      destruct (decide (nd_name nd = n)) as [<-|Hne].
      * rewrite lookup_insert_eq in Hin. simpl in Hin.
        apply list_elem_of_lookup in Hin as [j Hj].
        assert (map ci_var new !! j = Some (ci_var ci)) as Hjv
          by (by rewrite list_lookup_fmap, Hj).
        assert (map ci_lex_weight new !! j = Some (ci_lex_weight ci)) as Hjl
          by (by rewrite list_lookup_fmap, Hj).
        rewrite Hvs in Hjv. rewrite Hlex in Hjl.
        apply lookup_seq in Hjv as [-> ?]. apply lookup_seq in Hjl as [-> ?].
        lia.
      * rewrite lookup_insert_ne in Hin by done.
        destruct (Hinv n ci Hin). lia.
Qed.

Lemma new_level_vars_layout nds ub : ∀ d m d' m',
  new_level_vars nds ub d m = (d', m') →
  variables m' = variables m ++ level_decls ub nds
  ∧ ∀ n l, dict_get n d' = Some l →
      dict_get n d = Some l
      ∨ ∃ j nd, nds !! j = Some nd ∧ nd_name nd = n
                ∧ l = (length (variables m) + j)%nat.
Proof.
  induction nds as [|nd rest IH]; simpl; intros d m d' m' H.
  - inversion H; subst. rewrite app_nil_r. split; [done|]. by left.
  - destruct (NewIntVar _ _ _ m) as [v m1] eqn:Hv.
    apply NewIntVar_spec in Hv as (Hvl & Hvars & _).
    apply IH in H as (Hvs & Hd).
    split; [by rewrite Hvs, Hvars, <- app_assoc|].
    intros n l Hn. apply Hd in Hn as [Hn|(j & nd' & Hj & Hname & Hl)].
    + rewrite dict_get_set in Hn. case_decide as Hne.
      * inversion Hn; subst l n.
        right. exists 0%nat, nd. split; [done|]. split; [done|]. lia.
      * by left.
    + right. exists (S j), nd'. split; [done|]. split; [done|].
      rewrite Hl, Hvars, length_app. simpl. lia.
Qed.

(** Everything [build_model] returns, with the variable numbers spelled
    out. *)
Lemma build_model_layout data db fd b :
  build_model data db fd = Ok b →
  let nodes := cat_nodes data in
  let vu := b_var_node_used b in
  let vc := b_var_cut b in
  let n := length nodes in
  let k := length (cut_decls nodes) in
  variables (b_model b)
  = used_decls nodes ++ cut_decls nodes ++ [mk_var 1 1 ""]
    ++ depth_decls nodes db
  ∧ (∀ name v, vu !! name = Some v →
       ∃ nd, nodes !! v = Some nd ∧ nd_name nd = name)
  ∧ (∀ name ci, ci ∈ cuts_of vc name →
       ci_var ci = (n + ci_lex_weight ci)%nat ∧ (ci_lex_weight ci < k)%nat)
  ∧ b_area_terms b
    = map (fun ci => LMul (ci_area_cost ci) (LVar (ci_var ci)))
          (all_cut_infos nodes vc)
  ∧ b_inv_terms b
    = map (fun ci => LMul (ci_inv_cost ci) (LVar (ci_var ci)))
          (all_cut_infos nodes vc)
  ∧ b_original_terms b
    = map (fun ci => LMul (lambda_inv * ci_inv_cost ci
                           + lambda_area * ci_area_cost ci)
                          (LVar (ci_var ci)))
          (all_cut_infos nodes vc)
  ∧ match db with
    | None =>
        b_D b = None ∧ b_level_vars b = []
        ∧ constraints (b_model b)
          = constraints_A nodes vu vc ++ constraints_B nodes vu vc (n + k)%nat
            ++ constraints_roots nodes (cat_outputs data) vu
    | Some ub =>
        let D := (n + k + 1 + n)%nat in
        b_D b = Some D
        ∧ (∀ name l, dict_get name (b_level_vars b) = Some l →
             ∃ j nd, nodes !! j = Some nd ∧ nd_name nd = name
                     ∧ l = (n + k + 1 + j)%nat)
        ∧ constraints (b_model b)
          = constraints_A nodes vu vc ++ constraints_B nodes vu vc (n + k)%nat
            ++ (constraints_inputs (cat_inputs data) (b_level_vars b)
                ++ constraints_levels nodes (cat_inputs data) vu vc
                     (b_level_vars b) (max_depth_bound nodes ub)
                ++ constraints_D (b_level_vars b) D fd)
            ++ constraints_roots nodes (cat_outputs data) vu
    end.
Proof.
  unfold build_model. intros H.
  destruct (new_used_vars (cat_nodes data) ∅ empty_model) as [vu m1] eqn:Hu.
  destruct (new_all_cut_vars (cat_nodes data) ∅ 0 m1)
    as [[[vc cc] m2]|] eqn:Hc; [|done].
  pose proof (new_used_vars_spec _ _ _ _ _ Hu) as (Hu_c & _).
  apply new_used_vars_layout in Hu as (Hu_v & Hu_d).
  simpl in Hu_v, Hu_c.
  assert (Hn1 : length (variables m1) = length (cat_nodes data))
    by (rewrite Hu_v; unfold used_decls; by rewrite length_map).
  pose proof (new_all_cut_vars_spec _ ∅ _ _ _ _ _ _
                ltac:(intros n; by rewrite !lookup_empty) Hc) as (Hc_c & _).
  apply (new_all_cut_vars_layout _ (length (cat_nodes data))) in Hc
    as (Hc_v & Hcc & Hc_i);
    [|lia|intros n ci Hin; unfold cuts_of in Hin;
          rewrite lookup_empty in Hin; by apply elem_of_nil in Hin].
  simpl in Hcc. subst cc.
  destruct (NewConstant 1 _) as [forced_1 m3] eqn:Hf.
  apply NewConstant_spec in Hf as (Hf_n & Hf_v & Hf_c).
  rewrite add_all_variables in Hf_v, Hf_n.
  rewrite add_all_constraints in Hf_c.
  assert (Hf1 : forced_1
                = (length (cat_nodes data) + length (cut_decls (cat_nodes data)))%nat)
    by (rewrite Hf_n, Hc_v, length_app; lia).
  assert (Hused : ∀ name v, vu !! name = Some v →
            ∃ nd, cat_nodes data !! v = Some nd ∧ nd_name nd = name).
  { intros name v Hv. apply Hu_d in Hv as [Hv|(j & nd & Hj & Hname & ->)].
    - by rewrite lookup_empty in Hv.
    - simpl. eauto. }
  destruct db as [ub|].
  - destruct (new_level_vars _ _ [] _) as [lv m4] eqn:Hl.
    pose proof (new_level_vars_spec _ _ _ _ _ _ Hl) as (Hl_c & _).
    apply new_level_vars_layout in Hl as (Hl_v & Hl_d).
    rewrite add_all_variables in Hl_v, Hl_d.
    rewrite add_all_constraints in Hl_c.
    destruct (NewIntVar 0 _ "D" m4) as [D m5] eqn:HD.
    apply NewIntVar_spec in HD as (HD_n & HD_v & HD_c).
    assert (Hn3 : length (variables m3)
                  = (length (cat_nodes data)
                     + length (cut_decls (cat_nodes data)) + 1)%nat).
    { rewrite Hf_v, length_app. simpl. lia. }
    assert (HDn : D = (length (cat_nodes data)
                       + length (cut_decls (cat_nodes data)) + 1
                       + length (cat_nodes data))%nat).
    { rewrite HD_n, Hl_v, length_app. unfold level_decls.
      rewrite length_map. lia. }
    inversion H; subst b; clear H. cbn [b_model b_var_node_used b_var_cut b_D
      b_area_terms b_inv_terms b_original_terms b_level_vars]. cbv zeta.
    split.
    { rewrite !add_all_variables, HD_v, Hl_v, Hf_v, Hc_v, Hu_v.
      unfold depth_decls, max_depth_bound. rewrite <- !app_assoc. done. }
    split; [done|]. split; [done|]. split; [done|]. split; [done|].
    split; [done|].
    split; [by rewrite <- HDn|].
    split.
    { intros name l Hget. apply Hl_d in Hget as [?|(j & nd & ? & ? & ->)];
        [done|]. exists j, nd. rewrite Hn3. done. }
    rewrite <- HDn, <- Hf1.
    rewrite !add_all_constraints, HD_c, Hl_c, Hf_c, Hc_c, Hu_c.
    rewrite <- !app_assoc. reflexivity.
  - inversion H; subst b; clear H. cbn [b_model b_var_node_used b_var_cut b_D
      b_area_terms b_inv_terms b_original_terms b_level_vars]. cbv zeta.
    split.
    { rewrite !add_all_variables, Hf_v, Hc_v, Hu_v. simpl.
      rewrite <- !app_assoc. done. }
    split; [done|]. split; [done|]. split; [done|]. split; [done|].
    split; [done|]. split; [done|]. split; [done|].
    rewrite <- Hf1. rewrite !add_all_constraints, Hf_c, Hc_c, Hu_c.
    rewrite <- !app_assoc. reflexivity.
Qed.

Lemma new_cut_vars_names n cuts : ∀ i acc cc m acc' cc' m',
  new_cut_vars n i cuts acc cc m = Ok (acc', cc', m') →
  ∃ new, acc' = acc ++ new
    ∧ Forall (fun ci =>
        variables m' !! ci_var ci = Some (cut_decl n (ci_cut_index ci))) new.
Proof.
  intros i acc cc m acc' cc' m' H.
  pose proof (new_cut_vars_layout _ _ _ _ _ _ _ _ _ H) as Hvars.
  apply new_cut_vars_spec in H
    as (_ & _ & new & Hnew & _ & Hpos & Hvs & _).
  exists new. split; [done|]. apply Forall_forall. intros ci Hin.
  apply list_elem_of_lookup in Hin as [j Hj].
  assert (map ci_var new !! j = Some (ci_var ci)) as Hjv
    by (by rewrite list_lookup_fmap, Hj).
  assert (map ci_cut_index new !! j = Some (ci_cut_index ci)) as Hji
    by (by rewrite list_lookup_fmap, Hj).
  rewrite Hvs in Hjv. rewrite Hpos in Hji.
  apply lookup_seq in Hjv as [-> _].
  rewrite Hvars, lookup_app_r by lia.
  replace (length (variables m) + j - length (variables m))%nat with j by lia.
  by rewrite list_lookup_fmap, Hji.
Qed.

Lemma new_all_cut_vars_names nds : ∀ vc cc m vc' cc' m',
  new_all_cut_vars nds vc cc m = Ok (vc', cc', m') →
  (∀ n ci, ci ∈ cuts_of vc n →
     variables m !! ci_var ci = Some (cut_decl n (ci_cut_index ci))) →
  ∀ n ci, ci ∈ cuts_of vc' n →
    variables m' !! ci_var ci = Some (cut_decl n (ci_cut_index ci)).
Proof.
  induction nds as [|nd rest IH]; simpl; intros vc cc m vc' cc' m' H Hinv.
  - inversion H; subst. done.
  - destruct (new_cut_vars _ _ _ _ _ _) as [[[cis cc1] m1]|] eqn:Hcuts; [|done].
    pose proof (new_cut_vars_layout _ _ _ _ _ _ _ _ _ Hcuts) as Hvars.
    apply new_cut_vars_names in Hcuts as (new & Hnew & Hall).
    simpl in Hnew. subst cis.
    eapply IH; [exact H|].
    intros n ci Hin. unfold cuts_of in Hin.
    destruct (decide (nd_name nd = n)) as [<-|Hne].
    + rewrite lookup_insert_eq in Hin. simpl in Hin.
      rewrite Forall_forall in Hall. by apply Hall.
    + rewrite lookup_insert_ne in Hin by done.
      rewrite Hvars. apply lookup_app_l_Some. by apply Hinv.
Qed.

(** The declaration behind every variable the builder hands out. *)
Lemma build_model_decls data db fd b :
  build_model data db fd = Ok b →
  let nodes := cat_nodes data in
  (∀ name v, b_var_node_used b !! name = Some v →
     variables (b_model b) !! v = Some (mk_var 0 1 ("used_" +:+ name)))
  ∧ (∀ name ci, ci ∈ cuts_of (b_var_cut b) name →
       variables (b_model b) !! ci_var ci
       = Some (cut_decl name (ci_cut_index ci)))
  ∧ variables (b_model b) !! (length nodes + length (cut_decls nodes))%nat
    = Some (mk_var 1 1 "")
  ∧ ∀ ub, db = Some ub →
      (∀ name l, dict_get name (b_level_vars b) = Some l →
         variables (b_model b) !! l
         = Some (mk_var 0 (max_depth_bound nodes ub) ("L_" +:+ name)))
      ∧ ∀ D, b_D b = Some D →
          variables (b_model b) !! D
          = Some (mk_var 0 (max_depth_bound nodes ub) "D").
Proof.
  intros Hb nodes.
  destruct (build_model_layout _ _ _ _ Hb)
    as (Hvars & Hused & Hcuts & _ & _ & _ & Hdepth).
  fold nodes in Hvars, Hused, Hcuts, Hdepth.
  assert (Hlu : length (used_decls nodes) = length nodes)
    by (unfold used_decls; by rewrite length_map).
  split; [|split; [|split]].
  - intros name v Hv. apply Hused in Hv as (nd & Hnd & <-).
    rewrite Hvars. apply lookup_app_l_Some. unfold used_decls.
    by rewrite list_lookup_fmap, Hnd.
  - intros name ci Hin. revert Hb. unfold build_model.
    destruct (new_used_vars (cat_nodes data) ∅ empty_model) as [vu m1] eqn:Hu.
    destruct (new_all_cut_vars (cat_nodes data) ∅ 0 m1)
      as [[[vc cc] m2]|] eqn:Hc; [|done].
    pose proof (new_all_cut_vars_names _ _ _ _ _ _ _ Hc) as Hnames.
    apply new_used_vars_layout in Hu as (Hu_v & _).
    apply (new_all_cut_vars_layout _ (length (cat_nodes data))) in Hc
      as (Hc_v & _ & _);
      [|rewrite Hu_v; simpl; unfold used_decls; rewrite length_map; lia
       |intros n0 ci0 Hin0; unfold cuts_of in Hin0;
          rewrite lookup_empty in Hin0; by apply elem_of_nil in Hin0].
    simpl in Hu_v. rewrite Hu_v in Hc_v.
    destruct (NewConstant 1 _) as [forced_1 m3].
    assert (Hvc : b_var_cut b = vc → 
              variables (b_model b) !! ci_var ci
              = Some (cut_decl name (ci_cut_index ci))).
    { intros Hvc. rewrite Hvc in Hin. rewrite Hvars.
      fold nodes in Hc_v. rewrite app_assoc, <- Hc_v.
      apply lookup_app_l_Some. apply Hnames; [|done].
      intros n0 ci0 Hin0. unfold cuts_of in Hin0.
      rewrite lookup_empty in Hin0. by apply elem_of_nil in Hin0. }
    destruct db as [ub|].
    + destruct (new_level_vars _ _ _ _) as [lv m4].
      destruct (NewIntVar _ _ _ m4) as [D m5].
      intros H. inversion H; subst b. by apply Hvc.
    + intros H. inversion H; subst b. by apply Hvc.
  - rewrite Hvars, lookup_app_r by lia. rewrite Hlu.
    replace (_ + _ - _)%nat with (length (cut_decls nodes)) by lia.
    rewrite lookup_app_r by lia. by rewrite Nat.sub_diag.
  - intros ub ->. destruct Hdepth as (HD & Hlv & _).
    assert (Hskip : ∀ j,
      variables (b_model b)
        !! (length nodes + length (cut_decls nodes) + 1 + j)%nat
      = (level_decls (max_depth_bound nodes ub) nodes
         ++ [mk_var 0 (max_depth_bound nodes ub) "D"]) !! j).
    { intros j. rewrite Hvars, lookup_app_r by lia. rewrite Hlu.
      replace (_ + _ + 1 + j - _)%nat
        with (length (cut_decls nodes) + 1 + j)%nat by lia.
      rewrite lookup_app_r by lia.
      replace (_ + 1 + j - _)%nat with (S j) by lia. done. }
    split.
    + intros name l Hl. apply Hlv in Hl as (j & nd & Hj & <- & ->).
      rewrite Hskip. apply lookup_app_l_Some. unfold level_decls.
      by rewrite list_lookup_fmap, Hj.
    + intros D HD'. rewrite HD in HD'. inversion HD'; subst D.
      rewrite Hskip, lookup_app_r
        by (unfold level_decls; rewrite length_map; lia).
      unfold level_decls. by rewrite length_map, Nat.sub_diag.
Qed.

(** ** When [build_model] raises *)

Lemma new_cut_vars_result n cuts : ∀ i acc cc m,
  (Exists (fun c => cut_leaves c = None) cuts
   ∧ new_cut_vars n i cuts acc cc m = Raise KeyError)
  ∨ (Forall (fun c => is_Some (cut_leaves c)) cuts
     ∧ ∃ r, new_cut_vars n i cuts acc cc m = Ok r).
Proof.
  induction cuts as [|c rest IH]; intros i acc cc m; simpl.
  - right. split; [constructor|eauto].
  - destruct (cut_leaves c) as [leaves|] eqn:Hl.
    + simpl. destruct (is_self_cut leaves n).
      * destruct (IH (S i) acc cc m) as [[Hex Hr]|[Hall Hr]].
        -- left. split; [by apply Exists_cons_tl|done].
        -- right. split; [constructor; [by rewrite Hl|done]|done].
      * destruct (NewBoolVar _ m) as [v m1].
        match goal with
        | |- context [new_cut_vars n (S i) rest ?a ?c ?m'] =>
            destruct (IH (S i) a c m') as [[Hex Hr]|[Hall Hr]]
        end.
        -- left. split; [by apply Exists_cons_tl|done].
        -- right. split; [constructor; [by rewrite Hl|done]|done].
    + left. split; [by apply Exists_cons_hd|done].
Qed.

Lemma new_all_cut_vars_result nds : ∀ vc cc m,
  (Exists (fun nd => Exists (fun c => cut_leaves c = None) (nd_cuts nd)) nds
   ∧ new_all_cut_vars nds vc cc m = Raise KeyError)
  ∨ (Forall (fun nd => Forall (fun c => is_Some (cut_leaves c)) (nd_cuts nd))
            nds
     ∧ ∃ r, new_all_cut_vars nds vc cc m = Ok r).
Proof.
  induction nds as [|nd rest IH]; intros vc cc m; simpl.
  - right. split; [constructor|eauto].
  - destruct (new_cut_vars_result (nd_name nd) (nd_cuts nd) 0 [] cc m)
      as [[Hex ->]|[Hall [[[cis cc1] m1] ->]]].
    + left. split; [by apply Exists_cons_hd|done].
    + destruct (IH (<[nd_name nd := cis]> vc) cc1 m1) as [[Hex Hr]|[Hall' Hr]].
      * left. split; [by apply Exists_cons_tl|done].
      * right. split; [by constructor|done].
Qed.

Lemma lacks_leaves_Exists data :
  lacks_leaves data
  ↔ Exists (fun nd => Exists (fun c => cut_leaves c = None) (nd_cuts nd))
           (cat_nodes data).
Proof.
  unfold lacks_leaves. rewrite Exists_exists. split.
  - intros (nd & c & Hnd & Hc & Hl). exists nd. split; [done|].
    apply Exists_exists. eauto.
  - intros (nd & Hnd & Hex). apply Exists_exists in Hex as (c & Hc & Hl).
    eauto.
Qed.

Lemma build_model_result data db fd :
  (lacks_leaves data ∧ build_model data db fd = Raise KeyError)
  ∨ (¬ lacks_leaves data ∧ ∃ b, build_model data db fd = Ok b).
Proof.
  unfold build_model.
  destruct (new_used_vars (cat_nodes data) ∅ empty_model) as [vu m1].
  destruct (new_all_cut_vars_result (cat_nodes data) ∅ 0 m1)
    as [[Hex ->]|[Hall [[[vc cc] m2] ->]]].
  - left. split; [by apply lacks_leaves_Exists|done].
  - right. split.
    + intros (nd & c & Hnd & Hc & Hl).
      rewrite Forall_forall in Hall. specialize (Hall nd Hnd).
      rewrite Forall_forall in Hall. specialize (Hall c Hc).
      rewrite Hl in Hall. by destruct Hall.
    + destruct (NewConstant 1 _) as [f1 m3].
      destruct db as [ub|]; [|eauto].
      destruct (new_level_vars _ _ _ _) as [lv m4].
      destruct (NewIntVar _ _ _ m4) as [D m5]. eauto.
Qed.

(** X1.  On catalogs of the shape of section 6.1 (every node with a name
    and a cuts array), a cut record without a leaves key makes [build_model]
    raise KeyError, whatever the costs and the depth settings: the loop
    that reads the leaves comes before every integer handed to the solver.
    Where those integers are in range ([small_costs],
    [depth_settings_in_range]), that is the only way [build_model] fails:
    it raises exactly when some cut record has no leaves key, always
    KeyError, and on every other catalog it returns a model. *)
Theorem build_model_raises_iff_leaves_missing (data : catalog)
    (db fd : option Z) :
  (lacks_leaves data → build_model data db fd = Raise KeyError)
  ∧ (small_costs data = true →
     depth_settings_in_range (cat_nodes data) db fd = true →
     (build_model data db fd = Raise KeyError ↔ lacks_leaves data)
     ∧ ((∃ b, build_model data db fd = Ok b) ↔ ¬ lacks_leaves data)
     ∧ (∀ e, build_model data db fd = Raise e → e = KeyError)).
Proof.
  destruct (build_model_result data db fd) as [[Hl Hr]|[Hl [b Hr]]].
  - split; [done|]. intros _ _. split; [by split|]. split.
    + split; [intros [b Hb]; congruence|done].
    + intros e He. congruence.
  - split; [done|]. intros _ _. split; [split; [congruence|done]|]. split.
    + split; [done|eauto].
    + intros e He. congruence.
Qed.

Lemma build_model_raises_iff_leaves_missing_witness :
  (∃ b, build_model catalog_chain (Some 3) None = Ok b)
  ∧ build_model
      (mk_catalog [mk_node "a" [lifted ["x"]; mk_cut None (Some 1) None None]]
                  ["a"] [])
      None None
    = Raise KeyError.
Proof.
  split.
  - refine (proj2 (proj1 (proj2 (proj2 (build_model_raises_iff_leaves_missing
              catalog_chain (Some 3) None) _ _))) _).
    { reflexivity. }
    { reflexivity. }
    intros (nd & c & Hnd & Hc & Hl).
    apply list_elem_of_In in Hnd. simpl in Hnd.
    destruct Hnd as [<-|[<-|[]]]; apply list_elem_of_In in Hc; simpl in Hc;
      destruct Hc as [<-|[]]; discriminate Hl.
  - apply (proj1 (build_model_raises_iff_leaves_missing
             (mk_catalog
                [mk_node "a" [lifted ["x"]; mk_cut None (Some 1) None None]]
                ["a"] [])
             None None)).
    exists (mk_node "a" [lifted ["x"]; mk_cut None (Some 1) None None]),
      (mk_cut None (Some 1) None None).
    split; [left|]. split; [right; left|reflexivity].
Defined.

(** ** The variables of the model *)

(** X2.  The variables of a built model are, in order of creation: one
    Boolean used_<name> per node; one Boolean cut_<node>_<i> per cut that is
    not a self-cut, i being the position of the cut in the cuts array of its
    node; the constant 1; and, with a depth bound, one level L_<name> per
    node and then D, all in [0, max_depth_bound].  An entry of var_cut has
    the variable number len(nodes) + lex_weight, so lex_weight is the rank
    of the cut among all cut variables, and the variable it holds is the one
    named after its node and cut_index. *)
Theorem build_model_variables (data : catalog) (db fd : option Z)
    (b : built) :
  build_model data db fd = Ok b →
  let nodes := cat_nodes data in
  let n := length nodes in
  let k := length (cut_decls nodes) in
  variables (b_model b)
  = used_decls nodes ++ cut_decls nodes ++ [mk_var 1 1 ""]
    ++ depth_decls nodes db
  ∧ (∀ name v, b_var_node_used b !! name = Some v →
       (v < n)%nat
       ∧ variables (b_model b) !! v = Some (mk_var 0 1 ("used_" +:+ name)))
  ∧ (∀ name ci, ci ∈ cuts_of (b_var_cut b) name →
       ci_var ci = (n + ci_lex_weight ci)%nat ∧ (ci_lex_weight ci < k)%nat
       ∧ variables (b_model b) !! ci_var ci
         = Some (cut_decl name (ci_cut_index ci)))
  ∧ b_D b = match db with
            | Some _ => Some (n + k + 1 + n)%nat
            | None => None
            end.
Proof.
  intros Hb nodes n k.
  destruct (build_model_layout _ _ _ _ Hb)
    as (Hvars & Hused & Hcuts & _ & _ & _ & Hdepth).
  destruct (build_model_decls _ _ _ _ Hb) as (Hdu & Hdc & _).
  split; [exact Hvars|]. split; [|split].
  - intros name v Hv. split; [|by apply Hdu].
    destruct (Hused name v Hv) as (nd & Hnd & _).
    by apply lookup_lt_Some in Hnd.
  - intros name ci Hin. destruct (Hcuts name ci Hin).
    split; [done|]. split; [done|]. by apply Hdc.
  - destruct db as [ub|]; [by destruct Hdepth|by destruct Hdepth].
Qed.

Lemma build_model_variables_witness :
  let b := built_of (build_model catalog_self_cut (Some 4) None) in
  variables (b_model b)
  = [mk_var 0 1 "used_a"; mk_var 0 1 "cut_a_1"; mk_var 1 1 "";
     mk_var 0 4 "L_a"; mk_var 0 4 "D"]
  ∧ b_D b = Some 4%nat.
Proof.
  intros b.
  pose proof (build_model_variables catalog_self_cut (Some 4) None b) as H.
  destruct H as (Hv & _ & _ & HD); [vm_compute; reflexivity|].
  split; [exact Hv|exact HD].
Defined.

(** ** Levels in a depth-enabled model *)

Lemma dict_get_elem {V} (k : string) (v : V) (d : pydict V) :
  dict_get k d = Some v → (k, v) ∈ d.
Proof.
  induction d as [|[k' v'] d IH]; simpl; [done|].
  destruct (String.eqb_spec k k') as [->|Hne].
  - intros H. inversion H. left.
  - intros H. right. by apply IH.
Qed.

Lemma max_depth_bound_pos nodes ub : 1 ≤ max_depth_bound nodes ub.
Proof. unfold max_depth_bound. lia. Qed.

(** What the level constraints say under a solution. *)
Lemma depth_model_facts data ub fd b val :
  build_model data (Some ub) fd = Ok b →
  feasible val (b_model b) = true →
  let nodes := cat_nodes data in
  let M := max_depth_bound nodes ub in
  let lv := b_level_vars b in
  ∃ D, b_D b = Some D ∧ 0 ≤ val D ≤ M ∧ (∀ d, fd = Some d → val D = d)
    ∧ ∀ nd, nd ∈ nodes →
        ∃ l u, dict_get (nd_name nd) lv = Some l
          ∧ b_var_node_used b !! nd_name nd = Some u
          ∧ (val u = 0 ∨ val u = 1)
          ∧ 0 ≤ val l ≤ M ∧ val l ≤ M * val u ∧ val l ≤ val D
          ∧ (nd_name nd ∉ cat_inputs data → val u ≤ val l)
          ∧ (nd_name nd ∈ cat_inputs data → val l = 0)
          ∧ ∀ ci leaf,
              ci ∈ cuts_of (b_var_cut b) (nd_name nd) →
              leaf ∈ ci_leaves ci → leaf ∈ map nd_name nodes →
              ∃ ll, dict_get leaf lv = Some ll
                ∧ val ll + or_1 (ci_depth_cost ci)
                  - M * (1 - val (ci_var ci)) ≤ val l.
Proof.
  intros Hb Hf nodes M lv.
  pose proof (feasible_spec _ _ Hf) as [Hdom Hall].
  destruct (build_model_spec _ _ _ _ Hb)
    as (_ & Hused & _ & _ & f1 & dcs & Hcs & D & HD & Hlv & Hdcs).
  destruct (build_model_decls _ _ _ _ Hb) as (_ & _ & _ & Hdecl).
  destruct (Hdecl ub eq_refl) as (Hdl & HdD).
  fold nodes M lv in Hlv, Hdcs, Hdl, HdD, Hused.
  assert (Hin_dcs : ∀ c, c ∈ dcs → holds val c = true).
  { intros c Hc. apply Hall. rewrite Hcs, !elem_of_app. auto. }
  exists D. split; [done|].
  pose proof (domains_ok_lookup _ _ _ _ Hdom (HdD D HD)) as HDdom.
  simpl in HDdom. split; [done|]. split.
  { intros d ->.
    assert (CEq (LVar D) (LConst d) ∈ dcs) as Hc.
    { rewrite Hdcs, !elem_of_app. right. right. unfold constraints_D.
      rewrite elem_of_app. right. left. }
    apply Hin_dcs in Hc. simpl in Hc. by apply Z.eqb_eq in Hc. }
  intros nd Hnd.
  assert (Hname : nd_name nd ∈ map nd_name nodes)
    by (apply list_elem_of_fmap; eauto).
  destruct (Hlv _ Hname) as [l Hl].
  destruct (Hused _ Hname) as (u & Hu & Hbu).
  exists l, u. split; [done|]. split; [done|].
  pose proof (bool_var_value _ _ _ Hdom Hbu) as Hu01. split; [done|].
  pose proof (domains_ok_lookup _ _ _ _ Hdom (Hdl _ _ Hl)) as Hldom.
  simpl in Hldom. split; [done|].
  assert (Hnode : ∀ c, c ∈ constraints_node_level (cat_inputs data)
                            (b_var_node_used b) (b_var_cut b) lv M nd →
                       holds val c = true).
  { intros c Hc. apply Hin_dcs. rewrite Hdcs, !elem_of_app. right. left.
    unfold constraints_levels. apply list_elem_of_In, in_flat_map.
    exists nd. split; by apply list_elem_of_In. }
  unfold constraints_node_level in Hnode. rewrite Hl in Hnode.
  unfold used_of in Hnode. rewrite Hu in Hnode. simpl default in Hnode.
  split.
  { specialize (Hnode (CLe (LVar l) (LMul M (LVar u)))).
    simpl in Hnode. apply Z.leb_le. apply Hnode. left. }
  split.
  { assert (CGe (LVar D) (LVar l) ∈ dcs) as Hc.
    { rewrite Hdcs, !elem_of_app. right. right. unfold constraints_D.
      rewrite elem_of_app. left.
      apply (list_elem_of_fmap_2 (fun kv => CGe (LVar D) (LVar (snd kv)))
               lv (nd_name nd, l)).
      by apply dict_get_elem. }
    apply Hin_dcs in Hc. simpl in Hc. by apply Z.leb_le in Hc. }
  split.
  { intros Hni. specialize (Hnode (CGe (LVar l) (LVar u))).
    simpl in Hnode. apply Z.leb_le. apply Hnode.
    right. rewrite decide_False by done. left. }
  split.
  { intros Hi.
    assert (CEq (LVar l) (LConst 0) ∈ dcs) as Hc.
    { rewrite Hdcs, !elem_of_app. left. unfold constraints_inputs.
      apply list_elem_of_In, in_flat_map. exists (nd_name nd).
      split; [by apply list_elem_of_In|]. fold lv. rewrite Hl. by left. }
    apply Hin_dcs in Hc. simpl in Hc. by apply Z.eqb_eq in Hc. }
  intros ci leaf Hci Hleaf Hlname.
  destruct (level_constraint_posted _ _ _ _ _ _ _ Hb Hnd Hci Hleaf Hlname)
    as (l' & ll & Hl' & Hll & Hc).
  fold lv in Hl', Hll. rewrite Hl in Hl'. inversion Hl'; subst l'.
  exists ll. split; [done|].
  apply Hall in Hc. cbn [holds eval] in Hc. apply Z.leb_le in Hc.
  fold (max_depth_bound (cat_nodes data) ub) in Hc. fold nodes in Hc.
  fold M in Hc. lia.
Qed.

(** X3.  In every solution of a depth-enabled model: D lies in
    [0, max_depth_bound] and equals fix_depth when one is given; the level
    of every node lies between 0 and D; a node that is not used has level
    0, a used node that is not a declared input has level at least 1, a
    declared input has level 0; and the node of a chosen cut lies at least
    the step of the cut (depth_cost or 1) above every leaf of the cut that
    is a catalog node. *)
Theorem levels_in_solution (data : catalog) (ub : Z) (fd : option Z)
    (b : built) (val : var → Z) :
  build_model data (Some ub) fd = Ok b →
  feasible val (b_model b) = true →
  let nodes := cat_nodes data in
  let M := max_depth_bound nodes ub in
  let L := level_of (b_level_vars b) val in
  let used n := val (used_of (b_var_node_used b) n) in
  ∃ D, b_D b = Some D ∧ 0 ≤ val D ≤ M ∧ (∀ d, fd = Some d → val D = d)
    ∧ ∀ nd, nd ∈ nodes →
        let n := nd_name nd in
        0 ≤ L n ≤ val D
        ∧ (used n = 0 → L n = 0)
        ∧ (used n = 1 → n ∉ cat_inputs data → 1 ≤ L n)
        ∧ (n ∈ cat_inputs data → L n = 0)
        ∧ ∀ ci leaf,
            ci ∈ cuts_of (b_var_cut b) n → val (ci_var ci) = 1 →
            leaf ∈ ci_leaves ci → leaf ∈ map nd_name nodes →
            L leaf + or_1 (ci_depth_cost ci) ≤ L n.
Proof.
  intros Hb Hf nodes M L used.
  destruct (depth_model_facts _ _ _ _ _ Hb Hf) as (D & HD & HDr & Hfd & Hn).
  exists D. split; [done|]. split; [done|]. split; [done|].
  intros nd Hnd n.
  destruct (Hn nd Hnd)
    as (l & u & Hl & Hu & Hu01 & Hlr & HlM & HlD & Hni & Hi & Hcut).
  assert (HL : L n = val l) by (unfold L, level_of, n; by rewrite Hl).
  assert (HU : used n = val u) by (unfold used, used_of, n; by rewrite Hu).
  rewrite HL, HU. split; [lia|]. split; [nia|].
  split; [intros H1 H2; specialize (Hni H2); lia|].
  split; [done|].
  intros ci leaf Hci Hv Hleaf Hname.
  destruct (Hcut ci leaf Hci Hleaf Hname) as (ll & Hll & Hc).
  unfold L at 1, level_of. rewrite Hll. simpl. rewrite Hv in Hc. lia.
Qed.

Lemma levels_in_solution_witness :
  let b := built_of (build_model catalog_chain (Some 12) (Some 2)) in
  let val := val_of [1; 1; 1; 1; 1; 1; 2; 2] in
  ∃ D, b_D b = Some D ∧ 0 ≤ val D ≤ 12 ∧ val D = 2.
Proof.
  intros b val.
  destruct (levels_in_solution catalog_chain 12 (Some 2) b val)
    as (D & HD & Hr & Hfd & _).
  - vm_compute. reflexivity.
  - vm_compute. reflexivity.
  - exists D. split; [exact HD|]. split; [exact Hr|]. by apply Hfd.
Defined.

(** X4.  In every solution of a depth-enabled model the levels fall along
    chosen cuts: on a path from node n to node n' through leaves of chosen
    cuts, the steps of the cuts add up to at most level[n] - level[n'],
    hence to at most D, which is at most max_depth_bound.  A path that
    returns to its start has steps adding up to at most 0, so with positive
    depth costs the chosen cuts contain no cycle. *)
Theorem chosen_paths_bounded_by_depth (data : catalog) (ub : Z)
    (fd : option Z) (b : built) (val : var → Z) (D : var) (n n' : string)
    (c : Z) :
  build_model data (Some ub) fd = Ok b →
  feasible val (b_model b) = true →
  b_D b = Some D →
  chosen_path (cat_nodes data) (b_var_cut b) val n n' c →
  let L := level_of (b_level_vars b) val in
  L n' + c ≤ L n
  ∧ c ≤ val D ∧ val D ≤ max_depth_bound (cat_nodes data) ub
  ∧ (n = n' → c ≤ 0).
Proof.
  intros Hb Hf HD Hpath L.
  destruct (depth_model_facts _ _ _ _ _ Hb Hf)
    as (D' & HD' & HDr & _ & Hn).
  rewrite HD in HD'. inversion HD'; subst D'.
  assert (Hlevel : ∀ x, x ∈ map nd_name (cat_nodes data) →
            0 ≤ L x ≤ val D).
  { intros x Hx. apply list_elem_of_fmap in Hx as (nd & -> & Hnd).
    destruct (Hn nd Hnd) as (l & u & Hl & _ & _ & Hlr & _ & HlD & _).
    unfold L, level_of. rewrite Hl. simpl. lia. }
  assert (Hfall : L n' + c ≤ L n ∧ n ∈ map nd_name (cat_nodes data)
                  ∧ n' ∈ map nd_name (cat_nodes data)).
  { induction Hpath as [x Hx|x ci leaf x' c' Hx Hci Hv Hleaf Hp IH].
    - split; [lia|done].
    - destruct IH as (IH & Hleafn & Hx'n). split; [|done].
      apply list_elem_of_fmap in Hx as (nd & -> & Hnd).
      destruct (Hn nd Hnd) as (l & u & Hl & _ & _ & _ & _ & _ & _ & _ & Hcut).
      destruct (Hcut ci leaf Hci Hleaf Hleafn) as (ll & Hll & Hc).
      unfold L, level_of in *. rewrite Hl. rewrite Hll in IH. simpl in *.
      rewrite Hv in Hc. lia. }
  destruct Hfall as (Hfall & Hnn & Hn'n).
  pose proof (Hlevel n Hnn). pose proof (Hlevel n' Hn'n).
  split; [done|]. split; [lia|]. split; [lia|].
  intros <-. lia.
Qed.

Lemma chosen_paths_bounded_by_depth_witness :
  let b := built_of (build_model catalog_chain (Some 12) None) in
  let val := val_of [1; 1; 1; 1; 1; 1; 2; 2] in
  level_of (b_level_vars b) val "a" + (1 + 0)
  ≤ level_of (b_level_vars b) val "b".
Proof.
  intros b val.
  refine (proj1 (chosen_paths_bounded_by_depth catalog_chain 12 None b val
                   7%nat "b" "a" (or_1 1 + 0) _ _ _ _)).
  - vm_compute. reflexivity.
  - vm_compute. reflexivity.
  - vm_compute. reflexivity.
  - apply (path_step _ _ _ "b" (mk_ci 3 ["a"] 0 1 1 1 0) "a" "a" 0).
    + simpl. right. left.
    + vm_compute. left.
    + reflexivity.
    + simpl. left.
    + apply path_here. simpl. left.
Defined.

(** X5.  The big-M of the level constraints binds cuts that are not chosen
    too: in every solution of a depth-enabled model, every cut with a
    variable, chosen or not, whose leaf is a catalog node has a step of at
    most M * (1 + used[node] - chosen), M being max_depth_bound.  So a
    catalog holding such a cut with a step above 2 * M has no solution at
    all in the depth modes. *)
Theorem big_m_binds_unchosen_cuts (data : catalog) (ub : Z) (fd : option Z)
    (b : built) (nd : node) (ci : cut_info) (leaf : string) :
  build_model data (Some ub) fd = Ok b →
  nd ∈ cat_nodes data →
  ci ∈ cuts_of (b_var_cut b) (nd_name nd) →
  leaf ∈ ci_leaves ci → leaf ∈ map nd_name (cat_nodes data) →
  let M := max_depth_bound (cat_nodes data) ub in
  (∀ val, feasible val (b_model b) = true →
     or_1 (ci_depth_cost ci)
     ≤ M * (1 + val (used_of (b_var_node_used b) (nd_name nd))
            - val (ci_var ci)))
  ∧ (2 * M < or_1 (ci_depth_cost ci) →
     ∀ val, feasible val (b_model b) = false).
Proof.
  intros Hb Hnd Hci Hleaf Hname M.
  assert (Hbound : ∀ val, feasible val (b_model b) = true →
     or_1 (ci_depth_cost ci)
     ≤ M * (1 + val (used_of (b_var_node_used b) (nd_name nd))
            - val (ci_var ci))
     ∧ (val (used_of (b_var_node_used b) (nd_name nd)) ≤ 1)
     ∧ 0 ≤ val (ci_var ci)).
  { intros val Hf.
    destruct (depth_model_facts _ _ _ _ _ Hb Hf) as (D & _ & _ & _ & Hn).
    destruct (Hn nd Hnd)
      as (l & u & Hl & Hu & Hu01 & Hlr & HlM & _ & _ & _ & Hcut).
    destruct (Hcut ci leaf Hci Hleaf Hname) as (ll & Hll & Hc).
    apply list_elem_of_fmap in Hname as (ndl & Hnl & Hndl).
    destruct (Hn ndl Hndl) as (l' & _ & Hl' & _ & _ & Hlr' & _).
    rewrite <- Hnl, Hll in Hl'. inversion Hl'; subst l'.
    destruct (build_model_spec _ _ _ _ Hb) as (Hok & _).
    destruct (cuts_of_entries _ _ _ _ _ Hok Hci) as (_ & _ & _ & Hbv & _).
    pose proof (feasible_spec _ _ Hf) as [Hdom _].
    pose proof (bool_var_value _ _ _ Hdom Hbv) as Hc01.
    unfold used_of. rewrite Hu. simpl. fold M in Hc, HlM, Hlr.
    split; [lia|]. split; lia. }
  split; [intros val Hf; by apply Hbound|].
  intros Hbig val. destruct (feasible val (b_model b)) eqn:Hf; [|done].
  destruct (Hbound val Hf) as (H1 & H2 & H3).
  pose proof (max_depth_bound_pos (cat_nodes data) ub). fold M in H. nia.
Qed.

Lemma big_m_binds_unchosen_cuts_witness :
  _compute_depth_upper_bound catalog_expensive_cut = Some 11
  ∧ feasible (val_of [1; 0; 1; 0; 0; 1])
      (b_model (built_of (build_model catalog_expensive_cut None None)))
    = true
  ∧ ∀ val,
      feasible val
        (b_model (built_of (build_model catalog_expensive_cut (Some 11) None)))
      = false.
Proof.
  split; [vm_compute; reflexivity|]. split; [vm_compute; reflexivity|].
  refine (proj2 (big_m_binds_unchosen_cuts catalog_expensive_cut 11 None
            (built_of (build_model catalog_expensive_cut (Some 11) None))
            (mk_node "a" [lifted ["x"];
                          mk_cut (Some ["b"]) (Some 0) (Some 1) (Some 100)])
            (mk_ci 3 ["b"] 0 1 100 1 1) "b" _ _ _ _ _) _).
  - vm_compute. reflexivity.
  - simpl. left.
  - vm_compute. right. left.
  - simpl. left.
  - simpl. right. left.
  - vm_compute. reflexivity.
Defined.

(** ** Phase A and Phase B build the same model up to the fixed depth *)

Lemma forallb_holds_app val (xs ys : list constraint) :
  forallb (holds val) (xs ++ ys)
  = forallb (holds val) xs && forallb (holds val) ys.
Proof. apply forallb_app. Qed.

Lemma build_model_fix_depth data ub d b :
  build_model data (Some ub) None = Ok b →
  ∃ b' D,
    build_model data (Some ub) (Some d) = Ok b'
    ∧ b_D b = Some D ∧ b_D b' = Some D
    ∧ b_var_node_used b' = b_var_node_used b
    ∧ b_var_cut b' = b_var_cut b
    ∧ b_level_vars b' = b_level_vars b
    ∧ b_area_terms b' = b_area_terms b
    ∧ b_inv_terms b' = b_inv_terms b
    ∧ b_original_terms b' = b_original_terms b
    ∧ variables (b_model b') = variables (b_model b)
    ∧ ∀ val, feasible val (b_model b')
             = feasible val (b_model b) && (val D =? d).
Proof.
  intros Hb.
  destruct (build_model_succeeds_again _ _ _ _ (Some ub) (Some d) Hb)
    as [b' Hb'].
  exists b'. revert Hb Hb'. unfold build_model.
  destruct (new_used_vars (cat_nodes data) ∅ empty_model) as [vu m1].
  destruct (new_all_cut_vars (cat_nodes data) ∅ 0 m1)
    as [[[vc cc] m2]|]; [|done].
  destruct (NewConstant 1 _) as [forced_1 m3].
  destruct (new_level_vars _ _ [] _) as [lv m4].
  destruct (NewIntVar 0 _ "D" m4) as [D m5].
  intros Hb Hb'. inversion Hb; subst b; clear Hb.
  inversion Hb'; subst b'; clear Hb'.
  exists D. cbn [b_model b_var_node_used b_var_cut b_D b_area_terms
                 b_inv_terms b_original_terms b_level_vars].
  do 9 (split; [done|]).
  split; [by rewrite !add_all_variables|].
  intros val. unfold feasible, domains_ok.
  rewrite !add_all_variables, !add_all_constraints.
  unfold constraints_D. rewrite !forallb_holds_app. cbn [forallb holds eval].
  repeat match goal with
         | |- context [forallb ?f ?l] =>
             let x := fresh "x" in
             generalize (forallb f l); intros x
         end.
  destruct (val D =? d); repeat match goal with x : bool |- _ =>
    destruct x end; reflexivity.
Qed.

(** X6.  The model of Phase B is the model of Phase A with D fixed: built
    on the same catalog and bound with fix_depth = best_depth, it has the
    same variables and the same var_node_used, var_cut and D, and its
    solutions are exactly the solutions of the Phase A model whose D is
    best_depth.  In particular the solution Phase A found solves it, so the
    model of Phase B is never infeasible. *)
Theorem phase_b_is_phase_a_at_best_depth (data : catalog) (ub : Z)
    (pa : built) (D : var) (val : var → Z) :
  build_model data (Some ub) None = Ok pa →
  b_D pa = Some D →
  feasible val (b_model pa) = true →
  let best_depth := val D in
  ∃ pb,
    build_model data (Some ub) (Some best_depth) = Ok pb
    ∧ feasible val (b_model pb) = true
    ∧ variables (b_model pb) = variables (b_model pa)
    ∧ b_var_node_used pb = b_var_node_used pa
    ∧ b_var_cut pb = b_var_cut pa
    ∧ b_D pb = Some D
    ∧ ∀ val', feasible val' (b_model pb) = true
              ↔ feasible val' (b_model pa) = true ∧ val' D = best_depth.
Proof.
  intros Hpa HD Hf best_depth.
  destruct (build_model_fix_depth data ub best_depth pa Hpa)
    as (pb & D' & Hpb & HD1 & HD2 & Hvu & Hvc & _ & _ & _ & _ & Hvars & Hfeas).
  rewrite HD in HD1. inversion HD1; subst D'.
  exists pb. split; [done|]. split.
  { rewrite Hfeas, Hf. unfold best_depth. by rewrite Z.eqb_refl. }
  do 4 (split; [done|]).
  intros val'. rewrite Hfeas, andb_true_iff, Z.eqb_eq. done.
Qed.

Lemma phase_b_is_phase_a_at_best_depth_witness :
  let val := val_of [1; 1; 1; 1; 1; 1; 2; 2] in
  ∃ pb,
    build_model catalog_chain (Some 12) (Some 2) = Ok pb
    ∧ feasible val (b_model pb) = true.
Proof.
  intros val.
  destruct (phase_b_is_phase_a_at_best_depth catalog_chain 12
              (built_of (build_model catalog_chain (Some 12) None)) 7%nat val)
    as (pb & Hpb & Hf & _).
  - vm_compute. reflexivity.
  - vm_compute. reflexivity.
  - vm_compute. reflexivity.
  - exists pb. split; [exact Hpb|exact Hf].
Defined.

(** ** Objectives *)

Lemma apply_objective_unknown (b : built) (mode : string) :
  mode ∉ objective_modes → apply_objective b mode = Raise ValueError.
Proof.
  unfold objective_modes. rewrite !elem_of_cons, elem_of_nil. intros Hm.
  unfold apply_objective.
  repeat match goal with
         | |- context [String.eqb mode ?x] =>
             destruct (String.eqb_spec mode x) as [->|?];
               [exfalso; apply Hm; auto 10|]
         end.
  reflexivity.
Qed.

(** X7.  [apply_objective] raises ValueError exactly for a mode outside
    og, original, inv, area, depth, overall, overall_tiebreak and
    depth_tiebreak_area, and RuntimeError exactly for depth or overall on a
    model built without a depth bound; when it returns, it has posted an
    objective and left the variables, the constraints and the dicts of the
    model as they were. *)
Theorem apply_objective_outcome (b : built) (mode : string) :
  (apply_objective b mode = Raise ValueError ↔ mode ∉ objective_modes)
  ∧ (apply_objective b mode = Raise RuntimeError
     ↔ (mode = "depth" ∨ mode = "overall") ∧ b_D b = None)
  ∧ (∀ b', apply_objective b mode = Ok b' →
       is_Some (objective (b_model b'))
       ∧ variables (b_model b') = variables (b_model b)
       ∧ constraints (b_model b') = constraints (b_model b)
       ∧ b_var_node_used b' = b_var_node_used b
       ∧ b_var_cut b' = b_var_cut b
       ∧ b_D b' = b_D b ∧ b_level_vars b' = b_level_vars b).
Proof.
  unfold apply_objective, objective_modes.
  rewrite !elem_of_cons, elem_of_nil.
  destruct (String.eqb_spec mode "og") as [->|H1].
  { simpl. split; [split; [done|tauto]|].
    split; [split; [done|intros [[?|?] _]; done]|].
    intros b' H. inversion H; subst b'. simpl. eauto 10. }
  destruct (String.eqb_spec mode "original") as [->|H2].
  { simpl. split; [split; [done|tauto]|].
    split; [split; [done|intros [[?|?] _]; done]|].
    intros b' H. inversion H; subst b'. simpl. eauto 10. }
  destruct (String.eqb_spec mode "inv") as [->|H3].
  { simpl. split; [split; [done|tauto]|].
    split; [split; [done|intros [[?|?] _]; done]|].
    intros b' H. inversion H; subst b'. simpl. eauto 10. }
  destruct (String.eqb_spec mode "area") as [->|H4].
  { simpl. split; [split; [done|tauto]|].
    split; [split; [done|intros [[?|?] _]; done]|].
    intros b' H. inversion H; subst b'. simpl. eauto 10. }
  destruct (String.eqb_spec mode "depth") as [->|H5].
  { simpl. destruct (b_D b) as [D|] eqn:HD.
    - split; [split; [done|tauto]|].
      split; [split; [done|intros [_ ?]; done]|].
      intros b' H. inversion H; subst b'. simpl. eauto 10.
    - split; [split; [done|tauto]|]. split; [split; [tauto|done]|done]. }
  destruct (String.eqb_spec mode "overall") as [->|H6].
  { simpl. destruct (b_D b) as [D|] eqn:HD.
    - split; [split; [done|tauto]|].
      split; [split; [done|intros [_ ?]; done]|].
      intros b' H. inversion H; subst b'. simpl. eauto 10.
    - split; [split; [done|tauto]|]. split; [split; [tauto|done]|done]. }
  destruct (String.eqb_spec mode "overall_tiebreak") as [->|H7].
  { simpl. split; [split; [done|tauto]|].
    split; [split; [done|intros [[?|?] _]; done]|].
    intros b' H. inversion H; subst b'. simpl. eauto 10. }
  destruct (String.eqb_spec mode "depth_tiebreak_area") as [->|H8].
  { simpl. split; [split; [done|tauto]|].
    split; [split; [done|intros [[?|?] _]; done]|].
    intros b' H. inversion H; subst b'. simpl. eauto 10. }
  simpl. split; [split; [tauto|done]|].
  split; [split; [done|tauto]|done].
Qed.

Lemma apply_objective_outcome_witness :
  apply_objective (built_of (build_model catalog_chain None None)) "cost"
  = Raise ValueError
  ∧ apply_objective (built_of (build_model catalog_chain None None)) "depth"
    = Raise RuntimeError.
Proof.
  split.
  - apply (proj2 (proj1 (apply_objective_outcome
             (built_of (build_model catalog_chain None None)) "cost"))).
    unfold objective_modes. rewrite !elem_of_cons, elem_of_nil.
    intros [H|[H|[H|[H|[H|[H|[H|[H|H]]]]]]]]; try discriminate H; exact H.
  - apply (proj2 (proj1 (proj2 (apply_objective_outcome
             (built_of (build_model catalog_chain None None)) "depth")))).
    split; [left; reflexivity|vm_compute; reflexivity].
Defined.

Lemma eval_py_sum_terms (cost : cut_info → Z) val (cis : list cut_info) :
  eval val (py_sum (map (fun ci => LMul (cost ci) (LVar (ci_var ci))) cis))
  = weighted_sum cost val cis.
Proof.
  unfold py_sum. rewrite eval_fold_LAdd.
  change (eval val (LConst 0)) with 0. rewrite Z.add_0_l.
  induction cis as [|ci cis IH]; simpl; [done|]. by rewrite IH.
Qed.

Lemma weighted_sum_linear (f g : cut_info → Z) (a c : Z) val cis :
  weighted_sum (fun ci => a * f ci + c * g ci) val cis
  = a * weighted_sum f val cis + c * weighted_sum g val cis.
Proof. induction cis as [|ci cis IH]; simpl; [lia|]. rewrite IH. lia. Qed.

(** X8.  The objectives of the modes under any valuation, with inv and
    area the sums of inv_cost and area_cost over the cut variables of all
    nodes, weighted by their values: inv and area minimize those sums; og
    and original minimize 10 * inv + area; depth_tiebreak_area minimizes
    area; overall_tiebreak minimizes 10 * area + inv; and on a model with a
    depth bound depth minimizes D and overall minimizes
    100 * D + 10 * area + inv. *)
Theorem objective_values (data : catalog) (db fd : option Z) (b : built)
    (val : var → Z) :
  build_model data db fd = Ok b →
  let obj mode := objective_under val (apply_objective b mode) in
  let cis := all_cut_infos (cat_nodes data) (b_var_cut b) in
  let inv := weighted_sum ci_inv_cost val cis in
  let area := weighted_sum ci_area_cost val cis in
  obj "inv" = Some inv
  ∧ obj "area" = Some area
  ∧ obj "og" = Some (10 * inv + area)
  ∧ obj "original" = Some (10 * inv + area)
  ∧ obj "depth_tiebreak_area" = Some area
  ∧ obj "overall_tiebreak" = Some (10 * area + inv)
  ∧ match b_D b with
    | Some D =>
        obj "depth" = Some (val D)
        ∧ obj "overall" = Some (100 * val D + 10 * area + inv)
    | None => obj "depth" = None ∧ obj "overall" = None
    end.
Proof.
  intros Hb obj cis inv area.
  destruct (build_model_layout _ _ _ _ Hb)
    as (_ & _ & _ & Harea & Hinv & Horig & _).
  fold cis in Harea, Hinv, Horig.
  assert (Ha : eval val (py_sum (b_area_terms b)) = area)
    by (rewrite Harea; apply eval_py_sum_terms).
  assert (Hi : eval val (py_sum (b_inv_terms b)) = inv)
    by (rewrite Hinv; apply eval_py_sum_terms).
  assert (Ho : eval val (py_sum (b_original_terms b)) = 10 * inv + area).
  { rewrite Horig, eval_py_sum_terms.
    unfold lambda_inv, lambda_area, inv, area.
    rewrite (weighted_sum_linear ci_inv_cost ci_area_cost 10 1). lia. }
  unfold obj, objective_under, apply_objective.
  cbn [String.eqb Ascii.eqb Bool.eqb orb b_model objective Minimize
       option_map].
  split; [by rewrite Hi|]. split; [by rewrite Ha|].
  split; [by rewrite Ho|]. split; [by rewrite Ho|].
  split; [by rewrite Ha|].
  split.
  { cbn [eval]. rewrite Ha, Hi. unfold beta_area, gamma_inv. f_equal. lia. }
  destruct (b_D b) as [D|]; [|done].
  cbn [b_model objective Minimize option_map eval].
  split; [done|]. rewrite Ha, Hi.
  unfold alpha_depth, beta_area, gamma_inv. f_equal. lia.
Qed.

Lemma objective_values_witness :
  let b := built_of (build_model catalog_chain (Some 12) None) in
  objective_under all_ones (apply_objective b "og") = Some 2
  ∧ objective_under all_ones (apply_objective b "overall") = Some 120.
Proof.
  intros b.
  destruct (objective_values catalog_chain (Some 12) None b all_ones)
    as (_ & _ & Hog & _ & _ & _ & Hov); [vm_compute; reflexivity|].
  split; [rewrite Hog|rewrite (proj2 Hov)]; vm_compute; reflexivity.
Defined.

(** ** Solutions and the selection they encode *)

(** What the constraints (A) and (B) say under a solution. *)
Lemma solution_facts data db fd b val :
  build_model data db fd = Ok b →
  feasible val (b_model b) = true →
  let nodes := cat_nodes data in
  let vu := b_var_node_used b in
  let vc := b_var_cut b in
  (∀ n ci, ci ∈ cuts_of vc n → val (ci_var ci) = 0 ∨ val (ci_var ci) = 1)
  ∧ (∀ nd, nd ∈ nodes →
       val (used_of vu (nd_name nd))
       = Z.of_nat (count_chosen val (cuts_of vc (nd_name nd)))
       ∧ (val (used_of vu (nd_name nd)) = 0
          ∨ val (used_of vu (nd_name nd)) = 1))
  ∧ (∀ nd ci leaf,
       nd ∈ nodes → ci ∈ cuts_of vc (nd_name nd) → val (ci_var ci) = 1 →
       leaf ∈ ci_leaves ci → leaf ∈ map nd_name nodes →
       val (used_of vu leaf) = 1).
Proof.
  intros Hb Hf nodes vu vc.
  pose proof (feasible_spec _ _ Hf) as [Hdom Hall].
  destruct (build_model_spec _ _ _ _ Hb)
    as (Hok & Hused & _ & _ & f1 & dcs & Hcs & _).
  fold nodes vu vc in Hok, Hused, Hcs.
  assert (Hbools : ∀ n ci, ci ∈ cuts_of vc n →
            val (ci_var ci) = 0 ∨ val (ci_var ci) = 1).
  { intros n ci Hin.
    destruct (cuts_of_entries _ _ _ _ _ Hok Hin) as (_ & _ & _ & Hbv & _).
    by apply (bool_var_value val (b_model b)). }
  split; [exact Hbools|]. split.
  - intros nd Hnd.
    assert (Hu01 : val (used_of vu (nd_name nd)) = 0
                   ∨ val (used_of vu (nd_name nd)) = 1).
    { destruct (Hused (nd_name nd)) as (v & Hv & Hbv).
      { apply list_elem_of_fmap. eauto. }
      unfold used_of. rewrite Hv. simpl.
      by apply (bool_var_value val (b_model b)). }
    split; [|done].
    assert (holds val (constraint_A vu vc nd) = true) as Hin.
    { apply Hall. rewrite Hcs, elem_of_app. left.
      unfold constraints_A. apply list_elem_of_fmap. eauto. }
    unfold constraint_A in Hin.
    destruct (cuts_of vc (nd_name nd)) as [|ci0 cis] eqn:Hcuts.
    + simpl in Hin. apply Z.eqb_eq in Hin. rewrite Hin. done.
    + unfold holds in Hin. apply Z.eqb_eq in Hin.
      rewrite eval_py_sum_vars in Hin. cbn [eval] in Hin.
      rewrite <- Hin. apply sum_vals_count. apply Forall_forall.
      intros ci Hci. apply (Hbools (nd_name nd)). by rewrite Hcuts.
  - intros nd ci leaf Hnd Hci Hv Hleaf Hname.
    assert (holds val (constraint_B nodes vu f1 ci leaf) = true) as HinB.
    { apply Hall. rewrite Hcs, !elem_of_app. right. left.
      unfold constraints_B. apply list_elem_of_In, in_flat_map.
      exists nd. split; [by apply list_elem_of_In|].
      apply in_flat_map. exists ci.
      split; [by apply list_elem_of_In|].
      apply in_map. by apply list_elem_of_In. }
    unfold constraint_B in HinB.
    rewrite decide_True in HinB
      by (unfold node_names; by apply elem_of_list_to_set).
    simpl in HinB. rewrite Hv in HinB. simpl in HinB.
    by apply Z.eqb_eq in HinB.
Qed.

Lemma dict_set_keys {V} (k : string) (v : V) (d : pydict V) :
  map fst (dict_set k v d)
  = if dict_has k d then map fst d else map fst d ++ [k].
Proof.
  unfold dict_has. induction d as [|[k' v'] d IH]; simpl; [done|].
  destruct (String.eqb_spec k k') as [->|Hne]; simpl; [done|].
  rewrite IH. by destruct (dict_get k d).
Qed.

Lemma dict_get_None_keys {V} (k : string) (d : pydict V) :
  dict_get k d = None → k ∉ map fst d.
Proof.
  induction d as [|[k' v'] d IH]; simpl; [intros _; apply not_elem_of_nil|].
  destruct (String.eqb_spec k k') as [->|Hne]; [done|].
  intros H. apply not_elem_of_cons. split; [done|by apply IH].
Qed.

Lemma dict_set_NoDup {V} (k : string) (v : V) (d : pydict V) :
  NoDup (map fst d) → NoDup (map fst (dict_set k v d)).
Proof.
  intros Hnd. rewrite dict_set_keys. unfold dict_has.
  destruct (dict_get k d) eqn:E; [done|].
  apply NoDup_app. split; [done|]. split; [|apply NoDup_singleton].
  intros x Hx Hk. apply list_elem_of_singleton in Hk. subst x.
  by apply (dict_get_None_keys k d).
Qed.

Lemma extract_fold_keys vu vc val nds : ∀ chosen,
  NoDup (map fst chosen) →
  let out := fold_left (extract_step vu vc val) nds chosen in
  NoDup (map fst out) ∧ (length out ≤ length chosen + length nds)%nat.
Proof.
  induction nds as [|nd nds IH]; intros chosen Hnd; cbn [fold_left].
  - simpl. split; [done|lia].
  - rewrite extract_step_selected.
    destruct (selected vu vc val (nd_name nd)) as [i|].
    + destruct (IH (dict_set (nd_name nd) i chosen)) as [H1 H2];
        [by apply dict_set_NoDup|].
      split; [done|]. etrans; [exact H2|].
      assert (length (dict_set (nd_name nd) i chosen) ≤ S (length chosen))%nat.
      { rewrite <- !(length_map fst), dict_set_keys.
        destruct (dict_has _ _); [lia|]. rewrite length_app. simpl. lia. }
      simpl. lia.
    + destruct (IH chosen Hnd) as [H1 H2]. split; [done|]. simpl. lia.
Qed.

Lemma chosen_cuts_keys data db fd b val :
  build_model data db fd = Ok b →
  feasible val (b_model b) = true →
  let nodes := cat_nodes data in
  let vu := b_var_node_used b in
  let chosen := _extract_chosen_cuts nodes vu (b_var_cut b) val in
  (∀ n, is_Some (dict_get n chosen)
        ↔ n ∈ map nd_name nodes ∧ val (used_of vu n) = 1)
  ∧ (∀ out, out ∈ resolve_outputs data → out ∈ map nd_name nodes →
            is_Some (dict_get out chosen)).
Proof.
  intros Hb Hf nodes vu chosen.
  destruct (solution_facts _ _ _ _ _ Hb Hf) as (Hbools & Hsum & _).
  destruct (build_model_spec _ _ _ _ Hb) as (Hok & Hused & Hnames & _).
  fold nodes vu in Hok, Hused, Hnames, Hsum.
  assert (Hkeys : ∀ n, is_Some (dict_get n chosen)
            ↔ n ∈ map nd_name nodes ∧ val (used_of vu n) = 1).
  { intros n. unfold chosen. rewrite extract_chosen_cuts_lookup.
    case_decide as Hn; [|split; [by intros [? ?]|by intros [? _]]].
    unfold selected.
    destruct (Z.eqb_spec (val (used_of vu n)) 1) as [Hu|Hu];
      [|split; [by intros [? ?]|by intros [_ ?]]].
    split; [done|]. intros _.
    apply list_elem_of_fmap in Hn as (nd & -> & Hnd).
    destruct (Hsum nd Hnd) as [Hs _]. rewrite Hu in Hs.
    assert (0 < count_chosen val (cuts_of (b_var_cut b) (nd_name nd)))%nat
      as Hpos by lia.
    apply count_chosen_pos in Hpos as (ci & Hci & Hv).
    by eapply first_chosen_is_Some. }
  split; [exact Hkeys|].
  intros out Hout Hname. apply Hkeys. split; [done|].
  pose proof (build_model_roots_hold _ _ _ _ _ Hb Hf) as Hroots.
  fold nodes vu in Hroots.
  destruct (Hused out Hname) as (v & Hv & _).
  assert (CEq (LVar v) (LConst 1)
          ∈ constraints_roots nodes (cat_outputs data) vu) as Hin.
  { unfold resolve_outputs in Hout. unfold constraints_roots.
    destruct (cat_outputs data) as [|o outs] eqn:Houts.
    - fold nodes in Hout.
      destruct (decide (is_Some (node_map_of nodes !! "Nout")))
        as [HN|HN].
      + apply list_elem_of_singleton in Hout. subst out. rewrite Hv. left.
      + assert (vu !! "Nout" = None) as ->.
        { destruct (vu !! "Nout") eqn:E; [|done]. exfalso. apply HN.
          apply node_map_of_dom, Hnames. eauto. }
        destruct (last nodes) as [nd|]; [|by apply elem_of_nil in Hout].
        apply list_elem_of_singleton in Hout. subst out.
        unfold used_of. rewrite Hv. left.
    - apply list_elem_of_In, in_flat_map. exists out.
      split; [by apply list_elem_of_In|]. rewrite Hv. by left. }
  apply Hroots in Hin. simpl in Hin. apply Z.eqb_eq in Hin.
  unfold used_of. by rewrite Hv.
Qed.

(** X9.  The chosen_cuts of a solution: its keys are exactly the catalog
    nodes whose used variable is 1, each once and at most one per node; it
    holds every root the builder resolves (a declared output that names a
    catalog node, else Nout, else the last node); and every value is a
    valid position in the cuts array of its node. *)
Theorem chosen_cuts_are_the_used_nodes (data : catalog) (db fd : option Z)
    (b : built) (val : var → Z) :
  build_model data db fd = Ok b →
  feasible val (b_model b) = true →
  let nodes := cat_nodes data in
  let vu := b_var_node_used b in
  let chosen := _extract_chosen_cuts nodes vu (b_var_cut b) val in
  (∀ n, is_Some (dict_get n chosen)
        ↔ n ∈ map nd_name nodes ∧ val (used_of vu n) = 1)
  ∧ (∀ out, out ∈ resolve_outputs data → out ∈ map nd_name nodes →
            is_Some (dict_get out chosen))
  ∧ (∀ n i, dict_get n chosen = Some i →
       ∃ nd, node_map_of nodes !! n = Some nd
             ∧ (i < length (nd_cuts nd))%nat)
  ∧ NoDup (map fst chosen)
  ∧ (length chosen ≤ length nodes)%nat.
Proof.
  intros Hb Hf nodes vu chosen.
  destruct (chosen_cuts_keys _ _ _ _ _ Hb Hf) as (Hkeys & Hroots).
  destruct (build_model_spec _ _ _ _ Hb) as (Hok & _).
  split; [exact Hkeys|]. split; [exact Hroots|]. split; [|split].
  - intros n i Hget.
    destruct (chosen_cuts_entry nodes vu _ val _ n i Hok Hget)
      as (nd & c & ci & HM & _ & _ & _ & _ & _ & _ & Hc & _).
    exists nd. split; [done|]. by apply lookup_lt_Some in Hc.
  - by destruct (extract_fold_keys vu (b_var_cut b) val nodes []
                   ltac:(constructor)).
  - destruct (extract_fold_keys vu (b_var_cut b) val nodes []
                ltac:(constructor)) as [_ H]. exact H.
Qed.

Lemma chosen_cuts_are_the_used_nodes_witness :
  let b := built_of (build_model catalog_no_outputs None None) in
  is_Some (dict_get "b"
             (_extract_chosen_cuts (cat_nodes catalog_no_outputs)
                (b_var_node_used b) (b_var_cut b) all_ones)).
Proof.
  intros b.
  refine (proj1 (proj2 (chosen_cuts_are_the_used_nodes catalog_no_outputs
                          None None b all_ones _ _)) "b" _ _).
  - vm_compute. reflexivity.
  - vm_compute. reflexivity.
  - vm_compute. left.
  - simpl. right. left.
Defined.

Lemma count_chosen_cons val ci cis :
  count_chosen val (ci :: cis)
  = Nat.add (if decide (val (ci_var ci) = 1) then 1%nat else 0%nat)
            (count_chosen val cis).
Proof.
  unfold count_chosen. rewrite filter_cons. by case_decide.
Qed.

Lemma weighted_sum_none (cost : cut_info → Z) val cis :
  Forall (fun ci => val (ci_var ci) = 0 ∨ val (ci_var ci) = 1) cis →
  count_chosen val cis = 0%nat → weighted_sum cost val cis = 0.
Proof.
  induction 1 as [|ci cis Hci Hall IH]; [done|].
  rewrite count_chosen_cons. case_decide as Hd; [lia|].
  intros Hc. simpl. rewrite IH by lia.
  destruct Hci as [H0|H1]; [rewrite H0; lia|contradiction].
Qed.

(** With at most one variable at 1, the weighted sum is the cost of the
    entry [first_chosen] stops at. *)
Lemma weighted_sum_first_chosen (cost : cut_info → Z) val cis :
  Forall (fun ci => val (ci_var ci) = 0 ∨ val (ci_var ci) = 1) cis →
  (count_chosen val cis ≤ 1)%nat →
  match first_chosen val cis with
  | Some i =>
      ∃ ci, ci ∈ cis ∧ ci_cut_index ci = i ∧ val (ci_var ci) = 1
            ∧ weighted_sum cost val cis = cost ci
  | None => weighted_sum cost val cis = 0
  end.
Proof.
  induction 1 as [|ci cis Hci Hall IH]; [done|].
  rewrite count_chosen_cons. simpl.
  destruct (Z.eqb_spec (val (ci_var ci)) 1) as [Hv|Hv].
  - rewrite decide_True by done. intros Hc.
    exists ci. split; [left|]. split; [done|]. split; [done|].
    rewrite (weighted_sum_none cost val cis Hall) by lia. rewrite Hv. lia.
  - rewrite decide_False by done. intros Hc. specialize (IH Hc).
    assert (val (ci_var ci) = 0) as -> by (destruct Hci; [done|lia]).
    destruct (first_chosen val cis) as [i|].
    + destruct IH as (ci' & Hin & Hi & Hv' & Hs). exists ci'.
      split; [by right|]. split; [done|]. split; [done|]. lia.
    + lia.
Qed.

Lemma weighted_sum_app (cost : cut_info → Z) val xs ys :
  weighted_sum cost val (xs ++ ys)
  = weighted_sum cost val xs + weighted_sum cost val ys.
Proof. induction xs as [|x xs IH]; simpl; [done|]. rewrite IH. lia. Qed.

Lemma selection_cost_of_solution (cost : cut → Z) (cost' : cut_info → Z)
    data db fd b val :
  build_model data db fd = Ok b →
  feasible val (b_model b) = true →
  (∀ n nd ci c,
     node_map_of (cat_nodes data) !! n = Some nd →
     ci ∈ cuts_of (b_var_cut b) n →
     nd_cuts nd !! ci_cut_index ci = Some c →
     cut_leaves c = Some (ci_leaves ci) →
     ci_inv_cost ci = default 0 (cut_inv_cost c) →
     ci_area_cost ci
     = default (Z.of_nat (length (ci_leaves ci))) (cut_area_cost c) →
     cost' ci = cost c) →
  weighted_sum cost' val (all_cut_infos (cat_nodes data) (b_var_cut b))
  = selection_cost cost (cat_nodes data)
      (_extract_chosen_cuts (cat_nodes data) (b_var_node_used b)
         (b_var_cut b) val).
Proof.
  intros Hb Hf Hcost.
  destruct (solution_facts _ _ _ _ _ Hb Hf) as (Hbools & Hsum & _).
  destruct (build_model_spec _ _ _ _ Hb) as (Hok & _).
  unfold all_cut_infos, selection_cost.
  set (nodes := cat_nodes data) in *.
  set (chosen := _extract_chosen_cuts nodes _ _ val).
  enough (Haux : ∀ l, (∀ nd, nd ∈ l → nd ∈ nodes) →
    weighted_sum cost' val
      (flat_map (fun nd => cuts_of (b_var_cut b) (nd_name nd)) l)
    = foldr (fun nd acc =>
        match dict_get (nd_name nd) chosen with
        | Some i =>
            match node_map_of nodes !! nd_name nd with
            | Some nd' => from_option cost 0 (nd_cuts nd' !! i)
            | None => 0
            end
        | None => 0
        end + acc) 0 l) by (by apply Haux).
  induction l as [|nd l IH]; intros Hsub; [done|].
  cbn [flat_map foldr]. rewrite weighted_sum_app.
  rewrite IH by (intros x Hx; apply Hsub; by right). f_equal.
  assert (Hnd : nd ∈ nodes) by (apply Hsub; left).
  destruct (Hsum nd Hnd) as [Hs Hu01].
  assert (Hall : Forall (fun ci => val (ci_var ci) = 0 ∨ val (ci_var ci) = 1)
                   (cuts_of (b_var_cut b) (nd_name nd))).
  { apply Forall_forall. intros ci Hci. by eapply Hbools. }
  pose proof (weighted_sum_first_chosen cost' val _ Hall ltac:(lia)) as Hw.
  unfold chosen. rewrite extract_chosen_cuts_lookup.
  rewrite decide_True by (apply list_elem_of_fmap; eauto).
  unfold selected.
  destruct (Z.eqb_spec (val (used_of (b_var_node_used b) (nd_name nd))) 1)
    as [Hu|Hu].
  - destruct (first_chosen val (cuts_of (b_var_cut b) (nd_name nd)))
      as [i|] eqn:Hfc.
    + destruct Hw as (ci & Hci & Hi & Hv & ->).
      destruct (cuts_of_entries _ _ _ _ _ Hok Hci)
        as (nd' & HM & _ & _ & c & Hc & Hl & _ & Hinv & Harea & _).
      fold nodes in HM. rewrite HM, <- Hi, Hc. simpl.
      by eapply Hcost.
    + done.
  - assert (count_chosen val (cuts_of (b_var_cut b) (nd_name nd)) = 0%nat)
      by lia.
    by apply weighted_sum_none.
Qed.

(** X10.  Under a solution, the sums that the objectives are made of are
    the costs of the emitted selection as the catalog gives them: the area
    sum is the sum, over the nodes with an entry in chosen_cuts, of the
    area_cost of the cut at the chosen position (len(leaves) when the record
    has none), and the inv sum that of its inv_cost (0 when absent); a node
    that is not chosen, and a cut that is not chosen, contribute nothing.
    So the value of the modes area, inv and og can be recomputed from the
    chosen-cuts file and the catalog. *)
Theorem objective_is_cost_of_selection (data : catalog) (db fd : option Z)
    (b : built) (val : var → Z) :
  build_model data db fd = Ok b →
  feasible val (b_model b) = true →
  let nodes := cat_nodes data in
  let chosen :=
    _extract_chosen_cuts nodes (b_var_node_used b) (b_var_cut b) val in
  let area := selection_cost cut_area_of nodes chosen in
  let inv := selection_cost cut_inv_of nodes chosen in
  objective_under val (apply_objective b "area") = Some area
  ∧ objective_under val (apply_objective b "inv") = Some inv
  ∧ objective_under val (apply_objective b "og") = Some (10 * inv + area).
Proof.
  intros Hb Hf nodes chosen area inv.
  destruct (build_model_layout _ _ _ _ Hb)
    as (_ & _ & _ & Harea & Hinv & Horig & _).
  assert (Ha : weighted_sum ci_area_cost val
                 (all_cut_infos nodes (b_var_cut b)) = area).
  { apply (selection_cost_of_solution cut_area_of ci_area_cost _ _ _ _ _ Hb Hf).
    intros n nd ci c _ _ _ Hl _ Ha. unfold cut_area_of.
    rewrite Hl. exact Ha. }
  assert (Hi : weighted_sum ci_inv_cost val
                 (all_cut_infos nodes (b_var_cut b)) = inv).
  { apply (selection_cost_of_solution cut_inv_of ci_inv_cost _ _ _ _ _ Hb Hf).
    intros n nd ci c _ _ _ _ Hi _. exact Hi. }
  unfold objective_under, apply_objective.
  cbn [String.eqb Ascii.eqb Bool.eqb orb b_model objective Minimize
       option_map].
  rewrite Harea, Hinv, Horig, !eval_py_sum_terms.
  fold nodes. rewrite Ha, Hi. split; [done|]. split; [done|].
  unfold lambda_inv, lambda_area.
  rewrite (weighted_sum_linear ci_inv_cost ci_area_cost 10 1).
  fold nodes. rewrite Ha, Hi. f_equal. lia.
Qed.

Lemma objective_is_cost_of_selection_witness :
  let b := built_of (build_model catalog_expensive_cut None None) in
  objective_under (val_of [1; 0; 1; 0; 0; 1]) (apply_objective b "area")
  = Some 1.
Proof.
  intros b.
  destruct (objective_is_cost_of_selection catalog_expensive_cut None None b
              (val_of [1; 0; 1; 0; 0; 1])) as (Ha & _).
  - vm_compute. reflexivity.
  - vm_compute. reflexivity.
  - rewrite Ha. vm_compute. reflexivity.
Defined.

(** ** Catalogs whose declared outputs name no node *)

Lemma combine_seq_In {A} (l : list A) (s v : nat) (d : A) :
  In (v, d) (combine (seq s (length l)) l) →
  ∃ j, v = (s + j)%nat ∧ l !! j = Some d.
Proof.
  revert s. induction l as [|x l IH]; intros s H; [done|].
  simpl in H. destruct H as [H|H].
  - inversion H; subst. exists 0%nat. split; [lia|done].
  - apply IH in H as (j & -> & Hj). exists (S j). split; [lia|done].
Qed.

Lemma domains_ok_intro val m :
  (∀ v d, variables m !! v = Some d → var_lb d ≤ val v ≤ var_ub d) →
  domains_ok val m = true.
Proof.
  intros H. unfold domains_ok. apply forallb_forall. intros [v d] Hin.
  apply combine_seq_In in Hin as (j & -> & Hj). simpl in *.
  specialize (H j d Hj). unfold in_domain. simpl.
  apply andb_true_iff. split; apply Z.leb_le; lia.
Qed.

Lemma sum_vals_zero val (cis : list cut_info) :
  Forall (fun ci => val (ci_var ci) = 0) cis → sum_vals val cis = 0.
Proof. induction 1 as [|ci cis Hci _ IH]; simpl; [done|]. lia. Qed.

Lemma depth_step_entry m M vc n ci :
  var_cut_ok m M vc → ci ∈ cuts_of vc n →
  ∃ nd c, M !! n = Some nd ∧ c ∈ nd_cuts nd
          ∧ or_1 (ci_depth_cost ci) = depth_step c.
Proof.
  intros Hok Hin.
  destruct (cuts_of_entries _ _ _ _ _ Hok Hin)
    as (nd & HM & _ & _ & c & Hc & _ & _ & _ & _ & Hd).
  exists nd, c. split; [done|].
  split; [by eapply list_elem_of_lookup_2|]. unfold depth_step. by rewrite Hd.
Qed.

Lemma dict_get_of_elem {V} (k : string) (v : V) (d : pydict V) :
  NoDup (map fst d) → (k, v) ∈ d → dict_get k d = Some v.
Proof.
  induction d as [|[k' v'] d IH]; simpl; intros Hnd Hin;
    [by apply elem_of_nil in Hin|].
  apply NoDup_cons in Hnd as [Hk' Hnd].
  apply elem_of_cons in Hin as [Hin|Hin].
  - inversion Hin; subst. by rewrite String.eqb_refl.
  - destruct (String.eqb_spec k k') as [->|Hne]; [|by apply IH].
    exfalso. apply Hk'. apply list_elem_of_fmap. by exists (k', v).
Qed.

Lemma new_level_vars_keys nds ub : ∀ d m,
  NoDup (map fst d) → NoDup (map fst (fst (new_level_vars nds ub d m))).
Proof.
  induction nds as [|nd rest IH]; simpl; intros d m Hnd; [done|].
  destruct (NewIntVar _ _ _ m) as [v m1]. apply IH. by apply dict_set_NoDup.
Qed.

Lemma build_model_level_keys data db fd b :
  build_model data db fd = Ok b → NoDup (map fst (b_level_vars b)).
Proof.
  unfold build_model.
  destruct (new_used_vars (cat_nodes data) ∅ empty_model) as [vu m1].
  destruct (new_all_cut_vars (cat_nodes data) ∅ 0 m1)
    as [[[vc cc] m2]|]; [|done].
  destruct (NewConstant 1 _) as [forced_1 m3].
  destruct db as [ub|].
  - match goal with
    | |- context [new_level_vars ?nds ?u ?d ?m] =>
        pose proof (new_level_vars_keys nds u d m ltac:(constructor)) as Hk;
        destruct (new_level_vars nds u d m) as [lv m4]
    end.
    destruct (NewIntVar _ _ _ m4) as [D m5].
    intros H. inversion H; subst b. exact Hk.
  - intros H. inversion H; subst b. constructor.
Qed.

Lemma constraints_roots_unknown nodes outs (vu : gmap string nat) :
  outs ≠ [] → (∀ out, out ∈ outs → vu !! out = None) →
  constraints_roots nodes outs vu = [].
Proof.
  intros Hne Hnone. unfold constraints_roots.
  destruct outs as [|o outs'] eqn:Ho; [done|]. rewrite <- Ho in *.
  clear Ho Hne. induction outs as [|x xs IH]; [done|]. cbn [flat_map].
  rewrite IH by (intros y Hy; apply Hnone; by right).
  by rewrite (Hnone x ltac:(left)).
Qed.

(** X11.  Declared outputs that name no node of the catalog force nothing:
    the builder posts no root constraint for them and does not fall back
    to Nout or the last node, so the valuation that uses no node and
    chooses no cut is a solution, and its chosen_cuts is empty.  With a
    depth bound this holds when no depth is fixed (or it is fixed to 0) and
    no cut has a step above max_depth_bound. *)
Theorem outputs_outside_catalog_force_nothing (data : catalog)
    (db fd : option Z) (b : built) :
  build_model data db fd = Ok b →
  cat_outputs data ≠ [] →
  (∀ out, out ∈ cat_outputs data → out ∉ map nd_name (cat_nodes data)) →
  match db with
  | None => True
  | Some ub =>
      (fd = None ∨ fd = Some 0)
      ∧ ∀ nd c, nd ∈ cat_nodes data → c ∈ nd_cuts nd →
                depth_step c ≤ max_depth_bound (cat_nodes data) ub
  end →
  constraints_roots (cat_nodes data) (cat_outputs data) (b_var_node_used b)
  = []
  ∧ feasible (select_nothing data) (b_model b) = true
  ∧ _extract_chosen_cuts (cat_nodes data) (b_var_node_used b) (b_var_cut b)
      (select_nothing data) = [].
Proof.
  intros Hb Houts Hnone Hdepth.
  set (nodes := cat_nodes data) in *.
  set (val := select_nothing data).
  set (n := length nodes). set (k := length (cut_decls nodes)).
  destruct (build_model_layout _ _ _ _ Hb)
    as (Hvars & Hused & Hcuts & _ & _ & _ & Hlay).
  fold nodes n k in Hvars, Hused, Hcuts, Hlay.
  destruct (build_model_spec _ _ _ _ Hb) as (Hok & _ & Hnames & _).
  fold nodes in Hok, Hnames.
  assert (Hval : ∀ v, v ≠ (n + k)%nat → val v = 0).
  { intros v Hv. unfold val, select_nothing. fold nodes n k.
    by destruct (Nat.eqb_spec v (n + k)). }
  assert (Hu0 : ∀ x, nodes ≠ [] → val (used_of (b_var_node_used b) x) = 0).
  { intros x Hne. apply Hval. unfold used_of.
    destruct (b_var_node_used b !! x) as [v|] eqn:Hv; simpl.
    - destruct (Hused x v Hv) as (nd & Hnd & _).
      apply lookup_lt_Some in Hnd. fold n in Hnd. lia.
    - destruct nodes; [done|]. unfold n. simpl. lia. }
  assert (Hc0 : ∀ x ci, ci ∈ cuts_of (b_var_cut b) x → val (ci_var ci) = 0).
  { intros x ci Hci. apply Hval. destruct (Hcuts x ci Hci). lia. }
  assert (Hroots : constraints_roots nodes (cat_outputs data)
                     (b_var_node_used b) = []).
  { apply constraints_roots_unknown; [done|]. intros out Hout.
    destruct (b_var_node_used b !! out) eqn:Hx; [|done].
    exfalso. apply (Hnone out Hout). apply Hnames. eauto. }
  assert (HA : ∀ c, c ∈ constraints_A nodes (b_var_node_used b) (b_var_cut b)
                 → holds val c = true).
  { intros c Hc. unfold constraints_A in Hc.
    apply list_elem_of_fmap in Hc as (nd & -> & Hnd).
    assert (nodes ≠ []) as Hne by (intros E; rewrite E in Hnd;
                                    by apply elem_of_nil in Hnd).
    unfold constraint_A.
    destruct (cuts_of (b_var_cut b) (nd_name nd)) as [|ci0 cis] eqn:Hcs.
    - simpl. rewrite Hu0 by done. done.
    - unfold holds. rewrite eval_py_sum_vars. cbn [eval].
      rewrite Hu0 by done. rewrite sum_vals_zero; [done|].
      apply Forall_forall. intros ci Hci.
      apply (Hc0 (nd_name nd)). by rewrite Hcs. }
  assert (HB : ∀ f1 c, c ∈ constraints_B nodes (b_var_node_used b)
                             (b_var_cut b) f1 → holds val c = true).
  { intros f1 c Hc. unfold constraints_B in Hc.
    apply list_elem_of_In, in_flat_map in Hc as (nd & Hnd & Hc).
    apply in_flat_map in Hc as (ci & Hci & Hc).
    apply in_map_iff in Hc as (leaf & <- & Hleaf).
    apply list_elem_of_In in Hci.
    unfold constraint_B. case_decide; simpl;
      by rewrite (Hc0 _ _ Hci). }
  split; [exact Hroots|]. split.
  - unfold feasible. apply andb_true_iff. split.
    + apply domains_ok_intro. intros v d Hv. rewrite Hvars in Hv.
      assert (Hlu : length (used_decls nodes) = n)
        by (unfold used_decls; by rewrite length_map).
      apply lookup_app_Some in Hv as [Hv|[Hge Hv]].
      { unfold used_decls in Hv. rewrite list_lookup_fmap in Hv.
        destruct (nodes !! v) as [nd|] eqn:Hnd; [|done].
        apply lookup_lt_Some in Hnd. fold n in Hnd.
        inversion Hv; subst d. simpl. rewrite Hval by lia. lia. }
      rewrite Hlu in Hge, Hv.
      apply lookup_app_Some in Hv as [Hv|[Hge' Hv]].
      { pose proof (lookup_lt_Some _ _ _ Hv) as Hlt. fold k in Hlt.
        unfold cut_decls in Hv.
        apply list_elem_of_lookup_2, list_elem_of_In, in_flat_map in Hv
          as (nd & _ & Hv).
        apply in_map_iff in Hv as (i & <- & _). simpl.
        rewrite Hval by lia. lia. }
      fold k in Hge', Hv.
      destruct (v - n - k)%nat as [|j] eqn:Hj.
      { simpl in Hv. inversion Hv; subst d. simpl.
        unfold val, select_nothing. fold nodes n k.
        replace v with (n + k)%nat by lia. rewrite Nat.eqb_refl. lia. }
      simpl in Hv. destruct db as [ub|]; [|done]. unfold depth_decls in Hv.
      pose proof (max_depth_bound_pos nodes ub) as HM.
      apply lookup_app_Some in Hv as [Hv|[_ Hv]].
      { unfold level_decls in Hv. rewrite list_lookup_fmap in Hv.
        destruct (nodes !! j) as [nd|]; [|done].
        inversion Hv; subst d. simpl. rewrite Hval by lia. lia. }
      destruct (j - _)%nat; [|done]. simpl in Hv.
      inversion Hv; subst d. simpl. rewrite Hval by lia. lia.
    + apply forallb_forall. intros c Hc. apply list_elem_of_In in Hc.
      destruct db as [ub|].
      * destruct Hlay as (HD & Hlv & Hcs). destruct Hdepth as (Hfd & Hstep).
        assert (Hl0 : ∀ x l, dict_get x (b_level_vars b) = Some l →
                  val l = 0).
        { intros x l Hl. apply Hval.
          destruct (Hlv x l Hl) as (j & nd & _ & _ & ->). lia. }
        assert (HD0 : val (n + k + 1 + n)%nat = 0) by (apply Hval; lia).
        rewrite Hcs, Hroots, app_nil_r, !elem_of_app in Hc.
        destruct Hc as [Hc|[Hc|[Hc|[Hc|Hc]]]];
          [by apply HA|by eapply HB| | |].
        -- unfold constraints_inputs in Hc.
           apply list_elem_of_In, in_flat_map in Hc as (inp & _ & Hc).
           destruct (dict_get inp (b_level_vars b)) as [l|] eqn:Hl; [|done].
           destruct Hc as [<-|[]]. simpl. by rewrite (Hl0 _ _ Hl).
        -- unfold constraints_levels in Hc.
           apply list_elem_of_In, in_flat_map in Hc as (nd & Hnd & Hc).
           apply list_elem_of_In in Hnd.
           assert (nodes ≠ []) as Hne by (intros E; rewrite E in Hnd;
                                           by apply elem_of_nil in Hnd).
           unfold constraints_node_level in Hc.
           destruct (dict_get (nd_name nd) (b_level_vars b)) as [l|] eqn:Hl;
             [|done].
           pose proof (Hl0 _ _ Hl) as Hl0'.
           apply in_app_or in Hc as [Hc|Hc].
           { destruct Hc as [<-|[]]. simpl. rewrite Hl0', Hu0 by done.
             apply Z.leb_le. lia. }
           apply in_app_or in Hc as [Hc|Hc].
           { case_decide; [done|]. destruct Hc as [<-|[]]. simpl.
             rewrite Hl0', Hu0 by done. done. }
           apply in_flat_map in Hc as (ci & Hci & Hc).
           apply in_flat_map in Hc as (leaf & Hleaf & Hc).
           apply list_elem_of_In in Hci.
           unfold constraint_level in Hc.
           destruct (dict_get leaf (b_level_vars b)) as [ll|] eqn:Hll;
             [|done].
           destruct Hc as [<-|[]]. cbn [holds eval].
           rewrite Hl0', (Hl0 _ _ Hll), (Hc0 _ _ Hci).
           destruct (depth_step_entry _ _ _ _ _ Hok Hci)
             as (nd' & c' & HM & Hc' & ->).
           apply node_map_of_lookup in HM as [Hnd' _].
           specialize (Hstep nd' c' Hnd' Hc'). apply Z.leb_le. lia.
        -- unfold constraints_D in Hc. apply elem_of_app in Hc as [Hc|Hc].
           ++ apply list_elem_of_fmap in Hc as ([x l] & -> & Hxl). simpl.
              assert (val l = 0) as ->.
              { apply (Hl0 x).
                apply dict_get_of_elem; [|done].
                by eapply build_model_level_keys. }
              by rewrite HD0.
           ++ destruct Hfd as [->| ->]; [by apply elem_of_nil in Hc|].
              apply list_elem_of_singleton in Hc. subst c. simpl.
              by rewrite HD0.
      * destruct Hlay as (_ & _ & Hcs).
        rewrite Hcs, Hroots, app_nil_r, !elem_of_app in Hc.
        destruct Hc as [Hc|Hc]; [by apply HA|by eapply HB].
  - unfold _extract_chosen_cuts.
    enough (Haux : ∀ l, (∀ nd, nd ∈ l → nd ∈ nodes) →
      fold_left (extract_step (b_var_node_used b) (b_var_cut b) val) l []
      = []) by (by apply Haux).
    induction l as [|nd l IH]; intros Hsub; [done|]. cbn [fold_left].
    unfold extract_step at 2. rewrite Hu0.
    + simpl. apply IH. intros x Hx. apply Hsub. by right.
    + intros E. specialize (Hsub nd ltac:(left)). rewrite E in Hsub.
      by apply elem_of_nil in Hsub.
Qed.

Lemma outputs_outside_catalog_force_nothing_witness :
  let b := built_of (build_model catalog_missing_output (Some 12) None) in
  feasible (select_nothing catalog_missing_output) (b_model b) = true
  ∧ _extract_chosen_cuts (cat_nodes catalog_missing_output)
      (b_var_node_used b) (b_var_cut b) (select_nothing catalog_missing_output)
    = [].
Proof.
  intros b.
  refine (proj2 (outputs_outside_catalog_force_nothing catalog_missing_output
                   (Some 12) None b _ _ _ _)).
  - vm_compute. reflexivity.
  - discriminate.
  - intros out Hout Hin. apply list_elem_of_In in Hout, Hin.
    simpl in Hout, Hin. destruct Hout as [<-|[]].
    destruct Hin as [H|[H|[]]]; discriminate H.
  - split; [left; reflexivity|]. intros nd c Hnd Hc.
    apply list_elem_of_In in Hnd. simpl in Hnd.
    destruct Hnd as [<-|[<-|[]]];
      apply list_elem_of_In in Hc; simpl in Hc; destruct Hc as [<-|[]];
      vm_compute; discriminate.
Defined.

(** ** Roots that cannot be used *)

(** X12.  A root without a selectable cut makes the model infeasible: if a
    root the builder resolves (a declared output, else Nout, else the last
    node) names a catalog node all of whose cuts are self-cuts, or which
    has no cuts, then no valuation solves the model, in any mode. *)
Theorem root_without_cut_is_infeasible (data : catalog) (db fd : option Z)
    (b : built) (out : string) (nd : node) :
  build_model data db fd = Ok b →
  out ∈ resolve_outputs data →
  node_map_of (cat_nodes data) !! out = Some nd →
  (∀ c, c ∈ nd_cuts nd → is_self_cut (default [] (cut_leaves c)) out = true) →
  ∀ val, feasible val (b_model b) = false.
Proof.
  intros Hb Hout HM Hself val.
  destruct (feasible val (b_model b)) eqn:Hf; [|done]. exfalso.
  destruct (build_model_spec _ _ _ _ Hb) as (Hok & _).
  destruct (node_map_of_lookup _ _ _ HM) as [Hnd Hname].
  assert (Hin : out ∈ map nd_name (cat_nodes data))
    by (apply node_map_of_dom; eauto).
  destruct (chosen_cuts_keys data db fd b val Hb Hf)
    as (Hkeys & Hroots).
  destruct (Hroots out Hout Hin) as [i Hi].
  destruct (chosen_cuts_entry _ _ _ _ _ _ _ Hok Hi)
    as (nd' & c & ci & HM' & _ & _ & _ & _ & _ & _ & Hc & Hl & Hns).
  rewrite HM in HM'. inversion HM'; subst nd'.
  specialize (Hself c ltac:(by eapply list_elem_of_lookup_2)).
  rewrite Hl in Hself. simpl in Hself. congruence.
Qed.

Lemma root_without_cut_is_infeasible_witness :
  feasible all_ones
    (b_model (built_of (build_model catalog_only_self_cut None None)))
  = false.
Proof.
  refine (root_without_cut_is_infeasible catalog_only_self_cut None None
            (built_of (build_model catalog_only_self_cut None None))
            "a" (mk_node "a" [lifted ["a"]]) _ _ _ _ all_ones).
  - vm_compute. reflexivity.
  - simpl. left.
  - vm_compute. reflexivity.
  - intros c Hc. apply list_elem_of_In in Hc. simpl in Hc.
    destruct Hc as [<-|[]]. reflexivity.
Defined.

(** ** Normalization *)

Lemma dict_set_same {V} (k : string) (v : V) (d : pydict V) :
  dict_get k d = Some v → dict_set k v d = d.
Proof.
  induction d as [|[k' v'] d IH]; simpl; [done|].
  destruct (String.eqb_spec k k') as [->|Hne].
  - intros H. by inversion H.
  - intros H. by rewrite IH.
Qed.

Lemma rmap_fixed {A} (f : A → result A) (xs : list A) :
  Forall (fun x => f x = Ok x) xs → rmap f xs = Ok xs.
Proof.
  induction 1 as [|x xs Hx _ IH]; simpl; [done|]. by rewrite Hx, IH.
Qed.

Lemma normalize_node_fixed (nd nd' : json) :
  normalize_node nd = Ok nd' → normalize_node nd' = Ok nd'.
Proof.
  unfold normalize_node. destruct nd as [| | | | | |dn]; try done. simpl.
  destruct (py_iter _) as [cut_list|]; [|done]. simpl.
  destruct (rmap normalize_cut cut_list) as [cuts|] eqn:Hr; [|done]. simpl.
  intros H. inversion H; subst nd'. clear H. simpl.
  rewrite dict_get_set_eq. simpl.
  rewrite rmap_fixed.
  - simpl. by rewrite dict_set_same by apply dict_get_set_eq.
  - apply rmap_Ok in Hr.
    induction Hr as [|x y xs ys Hxy _ IH]; [constructor|].
    constructor; [|done].
    apply normalize_cut_is_record in Hxy as [d ->]. reflexivity.
Qed.

(** X13.  Normalization is idempotent: normalizing a catalog that
    [_normalize_cuts_data] returned succeeds and returns it unchanged, key
    order included. *)
Theorem normalize_cuts_data_idempotent (data data' : json) :
  _normalize_cuts_data data = Ok data' →
  _normalize_cuts_data data' = Ok data'.
Proof.
  unfold _normalize_cuts_data.
  destruct data as [| | | | | |d]; try done. simpl.
  destruct (py_iter _) as [node_list|]; [|done]. simpl.
  destruct (rmap normalize_node node_list) as [nodes|] eqn:Hr; [|done]. simpl.
  intros H. inversion H; subst data'. clear H. simpl.
  assert (Hfix : rmap normalize_node nodes = Ok nodes).
  { apply rmap_fixed. apply rmap_Ok in Hr. clear -Hr.
    induction Hr as [|x y xs ys Hxy _ IH]; [constructor|].
    constructor; [by eapply normalize_node_fixed|done]. }
  set (d1 := dict_set "nodes" (JList nodes) d).
  assert (Hn1 : dict_get "nodes" d1 = Some (JList nodes))
    by apply dict_get_set_eq.
  clearbody d1. destruct (dict_has "inputs" d1) eqn:E.
  - rewrite Hn1. simpl. rewrite Hfix. simpl.
    by rewrite (dict_set_same _ _ _ Hn1), E.
  - assert (Hn2 : dict_get "nodes" (dict_set "inputs" (JList []) d1)
                  = Some (JList nodes))
      by (by rewrite dict_get_set_ne).
    rewrite Hn2. simpl. rewrite Hfix. simpl.
    rewrite (dict_set_same _ _ _ Hn2). unfold dict_has.
    by rewrite dict_get_set_eq.
Qed.

Lemma normalize_cuts_data_idempotent_witness :
  _normalize_cuts_data (json_loaded json_lifted_cut)
  = Ok (json_loaded json_lifted_cut).
Proof.
  apply (normalize_cuts_data_idempotent (json_catalog json_bare_cut)).
  reflexivity.
Defined.

Lemma normalize_cut_normalized (c c' : json) :
  normalize_cut c = Ok c' → cut_normalized c c'.
Proof.
  unfold normalize_cut, cut_normalized.
  destruct c; simpl; intros H; inversion H; subst; done.
Qed.

Lemma Forall2_rmap {A B} (f : A → result B) (R : A → B → Prop) xs ys :
  (∀ x y, f x = Ok y → R x y) → rmap f xs = Ok ys → Forall2 R xs ys.
Proof.
  intros HR Hr. apply rmap_Ok in Hr.
  induction Hr as [|x y xs' ys' Hxy _ IH]; constructor; auto.
Qed.

Lemma normalize_node_normalized (nd nd' : json) :
  normalize_node nd = Ok nd' → node_normalized nd nd'.
Proof.
  unfold normalize_node, node_normalized.
  destruct nd as [| | | | | |dn]; try done. simpl.
  destruct (py_iter _) as [cut_list|] eqn:Hit; [|done]. simpl.
  destruct (rmap normalize_cut cut_list) as [cuts|] eqn:Hr; [|done]. simpl.
  intros H. inversion H; subst nd'. clear H.
  exists dn, (dict_set "cuts" (JList cuts) dn), cuts.
  split; [done|]. split; [done|].
  split; [intros k Hk; by apply dict_get_set_ne|].
  split; [apply dict_get_set_eq|].
  destruct (default (JList []) (dict_get "cuts" dn)) as [| | | | |cs|];
    try done.
  simpl in Hit. inversion Hit; subst cut_list.
  eapply Forall2_rmap; [|exact Hr]. apply normalize_cut_normalized.
Qed.

Lemma normalize_cuts_data_nodes (d : pydict json) (data' : json) :
  _normalize_cuts_data (JDict d) = Ok data' →
  ∃ d' ns',
    data' = JDict d'
    ∧ dict_get "nodes" d' = Some (JList ns')
    ∧ nodes_normalized (default (JList []) (dict_get "nodes" d)) ns'.
Proof.
  unfold _normalize_cuts_data. simpl.
  destruct (py_iter _) as [node_list|] eqn:Hit; [|done]. simpl.
  destruct (rmap normalize_node node_list) as [nodes|] eqn:Hr; [|done]. simpl.
  intros H. inversion H; subst data'. clear H.
  eexists _, nodes. split; [reflexivity|].
  split.
  - destruct (dict_has _ _); [apply dict_get_set_eq|].
    rewrite dict_get_set_ne by done. apply dict_get_set_eq.
  - unfold nodes_normalized.
    destruct (default (JList []) (dict_get "nodes" d)) as [| | | | |ns|];
      try done.
    simpl in Hit. inversion Hit; subst node_list.
    eapply Forall2_rmap; [|exact Hr]. apply normalize_node_normalized.
Qed.

(** X14.  What normalization changes and what it keeps.  On success the
    result is the same dict with: every key other than nodes and inputs as
    it was (outputs among them); inputs as it was when the key is present,
    whatever its value, and the empty list otherwise; and under nodes a
    list.  Where nodes is a JSON array (or absent), that list holds the
    same nodes in the same order, each with every key other than cuts as it
    was (its name among them); where the cuts of a node are a JSON array
    (or absent), they keep their order, a dict cut unchanged and a list cut
    replaced by a record with its elements as leaves, inv_cost 0, area_cost
    the number of leaves and depth_cost 1.  (Strings, which Python would
    iterate by character, are left out.) *)
Theorem normalize_cuts_data_keeps (d : pydict json) (data' : json) :
  _normalize_cuts_data (JDict d) = Ok data' →
  ∃ d' ns',
    data' = JDict d'
    ∧ (∀ k, k ≠ "nodes" → k ≠ "inputs" → dict_get k d' = dict_get k d)
    ∧ dict_get "inputs" d' = Some (default (JList []) (dict_get "inputs" d))
    ∧ dict_get "nodes" d' = Some (JList ns')
    ∧ nodes_normalized (default (JList []) (dict_get "nodes" d)) ns'.
Proof.
  intros Hnorm.
  destruct (normalize_cuts_data_nodes d data' Hnorm)
    as (d0 & ns0 & Hd0 & Hn0 & Hnn).
  revert Hnorm Hd0. unfold _normalize_cuts_data. simpl.
  destruct (py_iter _) as [node_list|] eqn:Hit; [|done]. simpl.
  destruct (rmap normalize_node node_list) as [nodes|] eqn:Hr; [|done]. simpl.
  intros H Hd0. subst data'. inversion H as [Hd0']. clear H.
  rewrite <- Hd0' in Hn0.
  eexists _, ns0. split; [reflexivity|].
  split; [|split; [|split; [exact Hn0|exact Hnn]]].
  - intros k Hk Hk'. destruct (dict_has _ _).
    + by apply dict_get_set_ne.
    + by rewrite !dict_get_set_ne.
  - assert (Hi1 : dict_get "inputs" (dict_set "nodes" (JList nodes) d)
                  = dict_get "inputs" d) by (by apply dict_get_set_ne).
    unfold dict_has. rewrite Hi1.
    destruct (dict_get "inputs" d) as [v|] eqn:Hi.
    + by rewrite Hi1.
    + apply dict_get_set_eq.
Qed.

Lemma normalize_cuts_data_keeps_witness :
  ∃ d', _normalize_cuts_data (json_catalog json_bare_cut) = Ok (JDict d')
        ∧ dict_get "outputs" d' = Some (JList [JStr "a"])
        ∧ dict_get "inputs" d' = Some (JList [])
        ∧ dict_get "nodes" d'
          = Some (JList [JDict [("name", JStr "a");
                                ("cuts", JList [json_lifted_cut])]]).
Proof.
  destruct (normalize_cuts_data_keeps
              [("nodes", JList [JDict [("name", JStr "a");
                                       ("cuts", JList [json_bare_cut])]]);
               ("outputs", JList [JStr "a"])]
              (json_loaded json_lifted_cut))
    as (d' & ns' & Hd & Hkeep & Hin & Hnodes & _).
  - reflexivity.
  - exists d'. split; [by rewrite <- Hd|]. split; [|split; [exact Hin|]].
    + by rewrite Hkeep.
    + inversion Hd. reflexivity.
Defined.

(** ** From a raw catalog of bare cuts to a model *)

Lemma omap_list_Some {A B} (f : A → option B) (xs : list A) (ys : list B) :
  omap_list f xs = Some ys → Forall2 (fun x y => f x = Some y) xs ys.
Proof.
  revert ys. induction xs as [|x xs IH]; simpl; intros ys H.
  - inversion H. constructor.
  - destruct (f x) as [y|] eqn:Hf; [|done].
    destruct (omap_list f xs) as [ys'|] eqn:Hr; [|done].
    inversion H; subst. constructor; [done|]. by apply IH.
Qed.

Lemma Forall_Forall2_chain {A B C} (P : A → Prop) (R1 : A → B → Prop)
    (R2 : B → C → Prop) (Q : C → Prop) xs ys zs :
  (∀ x y z, P x → R1 x y → R2 y z → Q z) →
  Forall P xs → Forall2 R1 xs ys → Forall2 R2 ys zs → Forall Q zs.
Proof.
  intros Hstep HP H1. revert zs HP.
  induction H1 as [|x y xs ys Hxy _ IH]; intros zs HP H2.
  - inversion H2. constructor.
  - inversion H2 as [|? z ? zs' Hyz H2']; subst.
    inversion HP; subst. constructor; [by eapply Hstep|by apply IH].
Qed.

Lemma bare_cut_lifted (c c' : json) (ct : cut) :
  (∃ leaves, c = JList leaves) → cut_normalized c c' →
  cut_of_json c' = Some ct →
  ∃ leaves, ct = lifted leaves.
Proof.
  intros [leaves ->] Hn Hd. unfold cut_normalized in Hn. subst c'.
  unfold cut_of_json, opt_field in Hd. simpl in Hd.
  destruct (omap_list as_str leaves) as [ls|] eqn:Hls; [|done].
  simpl in Hd. inversion Hd; subst ct. exists ls. unfold lifted.
  apply omap_list_Some, Forall2_length in Hls. by rewrite Hls.
Qed.

(** X15.  A raw catalog in the old format goes all the way to a model: if
    every cut of the file is a bare list, then after normalization every
    cut of the catalog the builder reads has its leaves and the default
    costs (inv_cost 0, area_cost the number of leaves, depth_cost 1), and
    [build_model] returns a model, never KeyError, whatever the depth
    settings within the solver's range ([depth_settings_in_range], and
    [small_costs], which here bounds the number of leaves of a cut). *)
Theorem bare_catalog_builds (data data' : json) (cat : catalog)
    (db fd : option Z) :
  cuts_are_bare data →
  _normalize_cuts_data data = Ok data' →
  catalog_of_json data' = Some cat →
  Forall (fun nd => Forall (fun c => ∃ leaves, c = lifted leaves) (nd_cuts nd))
         (cat_nodes cat)
  ∧ (small_costs cat = true →
     depth_settings_in_range (cat_nodes cat) db fd = true →
     ∃ b, build_model cat db fd = Ok b).
Proof.
  intros (d & nodes & -> & Hnodes & Hbare) Hnorm Hcat.
  destruct (normalize_cuts_data_nodes _ _ Hnorm)
    as (d' & ns' & -> & Hn' & Hnn).
  rewrite Hnodes in Hnn. simpl in Hnn.
  unfold catalog_of_json in Hcat. rewrite Hn' in Hcat.
  destruct (omap_list node_of_json ns') as [nds|] eqn:Hnds; [|done].
  destruct (names_or_empty "outputs" d') as [outs|]; [|done].
  destruct (names_or_empty "inputs" d') as [ins|]; [|done].
  inversion Hcat; subst cat. clear Hcat. simpl.
  apply omap_list_Some in Hnds.
  assert (Hall : Forall (fun nd =>
            Forall (fun c => ∃ leaves, c = lifted leaves) (nd_cuts nd)) nds).
  { eapply Forall_Forall2_chain; [|exact Hbare|exact Hnn|exact Hnds].
    intros x y z (dn & cuts & -> & Hcuts & Hcb)
      (dn0 & dn' & cs' & Hx & -> & _ & Hcs' & Hcn) Hz.
    inversion Hx; subst dn0. rewrite Hcuts in Hcn. simpl in Hcn.
    clear Hx.
    unfold node_of_json in Hz. rewrite Hcs' in Hz.
    destruct (dict_get "name" dn') as [[| | | |name| |]|]; try done.
    destruct (omap_list cut_of_json cs') as [cts|] eqn:Hcts; [|done].
    inversion Hz; subst z. simpl. apply omap_list_Some in Hcts.
    eapply Forall_Forall2_chain; [|exact Hcb|exact Hcn|exact Hcts].
    intros c c' ct. apply bare_cut_lifted. }
  split; [exact Hall|]. intros _ _.
  destruct (build_model_result (mk_catalog nds outs ins) db fd)
    as [[(nd & c & Hnd & Hc & Hl) _]|[_ Hb]]; [|done].
  exfalso. simpl in Hnd. rewrite Forall_forall in Hall.
  specialize (Hall nd Hnd). rewrite Forall_forall in Hall.
  destruct (Hall c Hc) as [leaves ->]. discriminate Hl.
Qed.

Lemma bare_catalog_builds_witness :
  ∃ b, build_model
         (mk_catalog [mk_node "a" [lifted ["x"; "y"]];
                      mk_node "b" [lifted ["a"]; lifted ["b"]]] ["b"] [])
         (Some 3) None = Ok b.
Proof.
  refine (proj2 (bare_catalog_builds json_bare_catalog _ _ (Some 3) None
                   _ _ _) _ _).
  - eexists _, _. split; [reflexivity|]. split; [reflexivity|].
    repeat constructor; eexists _, _;
      (split; [reflexivity|]); (split; [reflexivity|]);
      repeat constructor; eexists; reflexivity.
  - reflexivity.
  - reflexivity.
  - reflexivity.
  - reflexivity.
Defined.

(** ** The depth bounder computes a recurrence *)

Lemma omap_list_mono {A B} (f g : A → option B) (xs : list A) ys :
  (∀ x y, f x = Some y → g x = Some y) →
  omap_list f xs = Some ys → omap_list g xs = Some ys.
Proof.
  intros Hfg. revert ys. induction xs as [|x xs IH]; intros ys; simpl; [done|].
  destruct (f x) as [y|] eqn:Hf; [|done]. rewrite (Hfg _ _ Hf).
  destruct (omap_list f xs) as [ys'|]; [|done]. by rewrite (IH ys').
Qed.

Lemma plain_cuts_mono (f g : string → option Z) name cuts :
  (∀ x y, f x = Some y → g x = Some y) →
  ∀ best r, plain_cuts f name cuts best = Some r →
            plain_cuts g name cuts best = Some r.
Proof.
  intros Hfg. induction cuts as [|c cs IH]; intros best r; simpl; [done|].
  destruct (is_self_cut _ name); [apply IH|].
  destruct (omap_list f _) as [ds|] eqn:Hds; [|done].
  rewrite (omap_list_mono f g _ _ Hfg Hds). apply IH.
Qed.

Lemma plain_depth_S nodes fuel : ∀ name d,
  plain_depth nodes fuel name = Some d →
  plain_depth nodes (S fuel) name = Some d.
Proof.
  induction fuel as [|fuel IH]; intros name d; [done|].
  intros H. simpl in H.
  change (plain_depth nodes (S (S fuel)) name)
    with (match node_map_of nodes !! name with
          | None => Some 0
          | Some nd =>
              option_map (default 0)
                (plain_cuts (plain_depth nodes (S fuel)) name (nd_cuts nd) None)
          end).
  destruct (node_map_of nodes !! name) as [nd|]; [|done].
  destruct (plain_cuts (plain_depth nodes fuel) name (nd_cuts nd) None)
    as [r|] eqn:Hc; [|done].
  by rewrite (plain_cuts_mono _ _ name _ IH _ _ Hc).
Qed.

Lemma plain_depth_mono nodes fuel fuel' name d :
  (fuel ≤ fuel')%nat →
  plain_depth nodes fuel name = Some d →
  plain_depth nodes fuel' name = Some d.
Proof.
  induction 1 as [|k Hle IH]; [done|]. intros H. by apply plain_depth_S, IH.
Qed.

Lemma plain_depth_functional nodes f f' name d d' :
  plain_depth nodes f name = Some d → plain_depth nodes f' name = Some d' →
  d = d'.
Proof.
  intros H H'.
  apply (plain_depth_mono _ _ (max f f')) in H; [|lia].
  apply (plain_depth_mono _ _ (max f f')) in H'; [|lia]. congruence.
Qed.

Lemma plain_depth_minimal nodes fuel name d :
  plain_depth nodes fuel name = Some d →
  ∃ f0, (f0 < fuel)%nat ∧ plain_depth nodes (S f0) name = Some d
        ∧ plain_depth nodes f0 name = None.
Proof.
  induction fuel as [|fuel IH]; [done|]. intros H.
  destruct (plain_depth nodes fuel name) as [d'|] eqn:E.
  - pose proof (plain_depth_functional _ _ _ _ _ _ E H) as ->.
    destruct (IH eq_refl) as (f0 & ? & ? & ?). exists f0.
    split; [lia|done].
  - exists fuel. split; [lia|done].
Qed.

Section depth_recurrence.
Variable nodes : list node.

Lemma dfs_map_matches (f : nat) (Hrec : rec_ok nodes f) : ∀ xs ds st,
  omap_list (plain_depth nodes f) xs = Some ds → memo_sound nodes st →
  (∀ v, v ∈ visiting st → plain_depth nodes f v = None) →
  ∃ st', dfs_map (depth nodes f) xs st = Some (ds, st')
         ∧ memo_sound nodes st' ∧ visiting st' = visiting st.
Proof.
  induction xs as [|x xs IH]; intros ds st Hds Hs Hv; simpl in *.
  - inversion Hds. by exists st.
  - destruct (plain_depth nodes f x) as [dx|] eqn:Hx; [|done].
    destruct (omap_list (plain_depth nodes f) xs) as [ds'|] eqn:Hxs; [|done].
    inversion Hds; subst ds. unfold dfs_bind.
    destruct (Hrec x dx st Hx Hs Hv) as (st1 & -> & Hs1 & HV1).
    destruct (IH ds' st1 eq_refl Hs1) as (st2 & -> & Hs2 & HV2).
    { intros v Hin. apply Hv. by rewrite <- HV1. }
    exists st2. split; [done|]. split; [done|]. congruence.
Qed.

Lemma depth_cuts_matches (f : nat) (Hrec : rec_ok nodes f) (name : string) :
  ∀ cuts best r st,
    plain_cuts (plain_depth nodes f) name cuts best = Some r →
    memo_sound nodes st →
    (∀ v, v ∈ visiting st → plain_depth nodes f v = None) →
    ∃ st', depth_cuts (depth nodes f) name cuts best st = Some (r, st')
           ∧ memo_sound nodes st' ∧ visiting st' = visiting st.
Proof.
  induction cuts as [|c cs IH]; intros best r st Hr Hs Hv; simpl in *.
  - inversion Hr. by exists st.
  - destruct (is_self_cut _ name); [by apply IH|].
    destruct (omap_list (plain_depth nodes f) _) as [ds|] eqn:Hds; [|done].
    unfold dfs_bind.
    destruct (dfs_map_matches f Hrec _ _ st Hds Hs Hv)
      as (st1 & -> & Hs1 & HV1).
    destruct (IH _ r st1 Hr Hs1) as (st2 & -> & Hs2 & HV2).
    { intros v Hin. apply Hv. by rewrite <- HV1. }
    exists st2. split; [done|]. split; [done|]. congruence.
Qed.

Lemma depth_matches_plain : ∀ g, rec_ok nodes g.
Proof.
  induction g as [g IHg] using lt_wf_ind. intros x dx st Hx Hs Hv.
  destruct (plain_depth_minimal _ _ _ _ Hx) as (f0 & Hlt & Hx0 & Hmin).
  enough (∃ st', depth nodes (S f0) x st = Some (dx, st')
                 ∧ memo_sound nodes st' ∧ visiting st' = visiting st)
    as (st' & Hd & Hs' & HV').
  { exists st'. split; [|done].
    by apply (depth_fuel_mono nodes (S f0) g); [lia|]. }
  assert (Hnone : ∀ v, v ∈ visiting st → plain_depth nodes f0 v = None).
  { intros v Hin. destruct (plain_depth nodes f0 v) as [dv|] eqn:E; [|done].
    apply (plain_depth_mono _ _ g) in E; [|lia]. rewrite (Hv v Hin) in E.
    done. }
  simpl. unfold depth_body.
  destruct (memo st !! x) as [d0|] eqn:Hm.
  { destruct (Hs x d0 Hm) as [f1 Hf1].
    pose proof (plain_depth_functional _ _ _ _ _ _ Hf1 Hx) as ->.
    by exists st. }
  destruct (decide (x ∈ visiting st)) as [Hin|Hnin].
  { rewrite (Hv x Hin) in Hx. done. }
  simpl in Hx0.
  destruct (node_map_of nodes !! x) as [nd|] eqn:Hnd.
  - destruct (plain_cuts (plain_depth nodes f0) x (nd_cuts nd) None)
      as [r|] eqn:Hr; [|done].
    simpl in Hx0. inversion Hx0; subst dx.
    destruct (depth_cuts_matches f0 (IHg f0 Hlt) x (nd_cuts nd) None r
                (mk_dfs (memo st) ({[x]} ∪ visiting st)) Hr)
      as (st2 & -> & Hs2 & HV2).
    + exact Hs.
    + simpl. intros v Hin. apply elem_of_union in Hin as [Hin|Hin].
      * apply elem_of_singleton in Hin. by subst v.
      * by apply Hnone.
    + eexists. split; [reflexivity|]. split.
      * intros n d. simpl. destruct (decide (x = n)) as [<-|Hne].
        -- rewrite lookup_insert_eq. intros H. inversion H; subst d.
           exists (S f0). simpl. by rewrite Hnd, Hr.
        -- rewrite lookup_insert_ne by done. apply Hs2.
      * simpl. rewrite HV2. simpl. set_solver.
  - inversion Hx0; subst dx. eexists. split; [reflexivity|]. split; [|done].
    intros n d. simpl. destruct (decide (x = n)) as [<-|Hne].
    + rewrite lookup_insert_eq. intros H. inversion H; subst d.
      exists 1%nat. simpl. by rewrite Hnd.
    + rewrite lookup_insert_ne by done. apply Hs.
Qed.
End depth_recurrence.

(** X16.  Where the catalog has no cycle below a name, the memoized search
    computes the plain recurrence: 0 for a name that is no node, and for
    a node the least, over its cuts that are not self-cuts, of the largest
    depth of its other leaves plus depth_cost or 1 (0 without such a cut).
    Memo and stack change neither the values nor the depth of the
    recursion: with [limit] the number of nested calls the interpreter
    allows, where the recurrence has its value within [limit] nested
    evaluations, [depth] under the same limit returns that value, from any
    state whose memo holds values of the recurrence, and keeps the memo so;
    hence for roots with such values the base of the bound is their
    maximum, and, where the double product is exact, the bound is
    max(base + 10, int(1.5 * base), len(nodes) or 1, 1). *)
Theorem depth_is_the_recurrence (data : catalog) :
  let nodes := cat_nodes data in
  (∀ limit name d st,
     plain_depth nodes limit name = Some d →
     memo_sound nodes st → visiting st = ∅ →
     ∃ st', depth nodes limit name st = Some (d, st')
            ∧ memo_sound nodes st' ∧ visiting st' = ∅)
  ∧ (∀ limit ds,
       Forall2 (fun out d => plain_depth nodes limit out = Some d)
               (resolve_outputs data) ds →
       base_depth limit data = Some (base_of nodes ds)
       ∧ (Z.abs (base_of nodes ds) < 2 ^ 51 →
          compute_depth_upper_bound_fuel limit data
          = Some (ub_of_base nodes (base_of nodes ds)))).
Proof.
  intros nodes.
  assert (Hone : ∀ limit name d st,
     plain_depth nodes limit name = Some d →
     memo_sound nodes st → visiting st = ∅ →
     ∃ st', depth nodes limit name st = Some (d, st')
            ∧ memo_sound nodes st' ∧ visiting st' = ∅).
  { intros limit name d st Hd Hs HV.
    destruct (depth_matches_plain nodes limit name d st Hd Hs)
      as (st1 & Hd1 & Hs1 & HV1).
    { intros v Hin. rewrite HV in Hin. by apply elem_of_empty in Hin. }
    exists st1. split; [done|]. split; [done|]. congruence. }
  split; [exact Hone|].
  intros limit ds Hds.
  assert (Hmap : ∀ st, memo_sound nodes st → visiting st = ∅ →
            ∃ st', dfs_map (depth nodes limit)
                     (resolve_outputs data) st = Some (ds, st')).
  { induction Hds as [|x d xs ds' Hx _ IH]; intros st Hs HV;
      cbn [dfs_map].
    - by exists st.
    - unfold dfs_bind.
      destruct (Hone limit x d st Hx Hs HV) as (st1 & -> & Hs1 & HV1).
      destruct (IH st1 Hs1 HV1) as (st2 & ->). by exists st2. }
  destruct (Hmap dfs_init) as (st' & Hst'); [|done|].
  { intros n d. simpl. by rewrite lookup_empty. }
  unfold compute_depth_upper_bound_fuel, base_depth.
  fold nodes. rewrite Hst'. done.
Qed.

Lemma depth_is_the_recurrence_witness :
  compute_depth_upper_bound_fuel 4 catalog_diamond = Some 16.
Proof.
  refine (proj2 (proj2 (depth_is_the_recurrence catalog_diamond)
                   4%nat [6; 4] _) _).
  - constructor; [vm_compute; reflexivity|].
    constructor; [vm_compute; reflexivity|]. constructor.
  - vm_compute. reflexivity.
Defined.

(** ** The driver: when it raises and what it writes *)

Lemma extract_selection_in_catalog nodes vu vc val m :
  var_cut_ok m (node_map_of nodes) vc →
  selection_in_catalog nodes (_extract_chosen_cuts nodes vu vc val).
Proof.
  intros Hok. split.
  - by destruct (extract_fold_keys vu vc val nodes [] ltac:(constructor)).
  - intros n i Hget.
    destruct (chosen_cuts_entry nodes vu vc val m n i Hok Hget)
      as (nd & c & ci & HM & _ & _ & _ & _ & _ & _ & Hc & Hl & Hns).
    exists nd, c. split; [done|]. split; [done|]. by rewrite Hl.
Qed.

Lemma built_selection_in_catalog data db fd b0 mode b val :
  build_model data db fd = Ok b0 → apply_objective b0 mode = Ok b →
  selection_in_catalog (cat_nodes data)
    (_extract_chosen_cuts (cat_nodes data) (b_var_node_used b) (b_var_cut b)
       val).
Proof.
  intros Hb0 Hb.
  destruct (build_model_spec _ _ _ _ Hb0) as (Hok & _).
  destruct (apply_objective_fields _ _ _ Hb) as (_ & -> & _).
  by eapply extract_selection_in_catalog.
Qed.

Section driver_outcomes.
Context {pyfloat : Type}.
Variable Solve : solver_params → CpModel → cp_status * @solver pyfloat.
Variable str_status : cp_status → string.

Local Abbreviation io_ := (@io pyfloat).
Local Abbreviation solve_on := (solve_circuit_on Solve str_status).

Lemma returned_lift {A B} (r : result A) (a : A) (k : A → io_ B) :
  r = Ok a → returned (k a) → returned (io_bind (io_lift r) k).
Proof. intros -> H. by rewrite io_bind_lift. Qed.

Lemma returned_print {B} (line : list atom) (k : unit → io_ B) :
  returned (k tt) → returned (io_bind (print line) k).
Proof. by rewrite io_bind_print. Qed.

Lemma returned_finish path mode st D obj tie chosen :
  returned (@finish pyfloat path mode st D obj tie chosen).
Proof.
  destruct (finish_spec (pyfloat := pyfloat) path mode st D obj tie chosen)
    as (ev & -> & _).
  by eexists.
Qed.

Lemma all_events_lift {A B} (P : @event pyfloat → Prop) (r : result A)
    (k : A → io_ B) :
  (∀ a, r = Ok a → all_events P (k a)) →
  all_events P (io_bind (io_lift r) k).
Proof.
  intros H. rewrite io_bind_lift. destruct r as [a|e]; [by apply H|].
  intros e' He'. by apply elem_of_nil in He'.
Qed.

Lemma all_events_print {B} (P : @event pyfloat → Prop) (line : list atom)
    (k : unit → io_ B) :
  P (EPrint line) → all_events P (k tt) →
  all_events P (io_bind (print line) k).
Proof.
  intros HP Hk. rewrite io_bind_print. intros e He. simpl in He.
  apply elem_of_cons in He as [->|He]; [done|by apply Hk].
Qed.

Lemma all_events_ret {A} (P : @event pyfloat → Prop) (a : A) :
  all_events P (@io_ret pyfloat A a).
Proof. intros e He. by apply elem_of_nil in He. Qed.

Lemma safe_finish nodes path mode st D obj tie chosen :
  selection_in_catalog nodes chosen →
  all_events (safe_event nodes path)
    (@finish pyfloat path mode st D obj tie chosen).
Proof.
  intros Hsel.
  destruct (finish_spec (pyfloat := pyfloat) path mode st D obj tie chosen)
    as (ev & -> & _ & Hev & _).
  intros e He. simpl in He. specialize (Hev e He).
  destruct e as [line|p|p c]; simpl; [done|done|].
  destruct Hev as [-> ->]. split; [done|]. by exists chosen.
Qed.

(** After loading, the driver only prints and writes chosen-cuts documents
    that fit the catalog to [path], whatever the solver answers. *)
Lemma solve_circuit_on_safe (data : catalog) (path mode : string) :
  all_events (safe_event (cat_nodes data) path) (solve_on data path mode).
Proof.
  unfold solve_circuit_on.
  destruct (String.eqb mode "depth" || String.eqb mode "overall")%bool.
  - apply all_events_lift. intros ub _.
    apply all_events_print; [done|].
    apply all_events_lift. intros pa0 Hpa0.
    apply all_events_lift. intros pa Hpa.
    destruct (solve_model Solve (b_model pa) _ _ _ _ _ _) as [sa sta].
    apply all_events_print; [done|].
    destruct (is_solved sta) eqn:Hsa; simpl negb; cbv iota.
    + apply all_events_lift. intros Da _.
      apply all_events_print; [done|].
      apply all_events_lift. intros pb0 Hpb0.
      apply all_events_lift. intros pb Hpb.
      destruct (solve_model Solve (b_model pb) _ _ _ _ _ _) as [sb stb].
      apply all_events_print; [done|].
      destruct (is_solved stb) eqn:Hsb.
      * apply all_events_lift. intros Db _.
        apply safe_finish.
        apply (built_selection_in_catalog _ _ _ _ _ _ _ Hpb0 Hpb).
      * apply all_events_print; [done|].
        apply safe_finish.
        apply (built_selection_in_catalog _ _ _ _ _ _ _ Hpa0 Hpa).
    + apply all_events_print; [done|]. apply all_events_ret.
  - apply all_events_lift. intros s0 Hs0.
    apply all_events_lift. intros s1 Hs1.
    destruct (solve_model Solve (b_model s1) _ _ _ _ _ _) as [sv stv].
    apply all_events_print; [done|].
    destruct (is_solved stv) eqn:Hsv; simpl negb; cbv iota.
    + apply safe_finish.
      apply (built_selection_in_catalog _ _ _ _ _ _ _ Hs0 Hs1).
    + apply all_events_print; [done|]. apply all_events_ret.
Qed.


Lemma build_model_depth_D data ub fd b :
  build_model data (Some ub) fd = Ok b → ∃ D, b_D b = Some D.
Proof.
  intros Hb.
  destruct (build_model_spec _ _ _ _ Hb)
    as (_ & _ & _ & _ & f1 & dcs & _ & D & HD & _).
  eauto.
Qed.

Lemma apply_objective_depth_ok b D :
  b_D b = Some D → ∃ b', apply_objective b "depth" = Ok b' ∧ b_D b' = Some D.
Proof.
  intros HD. unfold apply_objective. simpl. rewrite HD.
  eexists. split; [reflexivity|done].
Qed.

Lemma apply_objective_tie_ok b mode :
  ∃ b', apply_objective b (tie_mode_of mode) = Ok b' ∧ b_D b' = b_D b.
Proof.
  unfold tie_mode_of. destruct (String.eqb mode "depth");
    eexists; (split; [reflexivity|done]).
Qed.

Lemma apply_objective_known_ok b mode :
  mode ∈ objective_modes →
  (String.eqb mode "depth" || String.eqb mode "overall")%bool = false →
  ∃ b', apply_objective b mode = Ok b'.
Proof.
  unfold objective_modes. rewrite !elem_of_cons, elem_of_nil.
  intros [->|[->|[->|[->|[->|[->|[->|[->|[]]]]]]]]] Hm;
    try discriminate Hm; eexists; reflexivity.
Qed.

(** X17.  When the driver raises.  After loading, in the modes that need
    no depth bound, a catalog with a cut record without leaves makes
    [solve_circuit] raise KeyError before anything is printed or solved;
    on any other catalog (with costs within the solver's range,
    [small_costs]) an unknown objective mode raises ValueError before
    anything is printed or solved, and a known mode returns a result,
    whatever the solver answers.  In the modes depth and overall, once the
    depth bound is computed (under whatever recursion limit) from a base
    below 2^51 on fewer than 2^51 nodes, so that it is exact and within the
    solver's range, a cut record without leaves makes it raise KeyError
    right after printing the bound, and on any other catalog with small
    costs it returns a result: the depth variable the depth modes read is
    always there.  (The solver call and the write of the file are taken to
    return.) *)
Theorem driver_raises_only_on_bad_input (data : catalog)
    (path mode : string) :
  let nodes := cat_nodes data in
  let depth_mode :=
    (String.eqb mode "depth" || String.eqb mode "overall")%bool in
  (depth_mode = false →
     (lacks_leaves data → solve_on data path mode = ([], Raise KeyError))
     ∧ (small_costs data = true → ¬ lacks_leaves data →
        (mode ∉ objective_modes →
         solve_on data path mode = ([], Raise ValueError))
        ∧ (mode ∈ objective_modes → returned (solve_on data path mode))))
  ∧ (depth_mode = true →
     ∀ limit base,
       base_depth limit data = Some base →
       Z.abs base < 2 ^ 51 → Z.of_nat (length nodes) < 2 ^ 51 →
       let UB := Z.max (ub_of_base nodes base) (len_or_1 nodes) in
       (lacks_leaves data →
        solve_on data path mode
        = ([EPrint [AStr "Using depth upper bound UB = "; ANum (NInt UB)]],
           Raise KeyError))
       ∧ (small_costs data = true → ¬ lacks_leaves data →
          returned (solve_on data path mode))).
Proof.
  intros nodes depth_mode. subst depth_mode. split.
  - intros Hm. split; [|intros _ Hl; split].
    + intros Hl. unfold solve_circuit_on. rewrite Hm.
      destruct (build_model_result data None None) as [[_ ->]|[Hn _]];
        [|done].
      by rewrite io_bind_lift.
    + intros Hmode. unfold solve_circuit_on. rewrite Hm.
      destruct (build_model_result data None None) as [[Hl' _]|[_ [b ->]]];
        [done|].
      rewrite io_bind_lift. cbv beta iota.
      rewrite (apply_objective_unknown b mode Hmode).
      by rewrite io_bind_lift.
    + intros Hmode. unfold solve_circuit_on. rewrite Hm.
      destruct (build_model_result data None None)
        as [[Hl' _]|[_ [s0 Hs0]]]; [done|].
      eapply returned_lift; [exact Hs0|].
      destruct (apply_objective_known_ok s0 mode Hmode Hm) as [s1 Hs1].
      eapply returned_lift; [exact Hs1|].
      destruct (solve_model Solve (b_model s1) _ _ _ _ _ _) as [sv stv].
      apply returned_print.
      destruct (is_solved stv); simpl negb; cbv iota.
      * apply returned_finish.
      * apply returned_print. by eexists.
  - intros Hm limit base Hbase _ _ UB.
    assert (Hub : _compute_depth_upper_bound data
                  = Some (ub_of_base nodes base)).
    { apply (compute_depth_upper_bound_fuel_value data limit).
      unfold compute_depth_upper_bound_fuel. by rewrite Hbase. }
    split.
    + intros Hl. unfold solve_circuit_on. rewrite Hm, Hub, io_bind_lift.
      cbv beta iota zeta. fold nodes. fold UB.
      rewrite io_bind_print_match.
      destruct (build_model_result data (Some UB) None) as [[_ ->]|[Hn _]];
        [|done].
      by rewrite io_bind_lift.
    + intros _ Hl. unfold solve_circuit_on. rewrite Hm.
      eapply returned_lift; [by rewrite Hub|].
      apply returned_print.
      match goal with
      | |- context [build_model data ?db None] =>
          destruct (build_model_result data db None)
            as [[Hl' _]|[_ [pa0 Hpa0]]]; [done|]
      end.
      eapply returned_lift; [exact Hpa0|].
      destruct (build_model_depth_D _ _ _ _ Hpa0) as [Da HDa].
      destruct (apply_objective_depth_ok pa0 Da HDa) as (pa & Hpa & HDa').
      eapply returned_lift; [exact Hpa|].
      destruct (solve_model Solve (b_model pa) _ _ _ _ _ _) as [sa sta].
      apply returned_print.
      destruct (is_solved sta); simpl negb; cbv iota.
      * eapply returned_lift; [by rewrite HDa'|].
        apply returned_print.
        match goal with
        | |- context [build_model data ?db ?fd] =>
            destruct (build_model_result data db fd)
              as [[Hl' _]|[_ [pb0 Hpb0]]]; [done|]
        end.
        eapply returned_lift; [exact Hpb0|].
        destruct (build_model_depth_D _ _ _ _ Hpb0) as [Db HDb].
        destruct (apply_objective_tie_ok pb0 mode) as (pb & Hpb & HDb').
        eapply returned_lift; [exact Hpb|].
        destruct (solve_model Solve (b_model pb) _ _ _ _ _ _) as [sb stb].
        apply returned_print.
        destruct (is_solved stb).
        -- eapply returned_lift; [by rewrite HDb', HDb|].
           apply returned_finish.
        -- apply returned_print. apply returned_finish.
      * apply returned_print. by eexists.
Qed.
End driver_outcomes.

Lemma driver_raises_only_on_bad_input_witness :
  solve_circuit_on (stub_solve OPTIMAL all_ones) stub_str
    catalog_no_leaves "chosen.json" "area"
  = ([], Raise KeyError)
  ∧ solve_circuit_on (stub_solve OPTIMAL all_ones) stub_str
      catalog_chain "chosen.json" "cost"
    = ([], Raise ValueError)
  ∧ returned (solve_circuit_on (stub_solve OPTIMAL all_ones) stub_str
                catalog_chain "chosen.json" "area")
  ∧ solve_circuit_on (stub_solve OPTIMAL all_ones) stub_str
      catalog_no_leaves "chosen.json" "depth"
    = ([EPrint [AStr "Using depth upper bound UB = "; ANum (NInt 11)]],
       Raise KeyError)
  ∧ returned (solve_circuit_on (stub_solve OPTIMAL all_ones) stub_str
                catalog_chain "chosen.json" "overall").
Proof.
  assert (Hchain : ¬ lacks_leaves catalog_chain).
  { intros (nd & c & Hnd & Hc & Hl).
    apply list_elem_of_In in Hnd. simpl in Hnd.
    destruct Hnd as [<-|[<-|[]]];
      apply list_elem_of_In in Hc; simpl in Hc; destruct Hc as [<-|[]];
      discriminate Hl. }
  assert (Hno : lacks_leaves catalog_no_leaves).
  { exists (mk_node "a" [lifted ["x"]; mk_cut None (Some 1) None None]),
      (mk_cut None (Some 1) None None).
    split; [left|]. split; [right; left|reflexivity]. }
  split; [|split; [|split; [|split]]].
  - refine (proj1 (proj1 (driver_raises_only_on_bad_input
                    (stub_solve OPTIMAL all_ones) stub_str
                    catalog_no_leaves "chosen.json" "area") _) Hno).
    reflexivity.
  - refine (proj1 (proj2 (proj1 (driver_raises_only_on_bad_input
                    (stub_solve OPTIMAL all_ones) stub_str
                    catalog_chain "chosen.json" "cost") _) _ Hchain) _).
    + reflexivity.
    + reflexivity.
    + unfold objective_modes. rewrite !elem_of_cons, elem_of_nil.
      intros [H|[H|[H|[H|[H|[H|[H|[H|H]]]]]]]]; try discriminate H; exact H.
  - refine (proj2 (proj2 (proj1 (driver_raises_only_on_bad_input
                    (stub_solve OPTIMAL all_ones) stub_str
                    catalog_chain "chosen.json" "area") _) _ Hchain) _).
    + reflexivity.
    + reflexivity.
    + unfold objective_modes. rewrite !elem_of_cons. auto 10.
  - refine (proj1 (proj2 (driver_raises_only_on_bad_input
                    (stub_solve OPTIMAL all_ones) stub_str
                    catalog_no_leaves "chosen.json" "depth") _
                    2%nat 1 _ _ _) Hno).
    + reflexivity.
    + vm_compute. reflexivity.
    + vm_compute. reflexivity.
    + vm_compute. reflexivity.
  - refine (proj2 (proj2 (driver_raises_only_on_bad_input
                    (stub_solve OPTIMAL all_ones) stub_str
                    catalog_chain "chosen.json" "overall") _
                    3%nat 2 _ _ _) _ Hchain).
    + reflexivity.
    + vm_compute. reflexivity.
    + vm_compute. reflexivity.
    + vm_compute. reflexivity.
    + reflexivity.
Defined.

(** ** The temporary file of the BLIF conversion *)

Section temp_file.
Context {pyfloat : Type}.
Variable path_exists : string → bool.
Variable suffix_lower : string → string.
Variable open_json_load : string → read_outcome.
Variable is_file : string → bool.
Variable which : string → option string.
Variable path_str : string → string.
Variable parent_candidate : string → string.
Variable script_dir_candidate : string.
Variable mkstemp : string → string.
Variable run : list string → run_outcome.

Local Abbreviation find_ :=
  (_find_cut_enumeration_binary is_file which path_str parent_candidate
     script_dir_candidate).
Local Abbreviation generate_ :=
  (_generate_cuts_json_from_blif is_file which path_str parent_candidate
     script_dir_candidate mkstemp run).
Local Abbreviation load_cuts_ :=
  (_load_cuts_data (pyfloat := pyfloat) path_exists suffix_lower
     open_json_load (fun p h c => snd (generate_ p h c))).

Lemma find_raises_FileNotFoundError hint blif e :
  find_ hint blif = Raise e → e = FileNotFoundError.
Proof.
  unfold _find_cut_enumeration_binary.
  destruct (truthy hint) as [h|].
  - destruct (is_file h); [done|].
    destruct (truthy (which h)); [done|]. intros H. by inversion H.
  - destruct (find is_file _); [done|].
    destruct (truthy (which "cut_enumeration")); [done|].
    intros H. by inversion H.
Qed.

(** X18.  The fate of the temporary file when the input is not a .json
    file.  If no cut_enumeration binary is found, nothing is created or run
    and loading raises FileNotFoundError.  Otherwise the temporary file is
    created first and the binary is run once, on the input path and the
    temporary path, followed by the cut size when one is given (0
    included).  If the run ends, the temporary file is deleted exactly
    once: by the generator, which raises RuntimeError, on a non-zero exit
    code, and by the loader's finally clause on exit code 0, whether or not
    the file then reads and parses.  If the process cannot be started, the
    error propagates and the temporary file is never deleted. *)
Theorem temp_file_fate (cuts_path : string) (binary_hint : option string)
    (cut_size : option Z) :
  path_exists cuts_path = true →
  suffix_lower cuts_path ≠ ".json" →
  let gen := generate_ cuts_path binary_hint cut_size in
  let ld := load_cuts_ cuts_path binary_hint cut_size in
  let tmp := mkstemp cuts_path in
  let unlinks :=
    (gen_unlinks tmp (fst gen) + load_unlinks tmp (fst ld))%nat in
  match find_ binary_hint cuts_path with
  | Raise _ => fst gen = [] ∧ ld = ([], Raise FileNotFoundError)
  | Ok cut_enum_bin =>
      let cmd :=
        [cut_enum_bin; path_str cuts_path; tmp]
        ++ match cut_size with Some k => [pretty k] | None => [] end in
      (∃ line rest, fst gen = GTempFile tmp :: GPrint line :: GRun cmd :: rest
                    ∧ ∀ c, GRun c ∉ rest)
      ∧ match run cmd with
        | Exit0 =>
            unlinks = 1%nat
            ∧ snd ld = match open_json_load tmp with
                       | Loaded data => Ok data
                       | JSONDecodeError => Raise ValueError
                       | ReadOSError => Raise OSError
                       end
        | CalledProcessError _ => unlinks = 1%nat ∧ snd ld = Raise RuntimeError
        | NotStarted => unlinks = 0%nat ∧ snd ld = Raise OSError
        end
  end.
Proof.
  intros He Hs gen ld tmp unlinks.
  apply String.eqb_neq in Hs.
  subst unlinks ld gen. unfold _load_cuts_data. rewrite He, Hs. simpl negb.
  cbv iota. unfold _generate_cuts_json_from_blif.
  destruct (find_ binary_hint cuts_path) as [bin|e] eqn:Hfind.
  - unfold cut_enumeration_cmd. fold tmp.
    set (cmd := [bin; path_str cuts_path; tmp] ++ _).
    split.
    { destruct (run cmd); eexists _, _; (split; [reflexivity|]);
        intros c Hc; apply list_elem_of_In in Hc; simpl in Hc;
        repeat (destruct Hc as [Hc|Hc]; [discriminate Hc|]); done. }
    destruct (run cmd) as [|code|].
    + simpl. destruct (open_json_load tmp); simpl;
        unfold load_unlinks; simpl; rewrite String.eqb_refl; done.
    + simpl. unfold gen_unlinks. simpl. rewrite String.eqb_refl. done.
    + simpl. done.
  - simpl. split; [done|].
    by rewrite (find_raises_FileNotFoundError _ _ _ Hfind).
Qed.
End temp_file.

Lemma temp_file_fate_witness :
  let gen :=
    _generate_cuts_json_from_blif world_is_file world_which world_path_str
      world_parent "bin/cut_enumeration" world_mkstemp (world_run NotStarted)
      "c.blif" None (Some 0) in
  let ld :=
    _load_cuts_data (pyfloat := Z) world_exists world_blif_suffix
      (world_open JNull)
      (fun p h c =>
         snd (_generate_cuts_json_from_blif world_is_file world_which
                world_path_str world_parent "bin/cut_enumeration"
                world_mkstemp (world_run NotStarted) p h c))
      "c.blif" None (Some 0) in
  (gen_unlinks "tmp.json" (fst gen) + load_unlinks "tmp.json" (fst ld))%nat
  = 0%nat
  ∧ snd ld = Raise OSError.
Proof.
  intros gen ld.
  pose proof (temp_file_fate (pyfloat := Z) world_exists world_blif_suffix
                (world_open JNull) world_is_file world_which world_path_str
                world_parent "bin/cut_enumeration" world_mkstemp
                (world_run NotStarted) "c.blif" None (Some 0)
                eq_refl ltac:(discriminate)) as H.
  exact (proj2 H).
Defined.

(** ** The whole of [solve_circuit] *)

Section whole_run.
Context {pyfloat : Type}.
Variable path_exists : string → bool.
Variable suffix_lower : string → string.
Variable open_json_load : string → read_outcome.
Variable generate_cuts_json_from_blif :
  string → option string → option Z → result string.
Variable Solve : solver_params → CpModel → cp_status * @solver pyfloat.
Variable str_status : cp_status → string.

Local Abbreviation load_ :=
  (load (pyfloat := pyfloat) path_exists suffix_lower open_json_load
     generate_cuts_json_from_blif).
Local Abbreviation solve_circuit_ :=
  (solve_circuit path_exists suffix_lower open_json_load
     generate_cuts_json_from_blif Solve str_status).

Lemma load_events cuts_path hint cut_size :
  fst (load_ cuts_path hint cut_size) = []
  ∨ ∃ tmp, suffix_lower cuts_path ≠ ".json"
           ∧ generate_cuts_json_from_blif cuts_path hint cut_size = Ok tmp
           ∧ fst (load_ cuts_path hint cut_size) = [EUnlink tmp].
Proof.
  unfold load, _load_cuts_data.
  destruct (path_exists cuts_path); simpl; [|by left].
  destruct (String.eqb_spec (suffix_lower cuts_path) ".json") as [Hs|Hs];
    simpl.
  - left. destruct (open_json_load cuts_path) as [| |data]; simpl; try done;
      try (by destruct (_normalize_cuts_data data)).
  - destruct (generate_cuts_json_from_blif cuts_path hint cut_size)
      as [tmp|e]; simpl; [|by left].
    right. exists tmp. split; [done|]. split; [done|].
    destruct (open_json_load tmp) as [| |data]; simpl; try done;
      try (by destruct (_normalize_cuts_data data)).
Qed.

End whole_run.


(** ** The depth bound as the driver and the builder use it *)

(** X20.  The bound of [_compute_depth_upper_bound] is at least 1 and at
    least the number of nodes, so the driver's
    max(depth_bound, len(node_dicts) or 1) and the builder's
    max(1, depth_bound or len(node_dicts)) both leave it as it is: in the
    depth modes the big-M of the level constraints and the upper end of
    the domains of D and of every level is exactly the bound printed as
    UB. *)
Theorem depth_bound_used_as_is (data : catalog) (ub : Z) :
  _compute_depth_upper_bound data = Some ub →
  let nodes := cat_nodes data in
  let UB := Z.max ub (len_or_1 nodes) in
  1 ≤ ub ∧ Z.of_nat (length nodes) ≤ ub
  ∧ UB = ub ∧ max_depth_bound nodes UB = ub
  ∧ ∀ fd b,
      build_model data (Some UB) fd = Ok b →
      (∀ name l, dict_get name (b_level_vars b) = Some l →
         variables (b_model b) !! l = Some (mk_var 0 ub ("L_" +:+ name)))
      ∧ ∃ D, b_D b = Some D
             ∧ variables (b_model b) !! D = Some (mk_var 0 ub "D").
Proof.
  intros Hub nodes UB.
  assert (Hge : 1 ≤ ub ∧ len_or_1 nodes ≤ ub).
  { unfold _compute_depth_upper_bound, compute_depth_upper_bound_fuel in Hub.
    destruct (base_depth _ data) as [base|]; [|done].
    simpl in Hub. inversion Hub. unfold ub_of_base. fold nodes. lia. }
  destruct Hge as [H1 Hn].
  assert (Hlen : Z.of_nat (length nodes) ≤ len_or_1 nodes).
  { unfold len_or_1, or_1.
    destruct (Z.eqb_spec (Z.of_nat (length nodes)) 0); lia. }
  assert (HUB : UB = ub) by (unfold UB; lia).
  assert (HM : max_depth_bound nodes UB = ub).
  { unfold max_depth_bound. rewrite HUB.
    destruct (Z.eqb_spec ub 0); lia. }
  split; [done|]. split; [lia|]. split; [done|]. split; [done|].
  intros fd b Hb.
  destruct (build_model_decls _ _ _ _ Hb) as (_ & _ & _ & Hd).
  destruct (Hd UB eq_refl) as (Hl & HD). fold nodes in Hl, HD.
  rewrite HM in Hl, HD. split; [exact Hl|].
  destruct (build_model_depth_D _ _ _ _ Hb) as [D HbD].
  exists D. split; [done|]. by apply HD.
Qed.

Lemma depth_bound_used_as_is_witness :
  Z.max 12 (len_or_1 (cat_nodes catalog_chain)) = 12
  ∧ max_depth_bound (cat_nodes catalog_chain)
      (Z.max 12 (len_or_1 (cat_nodes catalog_chain))) = 12.
Proof.
  destruct (depth_bound_used_as_is catalog_chain 12)
    as (_ & _ & H1 & H2 & _); [vm_compute; reflexivity|].
  split; [exact H1|exact H2].
Defined.

(** ** With a sound solver the driver writes covers *)

Lemma chosen_cuts_closed data db fd b val :
  build_model data db fd = Ok b →
  feasible val (b_model b) = true →
  let nodes := cat_nodes data in
  let chosen :=
    _extract_chosen_cuts nodes (b_var_node_used b) (b_var_cut b) val in
  ∀ n i nd c leaf,
    dict_get n chosen = Some i →
    node_map_of nodes !! n = Some nd → nd_cuts nd !! i = Some c →
    leaf ∈ default [] (cut_leaves c) → leaf ∈ map nd_name nodes →
    is_Some (dict_get leaf chosen).
Proof.
  intros Hb Hf nodes chosen n i nd c leaf Hget HM Hc Hleaf Hname.
  destruct (build_model_spec _ _ _ _ Hb) as (Hok & _).
  destruct (solution_facts _ _ _ _ _ Hb Hf) as (_ & _ & HB).
  destruct (chosen_cuts_keys _ _ _ _ _ Hb Hf) as (Hkeys & _).
  destruct (chosen_cuts_entry _ _ _ _ _ _ _ Hok Hget)
    as (nd' & c' & ci & HM' & Hnd' & Hn' & _ & Hci & Hv & _ & Hc' & Hl' & _).
  fold nodes in HM'. rewrite HM in HM'. inversion HM'; subst nd'.
  rewrite Hc in Hc'. inversion Hc'; subst c'.
  rewrite Hl' in Hleaf. simpl in Hleaf.
  apply Hkeys. split; [done|].
  apply (HB nd ci leaf); try done. by rewrite Hn'.
Qed.

Lemma built_cover data db fd b0 mode b val :
  build_model data db fd = Ok b0 → apply_objective b0 mode = Ok b →
  feasible val (b_model b) = true →
  is_cover data
    (_extract_chosen_cuts (cat_nodes data) (b_var_node_used b) (b_var_cut b)
       val).
Proof.
  intros Hb0 Hb Hf.
  destruct (apply_objective_fields _ _ _ Hb)
    as (Hvu & Hvc & _ & _ & Hcs & Hvars).
  assert (Hf0 : feasible val (b_model b0) = true).
  { unfold feasible, domains_ok in *. by rewrite <- Hcs, <- Hvars. }
  rewrite Hvu, Hvc.
  destruct (build_model_spec _ _ _ _ Hb0) as (Hok & _).
  destruct (chosen_cuts_keys _ _ _ _ _ Hb0 Hf0) as (_ & Hroots).
  split; [by eapply extract_selection_in_catalog|].
  split; [exact Hroots|].
  by apply (chosen_cuts_closed _ _ _ _ _ Hb0 Hf0).
Qed.

Section sound_solver.
Context {pyfloat : Type}.
Variable Solve : solver_params → CpModel → cp_status * @solver pyfloat.
Variable str_status : cp_status → string.
Hypothesis Solve_sound : solver_sound Solve.

Lemma solve_model_sound m tl ag rg nw seed stop s st :
  solve_model Solve m tl ag rg nw seed stop = (s, st) →
  is_solved st = true → feasible (Value s) m = true.
Proof.
  unfold solve_model.
  destruct (Solve _ m) as [st' s'] eqn:HS. intros H Hs.
  inversion H; subst. by eapply Solve_sound.
Qed.

Lemma cover_finish data path mode st D obj tie chosen :
  is_cover data chosen →
  all_events (cover_event data path)
    (@finish pyfloat path mode st D obj tie chosen).
Proof.
  intros Hsel.
  destruct (finish_spec (pyfloat := pyfloat) path mode st D obj tie chosen)
    as (ev & -> & _ & Hev & _).
  intros e He. simpl in He. specialize (Hev e He).
  destruct e as [line|p|p c]; simpl; [done|done|].
  destruct Hev as [-> ->]. split; [done|]. by exists chosen.
Qed.

(** X21.  With a sound solver (one whose values, when it answers OPTIMAL or
    FEASIBLE, solve the model) every chosen-cuts document the driver
    writes, in every mode and also when Phase B falls back to Phase A, is
    a cover of the catalog: its keys are distinct node names mapped to
    positions of cuts that are not self-cuts; it holds every root that
    names a node (a declared output, else Nout, else the last node); and
    with a node it holds every leaf of the node's chosen cut that is itself
    a catalog node. *)
Theorem sound_solver_writes_covers (data : catalog) (path mode : string) :
  all_events (cover_event data path)
    (solve_circuit_on Solve str_status data path mode).
Proof.
  unfold solve_circuit_on.
  destruct (String.eqb mode "depth" || String.eqb mode "overall")%bool.
  - apply all_events_lift. intros ub _.
    apply all_events_print; [done|].
    apply all_events_lift. intros pa0 Hpa0.
    apply all_events_lift. intros pa Hpa.
    destruct (solve_model Solve (b_model pa) _ _ _ _ _ _) as [sa sta] eqn:HSa.
    apply all_events_print; [done|].
    destruct (is_solved sta) eqn:Hsa; simpl negb; cbv iota.
    + pose proof (solve_model_sound _ _ _ _ _ _ _ _ _ HSa Hsa) as Hfa.
      apply all_events_lift. intros Da _.
      apply all_events_print; [done|].
      apply all_events_lift. intros pb0 Hpb0.
      apply all_events_lift. intros pb Hpb.
      destruct (solve_model Solve (b_model pb) _ _ _ _ _ _)
        as [sb stb] eqn:HSb.
      apply all_events_print; [done|].
      destruct (is_solved stb) eqn:Hsb.
      * pose proof (solve_model_sound _ _ _ _ _ _ _ _ _ HSb Hsb) as Hfb.
        apply all_events_lift. intros Db _.
        apply cover_finish.
        apply (built_cover _ _ _ _ _ _ _ Hpb0 Hpb Hfb).
      * apply all_events_print; [done|].
        apply cover_finish.
        apply (built_cover _ _ _ _ _ _ _ Hpa0 Hpa Hfa).
    + apply all_events_print; [done|]. apply all_events_ret.
  - apply all_events_lift. intros s0 Hs0.
    apply all_events_lift. intros s1 Hs1.
    destruct (solve_model Solve (b_model s1) _ _ _ _ _ _) as [sv stv] eqn:HSv.
    apply all_events_print; [done|].
    destruct (is_solved stv) eqn:Hsv; simpl negb; cbv iota.
    + pose proof (solve_model_sound _ _ _ _ _ _ _ _ _ HSv Hsv) as Hfv.
      apply cover_finish.
      apply (built_cover _ _ _ _ _ _ _ Hs0 Hs1 Hfv).
    + apply all_events_print; [done|]. apply all_events_ret.
Qed.
End sound_solver.

Lemma sound_solver_writes_covers_witness :
  cover_event (F := Z) catalog_chain "chosen.json"
    (EWriteJson "chosen.json"
       (chosen_cuts_json [("a", 0%nat); ("b", 0%nat)])).
Proof.
  refine (sound_solver_writes_covers chain_solver stub_str _ catalog_chain
            "chosen.json" "area" _ _).
  - intros params m st s H Hs. unfold chain_solver in H.
    destruct (feasible all_ones m) eqn:Hf; inversion H; subst; [exact Hf|].
    discriminate Hs.
  - apply list_elem_of_In. vm_compute.
    repeat (first [left; reflexivity | right]).
Defined.

(** ** The caller's test on the returned status *)

Section caller_gate.
Context {pyfloat : Type}.
Variable Solve : solver_params → CpModel → cp_status * @solver pyfloat.
Variable str_status : cp_status → string.
(** Python's [str] of MODEL_INVALID, the one status [_status_to_str] has no
    name for, is not the name of another status. *)
Hypothesis str_invalid_feasible : str_status MODEL_INVALID ≠ "FEASIBLE".
Hypothesis str_invalid_optimal : str_status MODEL_INVALID ≠ "OPTIMAL".

Lemma cp_good_is_solved (res : @solve_result pyfloat) (st : cp_status) :
  status res = _status_to_str str_status st → cp_good res = is_solved st.
Proof.
  unfold cp_good. intros ->. destruct st; simpl; try reflexivity.
  apply String.eqb_neq in str_invalid_feasible, str_invalid_optimal.
  by rewrite str_invalid_feasible, str_invalid_optimal.
Qed.

(** X22.  The test by which the pipeline of run_full_flow decides to run
    the rebuild step, status in ("FEASIBLE", "OPTIMAL") on the dict
    [solve_circuit] returned, holds exactly when that run of
    [solve_circuit] wrote the chosen-cuts file; when it fails the returned
    objective value is None.  So the rebuild step never runs on a file
    that this run did not write. *)
Theorem pipeline_gate_matches_file (data : catalog) (path mode : string)
    (ev : list (@event pyfloat)) (res : @solve_result pyfloat) :
  solve_circuit_on Solve str_status data path mode = (ev, Ok res) →
  cp_good res = wrote_file ev
  ∧ (cp_good res = false → objective_value res = None).
Proof.
  intros Hrun.
  pose proof (solve_circuit_on_well_reported Solve str_status data path mode)
    as Hw.
  rewrite Hrun in Hw. destruct Hw as (st & Hst & Hwf & Hnone).
  rewrite (cp_good_is_solved res st Hst), Hwf. split; [done|].
  intros Hs. by apply Hnone.
Qed.
End caller_gate.

Lemma pipeline_gate_matches_file_witness :
  let run := solve_circuit_on (pyfloat := Z) (stub_solve MODEL_INVALID all_ones)
               stub_str catalog_chain "chosen.json" "area" in
  cp_good (mk_result (pyfloat := Z) "1" None) = wrote_file (fst run).
Proof.
  intros run.
  refine (proj1 (pipeline_gate_matches_file
                   (stub_solve MODEL_INVALID all_ones) stub_str _ _
                   catalog_chain "chosen.json" "area" (fst run)
                   (mk_result "1" None) _)).
  - discriminate.
  - discriminate.
  - vm_compute. reflexivity.
Defined.
